(** * Tyk gateway: API loader and request pipeline assembler

    A shallow embedding of [gateway/api_loader.go] (package [gateway]) and
    the properties of its specification that concern

    - the descriptor validator ([skipSpecBecauseInvalid]),
    - TLS normalisation and listen-path arbitration in [processSpec],
    - the chain object built by [processSpec],
    - the loop check of the terminal [DummyProxyHandler],
    - the canonical looping name ([trimCategories], [APILoopingName]),
    - the strict-prefix gate ([explicitRouteSubpaths]),
    - the descriptor sort ([sortSpecsByListenPath], [listenPathLength]).

    Go strings are byte sequences: they are modelled by [string], whose
    characters are the bytes.  Go's [int] is modelled by [Z]; no arithmetic
    that could overflow is performed on it by the code below. *)

From Stdlib Require Import ZArith List Ascii String DecimalString.
From Stdlib Require Import Sorting.Permutation Sorting.Sorted.
From stdpp Require Import base tactics option list numbers strings gmap.

Local Open Scope string_scope.
Local Open Scope Z_scope.

(** ** The parts of Go's [strings] package the loader uses *)

Module Strs.

(** [len(s)] *)
Definition len (s : string) : Z := Z.of_nat (String.length s).

(** [s[:n]] and [s[n:]] for an index already known to be in range. *)
Fixpoint take (n : nat) (s : string) : string :=
  match n, s with
  | S n', String c s' => String c (take n' s')
  | _, _ => EmptyString
  end.

Fixpoint drop (n : nat) (s : string) : string :=
  match n, s with
  | S n', String _ s' => drop n' s'
  | _, _ => s
  end.

(** The slice expression [s[:h]]: Go panics ("slice bounds out of range")
    unless [0 <= h <= len(s)]; [None] stands for the panic. *)
Definition slice_to (s : string) (h : Z) : option string :=
  if (0 <=? h) && (h <=? len s) then Some (take (Z.to_nat h) s) else None.

(** [strings.HasPrefix(s, prefix)] *)
Fixpoint HasPrefix (s prefix : string) {struct prefix} : bool :=
  match prefix, s with
  | EmptyString, _ => true
  | String _ _, EmptyString => false
  | String p prefix', String c s' => Ascii.eqb c p && HasPrefix s' prefix'
  end.

(** [strings.HasSuffix(s, suffix)]:
    [len(s) >= len(suffix) && s[len(s)-len(suffix):] == suffix] *)
Definition HasSuffix (s suffix : string) : bool :=
  (String.length suffix <=? String.length s)%nat
  && String.eqb (drop (String.length s - String.length suffix) s) suffix.

(** [strings.Index(s, substr)]: the byte index of the first instance of
    [substr] in [s], or [-1]. *)
Fixpoint index_nat (s substr : string) : option nat :=
  if HasPrefix s substr then Some O
  else match s with
       | EmptyString => None
       | String _ s' => S <$> index_nat s' substr
       end.

Definition Index (s substr : string) : Z :=
  match index_nat s substr with
  | Some i => Z.of_nat i
  | None => -1
  end.

(** [strings.Contains(s, substr)] is [Index(s, substr) >= 0]. *)
Definition Contains (s substr : string) : bool := 0 <=? Index s substr.

(** [strings.Count(s, sep)] for a one-byte separator. *)
Fixpoint Count (s : string) (sep : ascii) : Z :=
  match s with
  | EmptyString => 0
  | String c s' => (if Ascii.eqb c sep then 1 else 0) + Count s' sep
  end.

(** [strings.Split(s, sep)] for a one-byte separator: the segments between
    the separators, always at least one. *)
Fixpoint Split (s : string) (sep : ascii) : list string :=
  match s with
  | EmptyString => [EmptyString]
  | String c s' =>
      if Ascii.eqb c sep then EmptyString :: Split s' sep
      else match Split s' sep with
           | seg :: segs => String c seg :: segs
           | [] => [String c EmptyString]
           end
  end.

(** [s[0]] and [s[len(s)-1]], for a non-empty [s]. *)
Definition first (s : string) : option ascii :=
  match s with EmptyString => None | String c _ => Some c end.

Fixpoint last (s : string) : option ascii :=
  match s with
  | EmptyString => None
  | String c EmptyString => Some c
  | String _ s' => last s'
  end.

(** [fmt.Sprintf("%d", n)] *)
Definition itoa (n : Z) : string := NilZero.string_of_int (Z.to_int n).

End Strs.

(** ** Data model *)

(** [net/url.URL], the fields the loader reads and writes. *)
Record URL : Type := mkURL {
  Scheme : string;
  Host : string;
  Path : string;
  RawQuery : string
}.

(** [spec.Proxy.Transport]: the TLS versions are unsigned 16-bit numbers
    ([tls.VersionTLS12] is [0x0303]); the loader only compares and copies
    them. *)
Record TransportConfig : Type := mkTransport {
  SSLMinVersion : N;
  SSLMaxVersion : N
}.

Record ProxyConfig : Type := mkProxy {
  ListenPath : string;
  TargetURL : string;
  Transport : TransportConfig
}.

(** [apidef.MiddlewareDriver] and [apidef.MiddlewareDefinition]. *)
Inductive MiddlewareDriver : Type :=
| OttoDriver
| GoPluginDriver
| OtherDriver (name : string).

Record MiddlewareDefinition : Type := mkMwDef {
  mwName : string;
  mwPath : string;
  mwRequireSession : bool;
  mwRawBodyOnly : bool;
  mwDisabled : bool
}.

(** [APISpec], the descriptor: the fields [processSpec], the sort and the
    loop dispatcher depend on.  [VersionOverrideTargets] lists the
    [OverrideTarget] of every entry of [VersionData.Versions]. *)
Record APISpec : Type := mkSpec {
  APIID : string;
  IdHex : string;
  Name : string;
  OrgID : string;
  Domain : string;
  Protocol : string;
  Internal : bool;
  UseKeylessAccess : bool;
  UseStandardAuth : bool;
  CustomPluginAuthEnabled : bool;
  UseGoPluginAuth : bool;
  EnableCoProcessAuth : bool;
  CustomMiddlewareDriver : MiddlewareDriver;
  CustomMiddlewareBundle : string;
  CustomMiddlewareBundleDisabled : bool;
  NotVersioned : bool;
  VersionOverrideTargets : list string;
  TagHeaders : list string;
  Proxy : ProxyConfig;
  target : option URL
}.

Definition setListenPath (spec : APISpec) (p : string) : APISpec :=
  mkSpec (APIID spec) (IdHex spec) (Name spec) (OrgID spec) (Domain spec)
    (Protocol spec) (Internal spec) (UseKeylessAccess spec)
    (UseStandardAuth spec) (CustomPluginAuthEnabled spec)
    (UseGoPluginAuth spec) (EnableCoProcessAuth spec)
    (CustomMiddlewareDriver spec) (CustomMiddlewareBundle spec)
    (CustomMiddlewareBundleDisabled spec) (NotVersioned spec)
    (VersionOverrideTargets spec) (TagHeaders spec)
    (mkProxy p (TargetURL (Proxy spec)) (Transport (Proxy spec)))
    (target spec).

Definition setTargetURL (spec : APISpec) (u : string) : APISpec :=
  mkSpec (APIID spec) (IdHex spec) (Name spec) (OrgID spec) (Domain spec)
    (Protocol spec) (Internal spec) (UseKeylessAccess spec)
    (UseStandardAuth spec) (CustomPluginAuthEnabled spec)
    (UseGoPluginAuth spec) (EnableCoProcessAuth spec)
    (CustomMiddlewareDriver spec) (CustomMiddlewareBundle spec)
    (CustomMiddlewareBundleDisabled spec) (NotVersioned spec)
    (VersionOverrideTargets spec) (TagHeaders spec)
    (mkProxy (ListenPath (Proxy spec)) u (Transport (Proxy spec)))
    (target spec).

Definition setTransport (spec : APISpec) (t : TransportConfig) : APISpec :=
  mkSpec (APIID spec) (IdHex spec) (Name spec) (OrgID spec) (Domain spec)
    (Protocol spec) (Internal spec) (UseKeylessAccess spec)
    (UseStandardAuth spec) (CustomPluginAuthEnabled spec)
    (UseGoPluginAuth spec) (EnableCoProcessAuth spec)
    (CustomMiddlewareDriver spec) (CustomMiddlewareBundle spec)
    (CustomMiddlewareBundleDisabled spec) (NotVersioned spec)
    (VersionOverrideTargets spec) (TagHeaders spec)
    (mkProxy (ListenPath (Proxy spec)) (TargetURL (Proxy spec)) t)
    (target spec).

Definition setTagHeaders (spec : APISpec) (hs : list string) : APISpec :=
  mkSpec (APIID spec) (IdHex spec) (Name spec) (OrgID spec) (Domain spec)
    (Protocol spec) (Internal spec) (UseKeylessAccess spec)
    (UseStandardAuth spec) (CustomPluginAuthEnabled spec)
    (UseGoPluginAuth spec) (EnableCoProcessAuth spec)
    (CustomMiddlewareDriver spec) (CustomMiddlewareBundle spec)
    (CustomMiddlewareBundleDisabled spec) (NotVersioned spec)
    (VersionOverrideTargets spec) hs (Proxy spec) (target spec).

Definition setTarget (spec : APISpec) (u : option URL) : APISpec :=
  mkSpec (APIID spec) (IdHex spec) (Name spec) (OrgID spec) (Domain spec)
    (Protocol spec) (Internal spec) (UseKeylessAccess spec)
    (UseStandardAuth spec) (CustomPluginAuthEnabled spec)
    (UseGoPluginAuth spec) (EnableCoProcessAuth spec)
    (CustomMiddlewareDriver spec) (CustomMiddlewareBundle spec)
    (CustomMiddlewareBundleDisabled spec) (NotVersioned spec)
    (VersionOverrideTargets spec) (TagHeaders spec) (Proxy spec) u.

(** The stages a chain is assembled from, one constructor per middleware
    type named in [processSpec]. *)
Inductive HookType : Type :=
| HookType_Pre | HookType_Post | HookType_PostKeyAuth | HookType_CustomKeyCheck.

Inductive Middleware : Type :=
| VersionCheck | CORSMiddleware | RateCheckMW
| IPWhiteListMiddleware | IPBlackListMiddleware | CertificateCheckMW
| OrganizationMonitor | RequestSizeLimitMiddleware | MiddlewareContextVars
| TrackEndpointMiddleware
| Oauth2KeyExists | ExternalOAuthMiddleware | BasicAuthKeyIsValid
| HTTPSignatureValidationMiddleware | JWTMiddleware | OpenIDMW | AuthKey
| StripAuth | KeyExpired | AccessRightsCheck | GranularAccessMiddleware
| RateLimitAndQuotaCheck
| RateLimitForAPI (quotaKey : string)
| GraphQLMiddleware | GraphQLComplexityMiddleware
| GraphQLGranularAccessMiddleware
| ValidateJSON | ValidateRequest | PersistGraphQLOperationMiddleware
| TransformMiddleware | TransformJQMiddleware | TransformHeaders
| URLRewriteMiddleware | TransformMethod
| MockResponseMiddleware | RedisCacheMiddleware | VirtualEndpoint
| RequestSigning
| GoPluginMiddleware (path symbolName : string) (apiLevel : bool)
| CoProcessMiddleware (hook : HookType) (hookName : string)
    (driver : MiddlewareDriver) (rawBodyOnly : bool)
| DynamicMiddleware (className : string) (pre useSession auth : bool)
| StreamingMiddleware | UpstreamBasicAuth | UpstreamOAuth.

(** What a chain ends in: the terminal proxy handler of the main chain or
    [userRatesCheck] of the rate-limit side-chain. *)
Inductive ProxyKind : Type :=
| MultiTargetProxy
| SingleHostReverseProxy.

Inductive Sink : Type :=
| DummyProxy (spec : APISpec) (proxy : ProxyKind)
| userRatesCheck.

(** [http.Handler] values the loader builds: [alice.New(stages...).Then(sink)],
    the tracing wrappers, and the strict-prefix gate. *)
Inductive Handler : Type :=
| Chain (stages : list Middleware) (sink : Sink)
| TraceHandle (name : string) (h : Handler)
| OtelHTTPHandler (name : string) (h : Handler)
| explicitRouteHandler (prefix : string) (handler : Handler).

(** [ChainObject]; a nil handler is [None]. *)
Record ChainObject : Type := mkChainObject {
  ThisHandler : option Handler;
  RateLimitChain : option Handler;
  Open : bool;
  Skip : bool
}.

(** The parts of the gateway configuration the loader consults. *)
Record Config : Type := mkConfig {
  ListenPort : Z;
  HostName : string;
  EnableCustomDomains : bool;
  EnableStrictRoutes : bool;
  OpenTelemetryEnabled : bool;
  TraceEnabled : bool
}.

(** The gateway state: [gw.apisByID], [gw.apisHandlesByID] (every value the
    loader stores there is a [*ChainObject]) and the configuration. *)
Record Gateway : Type := mkGateway {
  apisByID : gmap string APISpec;
  apisHandlesByID : gmap string ChainObject;
  config : Config
}.

(** [*http.Request] with the request-context fields the terminal handler
    reads and writes. *)
Record Request : Type := mkRequest {
  Method : string;
  reqURL : URL;
  ctxURLRewriteTarget : option URL;
  ctxTransformRequestMethod : string;
  ctxLoopLevel : Z;
  ctxLoopLevelLimit : Z;
  ctxOrigRequestURL : option URL;
  ctxSelfLooping : bool;
  ctxCheckLoopLimits : bool;
  ctxVersionInfoSet : bool;
  ctxInternalRedirectTarget : option URL
}.

Definition setMethod (r : Request) (m : string) : Request :=
  mkRequest m (reqURL r) (ctxURLRewriteTarget r) (ctxTransformRequestMethod r)
    (ctxLoopLevel r) (ctxLoopLevelLimit r) (ctxOrigRequestURL r)
    (ctxSelfLooping r) (ctxCheckLoopLimits r) (ctxVersionInfoSet r)
    (ctxInternalRedirectTarget r).

Definition setURL (r : Request) (u : URL) : Request :=
  mkRequest (Method r) u (ctxURLRewriteTarget r) (ctxTransformRequestMethod r)
    (ctxLoopLevel r) (ctxLoopLevelLimit r) (ctxOrigRequestURL r)
    (ctxSelfLooping r) (ctxCheckLoopLimits r) (ctxVersionInfoSet r)
    (ctxInternalRedirectTarget r).

Definition ctxSetURLRewriteTarget (r : Request) (u : option URL) : Request :=
  mkRequest (Method r) (reqURL r) u (ctxTransformRequestMethod r)
    (ctxLoopLevel r) (ctxLoopLevelLimit r) (ctxOrigRequestURL r)
    (ctxSelfLooping r) (ctxCheckLoopLimits r) (ctxVersionInfoSet r)
    (ctxInternalRedirectTarget r).

Definition ctxSetTransformRequestMethod (r : Request) (m : string) : Request :=
  mkRequest (Method r) (reqURL r) (ctxURLRewriteTarget r) m
    (ctxLoopLevel r) (ctxLoopLevelLimit r) (ctxOrigRequestURL r)
    (ctxSelfLooping r) (ctxCheckLoopLimits r) (ctxVersionInfoSet r)
    (ctxInternalRedirectTarget r).

Definition ctxSetOrigRequestURL (r : Request) (u : option URL) : Request :=
  mkRequest (Method r) (reqURL r) (ctxURLRewriteTarget r)
    (ctxTransformRequestMethod r) (ctxLoopLevel r) (ctxLoopLevelLimit r) u
    (ctxSelfLooping r) (ctxCheckLoopLimits r) (ctxVersionInfoSet r)
    (ctxInternalRedirectTarget r).

Definition SetSelfLooping (r : Request) (b : bool) : Request :=
  mkRequest (Method r) (reqURL r) (ctxURLRewriteTarget r)
    (ctxTransformRequestMethod r) (ctxLoopLevel r) (ctxLoopLevelLimit r)
    (ctxOrigRequestURL r) b (ctxCheckLoopLimits r) (ctxVersionInfoSet r)
    (ctxInternalRedirectTarget r).

Definition ctxSetCheckLoopLimits (r : Request) (b : bool) : Request :=
  mkRequest (Method r) (reqURL r) (ctxURLRewriteTarget r)
    (ctxTransformRequestMethod r) (ctxLoopLevel r) (ctxLoopLevelLimit r)
    (ctxOrigRequestURL r) (ctxSelfLooping r) b (ctxVersionInfoSet r)
    (ctxInternalRedirectTarget r).

(** [ctxSetVersionInfo(r, nil)] *)
Definition ctxClearVersionInfo (r : Request) : Request :=
  mkRequest (Method r) (reqURL r) (ctxURLRewriteTarget r)
    (ctxTransformRequestMethod r) (ctxLoopLevel r) (ctxLoopLevelLimit r)
    (ctxOrigRequestURL r) (ctxSelfLooping r) (ctxCheckLoopLimits r) false
    (ctxInternalRedirectTarget r).

Definition ctxSetInternalRedirectTarget (r : Request) (u : option URL) : Request :=
  mkRequest (Method r) (reqURL r) (ctxURLRewriteTarget r)
    (ctxTransformRequestMethod r) (ctxLoopLevel r) (ctxLoopLevelLimit r)
    (ctxOrigRequestURL r) (ctxSelfLooping r) (ctxCheckLoopLimits r)
    (ctxVersionInfoSet r) u.

Definition withScheme (u : URL) (s : string) : URL :=
  mkURL s (Host u) (Path u) (RawQuery u).

Definition withHostQuery (u : URL) (h q : string) : URL :=
  mkURL (Scheme u) h (Path u) q.

(** Constants of [net/http], [crypto/tls] and the loader. *)
Definition StatusNotFound : Z := 404.
Definition StatusInternalServerError : Z := 500.
Definition VersionTLS12 : N := 771.
Definition defaultLoopLevelLimit : Z := 5.
Definition rateLimitEndpoint : string := "/tyk/rate-limits/".

(** [http.StatusText], restricted to the two codes this development passes
    to it. *)
Definition StatusText (code : Z) : string :=
  if code =? 404 then "Not Found"
  else if code =? 500 then "Internal Server Error"
  else "".

(** ** Operations that depend on no collaborator *)

Definition generateDomainPath (hostname listenPath : string) : string :=
  hostname ++ listenPath.

(** [trimCategories]: the slice [name[:i-1]] faults when it is out of range;
    [None] is that run-time panic. *)
Definition trimCategories (name : string) : option string :=
  let i := Strs.Index name "#" in
  if negb (i =? -1) then Strs.slice_to name (i - 1) else Some name.

(** The test [len(segment) > 2 && segment[0] == '{' &&
    segment[len(segment)-1] == '}'] of [listenPathLength]. *)
Definition isParamSegment (segment : string) : bool :=
  (2 <? Strs.len segment)
  && bool_decide (Strs.first segment = Some "{"%char)
  && bool_decide (Strs.last segment = Some "}"%char).

Definition listenPathLength (listenPath : string) : Z :=
  if negb (Strs.Contains listenPath "{") then Strs.len listenPath
  else
    fold_left
      (fun length segment =>
         if isParamSegment segment then length else length + Strs.len segment)
      (Strs.Split listenPath "/"%char)
      (Strs.Count listenPath "/"%char).

(** The comparison closure of [sortSpecsByListenPath]. *)
Definition specLess (a b : APISpec) : bool :=
  if negb (Bool.eqb (String.eqb (Domain a) "") (String.eqb (Domain b) ""))
  then negb (String.eqb (Domain a) "")
  else listenPathLength (ListenPath (Proxy b)) <? listenPathLength (ListenPath (Proxy a)).

(** [explicitRouteSubpaths] *)
Definition explicitRouteSubpaths (prefix : string) (handler : Handler)
    (enabled : bool) : Handler :=
  if negb enabled then handler
  else if Strs.HasSuffix prefix "/" then handler
  else if Strs.Contains prefix "{" && Strs.Contains prefix "}" then handler
  else explicitRouteHandler prefix handler.

(** What [explicitRouteHandler.ServeHTTP] does with a request: it hands it
    to the inner handler, or writes a status line and a body. *)
Inductive GateResult : Type :=
| GateForward (inner : Handler) (r : Request)
| GateRespond (status : Z) (body : string).

Definition explicitRouteHandler_ServeHTTP (prefix : string) (handler : Handler)
    (r : Request) : GateResult :=
  if String.eqb (Path (reqURL r)) prefix
     || Strs.HasPrefix (Path (reqURL r)) (prefix ++ "/")
  then GateForward handler r
  else GateRespond StatusNotFound (StatusText StatusNotFound).

(** [isLoop]: the pair (found, err); a nil error is [None]. *)
Definition isLoop (r : Request) : bool * option string :=
  if negb (String.eqb (Scheme (reqURL r)) "tyk") then (false, None)
  else
    let limit := ctxLoopLevelLimit r in
    let limit := if limit =? 0 then defaultLoopLevelLimit else limit in
    if limit <? ctxLoopLevel r then
      (true,
       Some ("Loop level too deep. Found more than " ++ Strs.itoa limit
             ++ " loops in single request"))
    else (true, None).

(** [apisByListen[hash]]: a missing key reads as zero. *)
Definition mapCount (apisByListen : gmap string Z) (hash : string) : Z :=
  default 0 (apisByListen !! hash).

(** The TLS normalisation at the head of [processSpec]. *)
Definition normaliseTLS (t : TransportConfig) : TransportConfig :=
  let t :=
    if (0 <? SSLMaxVersion t)%N then mkTransport (SSLMinVersion t) VersionTLS12
    else t in
  if (SSLMaxVersion t <? SSLMinVersion t)%N
  then mkTransport (SSLMinVersion t) (SSLMinVersion t)
  else t.

(** Modelled from the spec: [gw.getApiSpec], which is not part of the loader
    file, yields "the previously-loaded descriptor with the same api_id (if
    any)", that is the entry of [gw.apisByID]. *)
Definition getApiSpec (gw : Gateway) (apiID : string) : option APISpec :=
  apisByID gw !! apiID.

(** ** The loader: [skipSpecBecauseInvalid], [processSpec], [loadHTTPService]

    Collaborators that live outside the loader file are parameters of the
    section.  Stores, health checkers, the JS virtual machine, the analytics
    plugin and logging have no influence on the descriptor or on the chain
    object and are left out. *)

(** The tuple [loadCustomMiddleware] returns. *)
Record CustomMiddleware : Type := mkCustomMiddleware {
  mwPaths : list string;
  mwAuthCheckFunc : MiddlewareDefinition;
  mwPreFuncs : list MiddlewareDefinition;
  mwPostFuncs : list MiddlewareDefinition;
  mwPostAuthCheckFuncs : list MiddlewareDefinition;
  mwResponseFuncs : list MiddlewareDefinition;
  mwDriver : MiddlewareDriver
}.

Definition isGoPlugin (d : MiddlewareDriver) : bool :=
  match d with GoPluginDriver => true | _ => false end.

Definition isOtto (d : MiddlewareDriver) : bool :=
  match d with OttoDriver => true | _ => false end.

(** A route added to the router of the descriptor's port and protocol:
    the host sub-router it sits under (empty for none), the path prefix, the
    path below the prefix ([None] for the catch-all route) and the handler
    attached. *)
Record Route : Type := mkRoute {
  routeHost : string;
  routePrefix : string;
  routePath : option string;
  routeHandler : option Handler
}.

(** The collaborators: functions of the standard library and of other
    files of the gateway that the loader calls. *)
Record Collaborators : Type := mkCollaborators {
  (** [spec.GetAPIDomain()] *)
  GetAPIDomain : APISpec -> string;
  (** [gw.kvStore]: [Some val] when the error is nil *)
  kvStore : string -> option string;
  (** [url.Parse]: [None] when it returns an error *)
  url_Parse : string -> option URL;
  (** [strings.ToLower], [filepath.Join] *)
  ToLower : string -> string;
  filepath_Join : string -> string -> string;
  (** [EnabledForSpec] of each middleware, for the descriptor at hand *)
  EnabledForSpec : APISpec -> Middleware -> bool;
  loadCustomMiddleware : APISpec -> CustomMiddleware;
  getBundleDestPath : APISpec -> string;
  getStreamingMiddleware : APISpec -> option Middleware;
  getUpstreamBasicAuthMw : APISpec -> option Middleware;
  getUpstreamOAuthMw : APISpec -> option Middleware;
  (** [httputil.ValidatePath]: [Some err] when the listen path is refused *)
  ValidatePath : string -> option string;
  shouldReloadSpec : option APISpec -> APISpec -> bool;
  (** the routes [generateSubRoutes] adds for a host and a prefix
      (playground, batch and OAuth endpoints) *)
  generateSubRoutes : APISpec -> string -> string -> list Route;
  (** the [regexp]-based [replaceNonAlphaNumeric], [strings.EqualFold] *)
  replaceNonAlphaNumeric : string -> string;
  EqualFold : string -> string -> bool;
  (** [r.URL.Query().Get(key)] on the raw query, [r.URL.Hostname()],
      [strconv.Atoi] (its value, zero on a parse error) *)
  QueryGet : string -> string -> string;
  Hostname : URL -> string;
  Atoi : string -> Z;
  ctxIncLoopLevel : Request -> Z -> Request;
  (** [spec.getRedirectTargetUrl] ([None] for an error),
      [spec.SanitizeProxyPaths] *)
  getRedirectTargetUrl : APISpec -> option URL -> option URL;
  SanitizeProxyPaths : APISpec -> Request -> Request
}.

Section Loader.

Variable env : Collaborators.

(** The protocols of the first [case] of [skipSpecBecauseInvalid]. *)
Definition isHTTPProtocol (protocol : string) : bool :=
  String.eqb protocol "" || String.eqb protocol "http"
  || String.eqb protocol "https".

(** [skipSpecBecauseInvalid]: the verdict and the descriptor, whose target
    URL the function overwrites when the key-value lookup succeeds. *)
Definition skipSpecBecauseInvalid (spec : APISpec) : bool * APISpec :=
  if isHTTPProtocol (Protocol spec)
     && String.eqb (ListenPath (Proxy spec)) ""
  then (true, spec)
  else if isHTTPProtocol (Protocol spec)
          && Strs.Contains (ListenPath (Proxy spec)) " "
  then (true, spec)
  else
    let spec :=
      match kvStore env (TargetURL (Proxy spec)) with
      | Some val => setTargetURL spec val
      | None => spec
      end in
    match url_Parse env (TargetURL (Proxy spec)) with
    | None => (true, spec)
    | Some _ => (false, spec)
    end.

(** The [for] loop of [processSpec] that settles the listen path.  One
    unit of [fuel] is one evaluation of the loop body; [None] means the
    fuel ran out before the loop left. *)
Fixpoint listenPathLoop (gw : Gateway) (apisByListen : gmap string Z)
    (fuel : nat) (spec : APISpec) (pathModified : bool)
    : option (APISpec * bool) :=
  match fuel with
  | O => None
  | S fuel' =>
      let domain := GetAPIDomain env spec in
      let hash := generateDomainPath domain (ListenPath (Proxy spec)) in
      if mapCount apisByListen hash <? 2 then Some (spec, pathModified)
      else if negb pathModified then
        let keep :=
          match getApiSpec gw (APIID spec) with
          | Some prev =>
              String.eqb (ListenPath (Proxy prev)) (ListenPath (Proxy spec))
          | None => false
          end in
        if keep then Some (spec, pathModified)
        else
          listenPathLoop gw apisByListen fuel'
            (setListenPath spec
               (ListenPath (Proxy spec) ++ "-" ++ APIID spec))
            true
      else
        listenPathLoop gw apisByListen fuel'
          (setListenPath spec (ListenPath (Proxy spec) ++ "_")) true
  end.

(** The longest key of the collision map. *)
Definition maxKeyLength (apisByListen : gmap string Z) : nat :=
  foldr Nat.max O (String.length <$> (map_to_list apisByListen).*1).

(** Fuel that always suffices: a key counted twice is a key of the map, so
    the loop body cannot run again once the path is longer than every
    key. *)
Definition loopFuel (apisByListen : gmap string Z) (spec : APISpec) : nat :=
  S (S (maxKeyLength apisByListen) - String.length (ListenPath (Proxy spec))).

(** Modelled from the spec: [gw.mwAppendEnabled] is not part of the loader
    file; "each stage is conditionally appended based on descriptor flags;
    a stage that declines to enable itself contributes nothing". *)
Definition mwAppendEnabled (spec : APISpec) (chain : list Middleware)
    (mw : Middleware) : list Middleware :=
  if EnabledForSpec env spec mw then (chain ++ [mw])%list else chain.

Definition mwAppendOptional (spec : APISpec) (chain : list Middleware)
    (mw : option Middleware) : list Middleware :=
  match mw with
  | Some m => mwAppendEnabled spec chain m
  | None => chain
  end.

(** [fixFuncPath] *)
Definition fixFuncPath (pathPrefix : string)
    (funcs : list MiddlewareDefinition) : list MiddlewareDefinition :=
  map (fun f => mkMwDef (mwName f) (filepath_Join env pathPrefix (mwPath f))
                  (mwRequireSession f) (mwRawBodyOnly f) (mwDisabled f))
      funcs.

(** The bundle fix-up of the custom middleware paths. *)
Definition fixBundlePaths (spec : APISpec) (cm : CustomMiddleware)
    : CustomMiddleware :=
  let prefix :=
    if negb (CustomMiddlewareBundleDisabled spec)
       && negb (String.eqb (CustomMiddlewareBundle spec) "")
    then getBundleDestPath env spec else "" in
  if isGoPlugin (mwDriver cm) && negb (String.eqb prefix "") then
    let a := mwAuthCheckFunc cm in
    mkCustomMiddleware (mwPaths cm)
      (mkMwDef (mwName a) (filepath_Join env prefix (mwPath a))
         (mwRequireSession a) (mwRawBodyOnly a) (mwDisabled a))
      (fixFuncPath prefix (mwPreFuncs cm))
      (fixFuncPath prefix (mwPostFuncs cm))
      (fixFuncPath prefix (mwPostAuthCheckFuncs cm))
      (fixFuncPath prefix (mwResponseFuncs cm))
      (mwDriver cm)
  else cm.

(** One custom pre or post hook (the two loops over [mwPreFuncs] and
    [mwPostFuncs]). *)
Definition appendHook (spec : APISpec) (driver : MiddlewareDriver)
    (hook : HookType) (isPre : bool) (chain : list Middleware)
    (obj : MiddlewareDefinition) : list Middleware :=
  if isGoPlugin driver then
    mwAppendEnabled spec chain (GoPluginMiddleware (mwPath obj) (mwName obj) true)
  else if negb (isOtto driver) then
    mwAppendEnabled spec chain
      (CoProcessMiddleware hook (mwName obj) driver (mwRawBodyOnly obj))
  else
    (chain ++ [DynamicMiddleware (mwName obj) isPre (mwRequireSession obj) false])%list.

(** One post-authentication hook (the loop over [mwPostAuthCheckFuncs]). *)
Definition appendPostAuthHook (spec : APISpec) (driver : MiddlewareDriver)
    (chain : list Middleware) (obj : MiddlewareDefinition) : list Middleware :=
  if isGoPlugin driver then
    mwAppendEnabled spec chain (GoPluginMiddleware (mwPath obj) (mwName obj) true)
  else
    mwAppendEnabled spec chain
      (CoProcessMiddleware HookType_PostKeyAuth (mwName obj) driver
         (mwRawBodyOnly obj)).

(** The authentication sub-sequence [authArray]. *)
Definition buildAuthArray (spec : APISpec) (cm : CustomMiddleware)
    : list Middleware :=
  let authArray :=
    fold_left (mwAppendEnabled spec)
      [Oauth2KeyExists; ExternalOAuthMiddleware; BasicAuthKeyIsValid;
       HTTPSignatureValidationMiddleware; JWTMiddleware; OpenIDMW] [] in
  let customPluginAuthEnabled :=
    CustomPluginAuthEnabled spec || UseGoPluginAuth spec
    || EnableCoProcessAuth spec in
  let authCheck := mwAuthCheckFunc cm in
  let authArray :=
    if customPluginAuthEnabled && negb (mwDisabled authCheck) then
      match CustomMiddlewareDriver spec with
      | OttoDriver =>
          (authArray ++ [DynamicMiddleware (mwName authCheck) true false true])%list
      | GoPluginDriver =>
          mwAppendEnabled spec authArray
            (GoPluginMiddleware (mwPath authCheck) (mwName authCheck) true)
      | OtherDriver _ =>
          mwAppendEnabled spec authArray
            (CoProcessMiddleware HookType_CustomKeyCheck (mwName authCheck)
               (mwDriver cm) (mwRawBodyOnly authCheck))
      end
    else authArray in
  if UseStandardAuth spec || (length authArray =? 0)%nat
  then (authArray ++ [AuthKey])%list else authArray.

(** The main sequence [chainArray]. *)
Definition buildChainArray (spec : APISpec) (cm : CustomMiddleware)
    (authArray : list Middleware) (quotaKey : string) : list Middleware :=
  let app := mwAppendEnabled spec in
  let chainArray := fold_left app [VersionCheck; CORSMiddleware] [] in
  let chainArray :=
    fold_left (appendHook spec (mwDriver cm) HookType_Pre true)
      (mwPreFuncs cm) chainArray in
  let chainArray :=
    fold_left app
      [RateCheckMW; IPWhiteListMiddleware; IPBlackListMiddleware;
       CertificateCheckMW; OrganizationMonitor; RequestSizeLimitMiddleware;
       MiddlewareContextVars; TrackEndpointMiddleware] chainArray in
  let chainArray :=
    if negb (UseKeylessAccess spec) then
      let chainArray := (chainArray ++ authArray)%list in
      let chainArray :=
        fold_left (appendPostAuthHook spec (mwDriver cm))
          (mwPostAuthCheckFuncs cm) chainArray in
      fold_left app
        [StripAuth; KeyExpired; AccessRightsCheck; GranularAccessMiddleware;
         RateLimitAndQuotaCheck] chainArray
    else chainArray in
  let chainArray :=
    fold_left app [RateLimitForAPI quotaKey; GraphQLMiddleware] chainArray in
  let chainArray := mwAppendOptional spec chainArray (getStreamingMiddleware env spec) in
  let chainArray :=
    if negb (UseKeylessAccess spec) then
      fold_left app
        [GraphQLComplexityMiddleware; GraphQLGranularAccessMiddleware] chainArray
    else chainArray in
  let chainArray := mwAppendOptional spec chainArray (getUpstreamBasicAuthMw env spec) in
  let chainArray := mwAppendOptional spec chainArray (getUpstreamOAuthMw env spec) in
  let chainArray :=
    fold_left app
      [ValidateJSON; ValidateRequest; PersistGraphQLOperationMiddleware;
       TransformMiddleware; TransformJQMiddleware; TransformHeaders;
       URLRewriteMiddleware; TransformMethod;
       MockResponseMiddleware; RedisCacheMiddleware; VirtualEndpoint;
       RequestSigning; GoPluginMiddleware "" "" false] chainArray in
  fold_left (appendHook spec (mwDriver cm) HookType_Post false)
    (mwPostFuncs cm) chainArray.

(** The side-chain [simpleArray] of the rate-limit endpoint. *)
Definition buildSimpleArray (spec : APISpec) (authArray : list Middleware)
    : list Middleware :=
  let app := mwAppendEnabled spec in
  let simpleArray :=
    fold_left app
      [IPWhiteListMiddleware; IPBlackListMiddleware; OrganizationMonitor;
       VersionCheck] [] in
  let simpleArray := (simpleArray ++ authArray)%list in
  fold_left app [KeyExpired; AccessRightsCheck] simpleArray.

(** [processSpec]: the descriptor as the function leaves it and the chain
    object it returns.  [None] only if the listen-path loop ran out of
    fuel, which [processSpec_total] excludes. *)
Definition processSpec (gw : Gateway) (spec : APISpec)
    (apisByListen : gmap string Z) (quotaKey : string)
    : option (APISpec * ChainObject) :=
  let chainDef := mkChainObject None None false false in
  let spec := setTransport spec (normaliseTLS (Transport (Proxy spec))) in
  let spec :=
    if (0 <? length (TagHeaders spec))%nat
    then setTagHeaders spec (map (ToLower env) (TagHeaders spec)) else spec in
  let '(invalid, spec) := skipSpecBecauseInvalid spec in
  if invalid then
    Some (spec, mkChainObject (ThisHandler chainDef) (RateLimitChain chainDef)
                  (Open chainDef) true)
  else
    let chainDef :=
      if Internal spec
      then mkChainObject (ThisHandler chainDef) (RateLimitChain chainDef)
             (Open chainDef) true
      else chainDef in
    match listenPathLoop gw apisByListen (loopFuel apisByListen spec) spec false with
    | None => None
    | Some (spec, pathModified) =>
        let cm := fixBundlePaths spec (loadCustomMiddleware env spec) in
        let enableVersionOverrides :=
          existsb (fun overrideTarget =>
                     negb (String.eqb overrideTarget "")
                     && negb (NotVersioned spec))
                  (VersionOverrideTargets spec) in
        let spec := setTarget spec (url_Parse env (TargetURL (Proxy spec))) in
        let proxy :=
          if enableVersionOverrides then MultiTargetProxy
          else SingleHostReverseProxy in
        let chainDef :=
          if UseKeylessAccess spec
          then mkChainObject (ThisHandler chainDef) (RateLimitChain chainDef)
                 true (Skip chainDef)
          else chainDef in
        let authArray :=
          if negb (UseKeylessAccess spec) then buildAuthArray spec cm else [] in
        let chain :=
          Chain (buildChainArray spec cm authArray quotaKey)
                (DummyProxy spec proxy) in
        let chainDef :=
          if negb (UseKeylessAccess spec)
          then mkChainObject (ThisHandler chainDef)
                 (Some (Chain (buildSimpleArray spec authArray) userRatesCheck))
                 (Open chainDef) (Skip chainDef)
          else chainDef in
        let handler :=
          if TraceEnabled (config gw) then TraceHandle (Name spec) chain
          else if OpenTelemetryEnabled (config gw)
          then OtelHTTPHandler (Name spec) chain
          else chain in
        Some (spec, mkChainObject (Some handler) (RateLimitChain chainDef)
                      (Open chainDef) (Skip chainDef))
    end.

End Loader.

(** ** Route registration: [loadHTTPService] *)

Inductive LoadResult : Type :=
| LoadError (msg : string)
| LoadPanic
| Loaded (spec : APISpec) (chainObj : ChainObject) (routes : list Route).

Section Registry.

Variable env : Collaborators.

(** The routes registered for one prefix. *)
Definition registerPrefix (gw : Gateway) (spec : APISpec)
    (chainObj : ChainObject) (hostname prefix : string) : list Route :=
  (generateSubRoutes env spec hostname prefix
   ++ (if negb (Open chainObj)
       then [mkRoute hostname prefix (Some rateLimitEndpoint)
               (RateLimitChain chainObj)]
       else [])
   ++ [mkRoute hostname prefix None
         ((fun h => explicitRouteSubpaths prefix h
                      (EnableStrictRoutes (config gw)))
            <$> ThisHandler chainObj)])%list.

(** [loadHTTPService]: the descriptor, the chain object and the routes
    added.  A chain object that is absent from [apisHandlesByID] although
    the descriptor needs no reload is a nil pointer, whose [Skip] field
    cannot be read: [LoadPanic].  A chain object that is not skipped carries
    a handler. *)
Definition loadHTTPService (gw : Gateway) (spec : APISpec)
    (apisByListen : gmap string Z) : LoadResult :=
  match ValidatePath env (ListenPath (Proxy spec)) with
  | Some err => LoadError ("invalid listen path while loading api: " ++ err)
  | None =>
      let hostname :=
        if EnableCustomDomains (config gw) && negb (String.eqb (Domain spec) "")
        then GetAPIDomain env spec else HostName (config gw) in
      let loaded :=
        if negb (shouldReloadSpec env (getApiSpec gw (APIID spec)) spec)
        then (fun c => (spec, c)) <$> (apisHandlesByID gw !! APIID spec)
        else processSpec env gw spec apisByListen "" in
      match loaded with
      | None => LoadPanic
      | Some (spec, chainObj) =>
          if Skip chainObj then Loaded spec chainObj []
          else
            Loaded spec chainObj
              (registerPrefix gw spec chainObj hostname
                 ("/" ++ APIID spec ++ "/")
               ++ registerPrefix gw spec chainObj hostname
                    (ListenPath (Proxy spec)))%list
      end
  end.

End Registry.

(** ** The descriptor sort *)

Section Sort.

(** [sort.Slice] of Go's standard library, applied to a slice of
    descriptors and a comparison.  It is not part of the gateway; its
    documentation promises a sorted rearrangement ([SliceContract] below)
    and says that "the sort is not guaranteed to be stable".  [sort.Slice]
    below is what the library does. *)
Variable sort_Slice : (APISpec -> APISpec -> bool) -> list APISpec -> list APISpec.

Definition sortSpecsByListenPath (specs : list APISpec) : list APISpec :=
  sort_Slice specLess specs.

End Sort.

(** ** [sort.Slice] as Go implements it

    [sort.Slice] belongs to Go's standard library, not to the gateway.
    Since Go 1.19 it is a pattern-defeating quicksort ([pdqsort_func] and
    its helpers in [sort/zsortfunc.go]) that works in place, through
    [data.Less] and [data.Swap] on positions.  The functions below follow
    that file one by one.  Positions are Go [int]s; a run yields [None]
    when it reads or swaps outside the slice, or exceeds the number of
    rounds its loops are allowed here. *)

Module sort.

Section Slice.

(** [xorshift.Next], the pseudo-random generator [breakPatterns_func] draws
    positions from: the next state, which is also the number drawn. *)
Variable xorshift_Next : Z -> Z.

(** The comparison handed to [sort.Slice], on elements. *)
Variable less : APISpec -> APISpec -> bool.

(** A step on the slice: the value it yields and the slice afterwards. *)
Definition InPlace (A : Type) : Type := list APISpec -> option (A * list APISpec).

Definition ret {A : Type} (x : A) : InPlace A := fun data => Some (x, data).

Definition bind {A B : Type} (m : InPlace A) (k : A -> InPlace B) : InPlace B :=
  fun data =>
    match m data with
    | Some (x, data') => k x data'
    | None => None
    end.

Definition fault {A : Type} : InPlace A := fun _ => None.

Notation "'do' x <- m 'in' k" := (bind m (fun x => k))
  (at level 10, x name, m at level 100, k at level 200, only parsing).
Notation "m ';;' k" := (bind m (fun _ => k))
  (at level 100, k at level 200, right associativity, only parsing).

Definition elementAt (data : list APISpec) (i : Z) : option APISpec :=
  if i <? 0 then None else data !! Z.to_nat i.

(** [data.Less(i, j)] and [data.Swap(i, j)] *)
Definition Less (i j : Z) : InPlace bool :=
  fun data =>
    match elementAt data i, elementAt data j with
    | Some x, Some y => Some (less x y, data)
    | _, _ => None
    end.

Definition Swap (i j : Z) : InPlace unit :=
  fun data =>
    match elementAt data i, elementAt data j with
    | Some x, Some y =>
        Some (tt, <[Z.to_nat j := x]> (<[Z.to_nat i := y]> data))
    | _, _ => None
    end.

(** The rounds allowed to a loop over the positions [a, b). *)
Definition rounds (a b : Z) : nat := S (Z.to_nat (b - a)).

(** [insertionSort_func]: the inner loop, from [j] down, and the outer loop,
    from [i] up. *)
Fixpoint insertionSort_inner (fuel : nat) (a j : Z) : InPlace unit :=
  match fuel with
  | O => fault
  | S fuel =>
      if a <? j then
        do c <- Less j (j - 1) in
        if c then Swap j (j - 1) ;; insertionSort_inner fuel a (j - 1)
        else ret tt
      else ret tt
  end.

Fixpoint insertionSort_outer (fuel : nat) (a b i : Z) : InPlace unit :=
  match fuel with
  | O => fault
  | S fuel =>
      if i <? b then
        insertionSort_inner (rounds a i) a i ;;
        insertionSort_outer fuel a b (i + 1)
      else ret tt
  end.

Definition insertionSort_func (a b : Z) : InPlace unit :=
  insertionSort_outer (rounds a b) a b (a + 1).

(** [siftDown_func] *)
Fixpoint siftDown_loop (fuel : nat) (root hi first : Z) : InPlace unit :=
  match fuel with
  | O => fault
  | S fuel =>
      let child := 2 * root + 1 in
      if hi <=? child then ret tt
      else
        do right <- (if child + 1 <? hi
                     then Less (first + child) (first + child + 1)
                     else ret false) in
        let child := if right then child + 1 else child in
        do below <- Less (first + root) (first + child) in
        if negb below then ret tt
        else Swap (first + root) (first + child) ;;
             siftDown_loop fuel child hi first
  end.

Definition siftDown_func (lo hi first : Z) : InPlace unit :=
  siftDown_loop (rounds 0 hi) lo hi first.

(** [heapSort_func]: building the heap, then popping the elements. *)
Fixpoint heapSort_build (fuel : nat) (i hi first : Z) : InPlace unit :=
  match fuel with
  | O => fault
  | S fuel =>
      if 0 <=? i then
        siftDown_func i hi first ;; heapSort_build fuel (i - 1) hi first
      else ret tt
  end.

Fixpoint heapSort_pop (fuel : nat) (i lo first : Z) : InPlace unit :=
  match fuel with
  | O => fault
  | S fuel =>
      if 0 <=? i then
        Swap first (first + i) ;;
        siftDown_func lo i first ;;
        heapSort_pop fuel (i - 1) lo first
      else ret tt
  end.

Definition heapSort_func (a b : Z) : InPlace unit :=
  let first := a in
  let lo := 0 in
  let hi := b - a in
  heapSort_build (S (rounds 0 hi)) (Z.quot (hi - 1) 2) hi first ;;
  heapSort_pop (S (rounds 0 hi)) (hi - 1) lo first.

(** [partition_func]: the two scans, the loop, and the function. *)
Fixpoint scanLess (fuel : nat) (a i j : Z) : InPlace Z :=
  match fuel with
  | O => fault
  | S fuel =>
      if i <=? j then
        do c <- Less i a in
        if c then scanLess fuel a (i + 1) j else ret i
      else ret i
  end.

Fixpoint scanNotLess (fuel : nat) (a i j : Z) : InPlace Z :=
  match fuel with
  | O => fault
  | S fuel =>
      if i <=? j then
        do c <- Less j a in
        if negb c then scanNotLess fuel a i (j - 1) else ret j
      else ret j
  end.

Fixpoint partition_loop (fuel : nat) (a b i j : Z) : InPlace Z :=
  match fuel with
  | O => fault
  | S fuel =>
      do i <- scanLess (rounds a b) a i j in
      do j <- scanNotLess (rounds a b) a i j in
      if j <? i then ret j
      else Swap i j ;; partition_loop fuel a b (i + 1) (j - 1)
  end.

Definition partition_func (a b pivot : Z) : InPlace (Z * bool) :=
  Swap a pivot ;;
  let i := a + 1 in
  let j := b - 1 in
  do i <- scanLess (rounds a b) a i j in
  do j <- scanNotLess (rounds a b) a i j in
  if j <? i then Swap j a ;; ret (j, true)
  else
    Swap i j ;;
    do j <- partition_loop (rounds a b) a b (i + 1) (j - 1) in
    Swap j a ;; ret (j, false).

(** [partitionEqual_func] *)
Fixpoint scanNotGreater (fuel : nat) (a i j : Z) : InPlace Z :=
  match fuel with
  | O => fault
  | S fuel =>
      if i <=? j then
        do c <- Less a i in
        if negb c then scanNotGreater fuel a (i + 1) j else ret i
      else ret i
  end.

Fixpoint scanGreater (fuel : nat) (a i j : Z) : InPlace Z :=
  match fuel with
  | O => fault
  | S fuel =>
      if i <=? j then
        do c <- Less a j in
        if c then scanGreater fuel a i (j - 1) else ret j
      else ret j
  end.

Fixpoint partitionEqual_loop (fuel : nat) (a b i j : Z) : InPlace Z :=
  match fuel with
  | O => fault
  | S fuel =>
      do i <- scanNotGreater (rounds a b) a i j in
      do j <- scanGreater (rounds a b) a i j in
      if j <? i then ret i
      else Swap i j ;; partitionEqual_loop fuel a b (i + 1) (j - 1)
  end.

Definition partitionEqual_func (a b pivot : Z) : InPlace Z :=
  Swap a pivot ;;
  partitionEqual_loop (rounds a b) a b (a + 1) (b - 1).

(** [partialInsertionSort_func], with its constants [maxSteps] and
    [shortestShifting]. *)
Definition maxSteps : nat := 5.
Definition shortestShifting : Z := 50.

Fixpoint skipOrdered (fuel : nat) (b i : Z) : InPlace Z :=
  match fuel with
  | O => fault
  | S fuel =>
      if i <? b then
        do c <- Less i (i - 1) in
        if negb c then skipOrdered fuel b (i + 1) else ret i
      else ret i
  end.

Fixpoint shiftLeft (fuel : nat) (j : Z) : InPlace unit :=
  match fuel with
  | O => fault
  | S fuel =>
      if 1 <=? j then
        do c <- Less j (j - 1) in
        if negb c then ret tt
        else Swap j (j - 1) ;; shiftLeft fuel (j - 1)
      else ret tt
  end.

Fixpoint shiftRight (fuel : nat) (b j : Z) : InPlace unit :=
  match fuel with
  | O => fault
  | S fuel =>
      if j <? b then
        do c <- Less j (j - 1) in
        if negb c then ret tt
        else Swap j (j - 1) ;; shiftRight fuel b (j + 1)
      else ret tt
  end.

Fixpoint partialInsertionSort_steps (steps : nat) (a b i : Z) : InPlace bool :=
  match steps with
  | O => ret false
  | S steps =>
      do i <- skipOrdered (rounds a b) b i in
      if i =? b then ret true
      else if b - a <? shortestShifting then ret false
      else
        Swap i (i - 1) ;;
        (if 2 <=? i - a then shiftLeft (rounds 0 i) (i - 1) else ret tt) ;;
        (if 2 <=? b - i then shiftRight (rounds i b) b (i + 1) else ret tt) ;;
        partialInsertionSort_steps steps a b i
  end.

Definition partialInsertionSort_func (a b : Z) : InPlace bool :=
  partialInsertionSort_steps maxSteps a b (a + 1).

(** [breakPatterns_func], with [nextPowerOfTwo] and [bits.Len]. *)
Definition bits_Len (x : Z) : Z := if x <=? 0 then 0 else Z.log2 x + 1.

Definition nextPowerOfTwo (length : Z) : Z := Z.shiftl 1 (bits_Len length).

Fixpoint breakPatterns_loop (count : nat) (a length modulus idx i random : Z)
    : InPlace unit :=
  match count with
  | O => ret tt
  | S count =>
      let random := xorshift_Next random in
      let other := Z.land random (modulus - 1) in
      let other := if length <=? other then other - length else other in
      Swap (idx - 1 + i) (a + other) ;;
      breakPatterns_loop count a length modulus idx (i + 1) random
  end.

Definition breakPatterns_func (a b : Z) : InPlace unit :=
  let length := b - a in
  if 8 <=? length then
    let random := length in
    let modulus := nextPowerOfTwo length in
    let idx := a + Z.quot length 4 * 2 - 1 in
    breakPatterns_loop 3 a length modulus idx 0 random
  else ret tt.

(** [choosePivot_func], with [order2_func], [median_func] and
    [medianAdjacent_func]; the counter [swaps] is passed along. *)
Inductive sortedHint : Type :=
| unknownHint
| increasingHint
| decreasingHint.

Definition shortestNinther : Z := 50.
Definition maxSwaps : Z := 4 * 3.

Definition order2_func (a b swaps : Z) : InPlace (Z * Z * Z) :=
  do c <- Less b a in
  if c then ret (b, a, swaps + 1) else ret (a, b, swaps).

Definition median_func (a b c swaps : Z) : InPlace (Z * Z) :=
  do r <- order2_func a b swaps in
  let '(a, b, swaps) := r in
  do r <- order2_func b c swaps in
  let '(b, c, swaps) := r in
  do r <- order2_func a b swaps in
  let '(a, b, swaps) := r in
  ret (b, swaps).

Definition medianAdjacent_func (a swaps : Z) : InPlace (Z * Z) :=
  median_func (a - 1) a (a + 1) swaps.

Definition choosePivot_func (a b : Z) : InPlace (Z * sortedHint) :=
  let l := b - a in
  let swaps := 0 in
  let i := a + Z.quot l 4 * 1 in
  let j := a + Z.quot l 4 * 2 in
  let k := a + Z.quot l 4 * 3 in
  do r <-
    (if 8 <=? l then
       do r <-
         (if shortestNinther <=? l then
            do ri <- medianAdjacent_func i swaps in
            do rj <- medianAdjacent_func j (snd ri) in
            do rk <- medianAdjacent_func k (snd rj) in
            ret (fst ri, fst rj, fst rk, snd rk)
          else ret (i, j, k, swaps)) in
       let '(i, j, k, swaps) := r in
       median_func i j k swaps
     else ret (j, swaps)) in
  let '(j, swaps) := r in
  if swaps =? 0 then ret (j, increasingHint)
  else if swaps =? maxSwaps then ret (j, decreasingHint)
  else ret (j, unknownHint).

(** [reverseRange_func] *)
Fixpoint reverseRange_loop (fuel : nat) (i j : Z) : InPlace unit :=
  match fuel with
  | O => fault
  | S fuel =>
      if i <? j then Swap i j ;; reverseRange_loop fuel (i + 1) (j - 1)
      else ret tt
  end.

Definition reverseRange_func (a b : Z) : InPlace unit :=
  reverseRange_loop (rounds a b) a (b - 1).

(** [pdqsort_func]: one round of its loop, with the two flags the loop
    keeps; the call on the smaller part starts with both flags set. *)
Definition maxInsertion : Z := 12.

Definition isIncreasing (hint : sortedHint) : bool :=
  match hint with increasingHint => true | _ => false end.

Definition isDecreasing (hint : sortedHint) : bool :=
  match hint with decreasingHint => true | _ => false end.

Fixpoint pdqsort_loop (fuel : nat) (a b limit : Z)
    (wasBalanced wasPartitioned : bool) : InPlace unit :=
  match fuel with
  | O => fault
  | S fuel =>
      let length := b - a in
      if length <=? maxInsertion then insertionSort_func a b
      else if limit =? 0 then heapSort_func a b
      else
        (if negb wasBalanced then breakPatterns_func a b else ret tt) ;;
        let limit := if negb wasBalanced then limit - 1 else limit in
        do chosen <- choosePivot_func a b in
        let '(pivot, hint) := chosen in
        (if isDecreasing hint then reverseRange_func a b else ret tt) ;;
        let pivot := if isDecreasing hint then (b - 1) - (pivot - a) else pivot in
        let hint := if isDecreasing hint then increasingHint else hint in
        do sorted <-
          (if wasBalanced && wasPartitioned && isIncreasing hint
           then partialInsertionSort_func a b else ret false) in
        if sorted then ret tt
        else
          do equal <-
            (if 0 <? a
             then do c <- Less (a - 1) pivot in ret (negb c)
             else ret false) in
          if equal then
            do mid <- partitionEqual_func a b pivot in
            pdqsort_loop fuel mid b limit wasBalanced wasPartitioned
          else
            do parted <- partition_func a b pivot in
            let '(mid, alreadyPartitioned) := parted in
            let wasPartitioned := alreadyPartitioned in
            let leftLen := mid - a in
            let rightLen := b - mid in
            let balanceThreshold := Z.quot length 8 in
            if leftLen <? rightLen then
              let wasBalanced := balanceThreshold <=? leftLen in
              pdqsort_loop fuel a mid limit true true ;;
              pdqsort_loop fuel (mid + 1) b limit wasBalanced wasPartitioned
            else
              let wasBalanced := balanceThreshold <=? rightLen in
              pdqsort_loop fuel (mid + 1) b limit true true ;;
              pdqsort_loop fuel a mid limit wasBalanced wasPartitioned
  end.

Definition pdqsort_func (a b limit : Z) : InPlace unit :=
  pdqsort_loop (rounds a b) a b limit true true.

(** [sort.Slice]: the slice as the sort leaves it.  The library's runs do
    not end in [None]; for such a run the slice is returned as it came. *)
Definition Slice (data : list APISpec) : list APISpec :=
  let length := Z.of_nat (List.length data) in
  let limit := bits_Len length in
  match pdqsort_func 0 length limit data with
  | Some (_, sorted) => sorted
  | None => data
  end.

End Slice.

End sort.

(** ** The loop dispatcher: [DummyProxyHandler.ServeHTTP] *)

Record DummyProxyHandler : Type := mkDummyProxyHandler {
  SH_Spec : APISpec;
  Gw : Gateway
}.

(** How [ServeHTTP] ends: with [ErrorHandler.HandleError], by handing the
    request to another handler, by the success handler (the reverse proxy),
    or with a run-time panic.  Each carries the request as the handler left
    it. *)
Inductive Outcome : Type :=
| HandleError (r : Request) (errMsg : string) (errCode : Z)
| HandlerServeHTTP (handler : Handler) (r : Request)
| SuccessServeHTTP (r : Request)
| Panics (r : Request).

Section Dispatcher.

Variable env : Collaborators.

Definition APILoopingName (name : string) : option string :=
  replaceNonAlphaNumeric env <$> trimCategories name.

(** The body of the [range] loop of [fuzzyFindAPI]; the outer [None] is a
    panic raised by [APILoopingName]. *)
Fixpoint fuzzyFindAPI_range (apis : list APISpec) (search : string)
    : option (option APISpec) :=
  match apis with
  | [] => Some None
  | api :: rest =>
      if String.eqb (APIID api) search then Some (Some api)
      else if String.eqb (IdHex api) search then Some (Some api)
      else
        match APILoopingName (Name api) with
        | None => None
        | Some n =>
            if EqualFold env n search then Some (Some api)
            else fuzzyFindAPI_range rest search
        end
  end.

(** [fuzzyFindAPI]; Go ranges over [gw.apisByID] in an unspecified order,
    of which the order of [map_to_list] is one. *)
Definition fuzzyFindAPI (gw : Gateway) (search : string)
    : option (option APISpec) :=
  if String.eqb search "" then Some None
  else fuzzyFindAPI_range (map_to_list (apisByID gw)).*2 search.

(** The loop branch of [ServeHTTP] once [isLoop] found a loop and raised
    no error. *)
Definition serveLoop (d : DummyProxyHandler) (r : Request) : Outcome :=
  let r := setURL r (withScheme (reqURL r) "http") in
  let methodOverride := QueryGet env (RawQuery (reqURL r)) "method" in
  let r := if negb (String.eqb methodOverride "")
           then setMethod r methodOverride else r in
  let continue (r : Request) (handler : option Handler) : Outcome :=
    let loopLevelLimit := Atoi env (QueryGet env (RawQuery (reqURL r)) "loop_limit") in
    let r :=
      ctxSetCheckLoopLimits r
        (String.eqb (QueryGet env (RawQuery (reqURL r)) "check_limits") "true") in
    let r :=
      match ctxOrigRequestURL r with
      | Some origURL =>
          ctxSetOrigRequestURL
            (setURL r (withHostQuery (reqURL r) (Host origURL) (RawQuery origURL)))
            None
      | None => r
      end in
    let r := ctxIncLoopLevel env r loopLevelLimit in
    match handler with
    | Some h => HandlerServeHTTP h r
    | None => Panics r
    end in
  if String.eqb (Hostname env (reqURL r)) "self" then
    let r := SetSelfLooping r true in
    continue r
      (match apisHandlesByID (Gw d) !! APIID (SH_Spec d) with
       | Some chain => ThisHandler chain
       | None => None
       end)
  else
    let r := ctxClearVersionInfo r in
    match fuzzyFindAPI (Gw d) (Hostname env (reqURL r)) with
    | None => Panics r
    | Some (Some targetAPI) =>
        continue r
          (match apisHandlesByID (Gw d) !! APIID targetAPI with
           | Some chain => ThisHandler chain
           | None => None
           end)
    | Some None =>
        HandleError r "Can't detect loop target" StatusInternalServerError
    end.

(** The branch for a descriptor whose own target has the internal scheme
    ([findInternalHttpHandlerByNameOrID] is inlined). *)
Definition serveInternalTarget (d : DummyProxyHandler) (targetURL : URL)
    (r : Request) : Outcome :=
  match fuzzyFindAPI (Gw d) (Host targetURL) with
  | None => Panics r
  | Some found =>
      match found ≫= (fun targetAPI => apisHandlesByID (Gw d) !! APIID targetAPI) with
      | None => HandleError r "Couldn't detect target" StatusInternalServerError
      | Some chain =>
          match getRedirectTargetUrl env (SH_Spec d) (ctxInternalRedirectTarget r) with
          | None =>
              HandleError r "Failed to perform internal redirect"
                StatusInternalServerError
          | Some targetUrl =>
              let r := SanitizeProxyPaths env (SH_Spec d) r in
              let r := ctxSetInternalRedirectTarget r (Some targetUrl) in
              let r := ctxClearVersionInfo r in
              match ThisHandler chain with
              | Some h => HandlerServeHTTP h r
              | None => Panics r
              end
          end
      end
  end.

(** [DummyProxyHandler.ServeHTTP] *)
Definition ServeHTTP (d : DummyProxyHandler) (r : Request) : Outcome :=
  let r :=
    match ctxURLRewriteTarget r with
    | Some newURL => ctxSetURLRewriteTarget (setURL r newURL) None
    | None => r
    end in
  let r :=
    if negb (String.eqb (ctxTransformRequestMethod r) "")
    then ctxSetTransformRequestMethod
           (setMethod r (ctxTransformRequestMethod r)) ""
    else r in
  match isLoop r with
  | (true, Some err) => HandleError r err StatusInternalServerError
  | (true, None) => serveLoop d r
  | (false, _) =>
      match target (SH_Spec d) with
      | None => Panics r
      | Some targetURL =>
          if String.eqb (Scheme targetURL) "tyk"
          then serveInternalTarget d targetURL r
          else SuccessServeHTTP r
      end
  end.

End Dispatcher.

(** ** Sample values

    A concrete set of collaborators and a few descriptors and requests, on
    which the definitions above are evaluated below. *)

Definition sampleCustomMiddleware : CustomMiddleware :=
  mkCustomMiddleware [] (mkMwDef "" "" false false false) [] [] [] []
    (OtherDriver "").

(** Collaborators in which the domain is the [Domain] field, the key-value
    store resolves nothing, a URL parses unless it contains a space, and
    every middleware is enabled. *)
Definition sampleEnv : Collaborators :=
  mkCollaborators
    Domain
    (fun _ => None)
    (fun s => if Strs.Contains s " " then None else Some (mkURL "http" s "" ""))
    (fun s => s)
    (fun a b => a ++ "/" ++ b)
    (fun _ _ => true)
    (fun _ => sampleCustomMiddleware)
    (fun _ => "")
    (fun _ => None) (fun _ => None) (fun _ => None)
    (fun _ => None)
    (fun _ _ => true)
    (fun _ _ _ => [])
    (fun s => s)
    String.eqb
    (fun _ _ => "")
    Host
    (fun _ => 0)
    (fun r _ => r)
    (fun _ u => u)
    (fun _ r => r).

Definition sampleSpec (apiID domain listenPath : string) (keyless : bool)
    (sslMin sslMax : N) : APISpec :=
  mkSpec apiID "" apiID "org" domain "http" false keyless false false false
    false (OtherDriver "") "" false true [] []
    (mkProxy listenPath "http://upstream" (mkTransport sslMin sslMax)) None.

Definition sampleConfig : Config := mkConfig 8080 "" false true false false.

Definition sampleGateway : Gateway := mkGateway ∅ ∅ sampleConfig.

Definition sampleRequest (scheme path : string) (level limit : Z) : Request :=
  mkRequest "GET" (mkURL scheme "self" path "") None "" level limit None
    false false false None.

(** Three descriptors: one without a domain, two with one. *)
Definition sortSample : list APISpec :=
  [sampleSpec "a" "" "/foo-bar" true 0 0;
   sampleSpec "b" "example.com" "/foo" true 0 0;
   sampleSpec "c" "example.com" "/users/{id}/x" true 0 0].

(** A function that meets the contract of [sort.Slice]: it inserts the
    elements one by one, from the last to the first, into the sorted rest,
    each in front of its equals. *)
Fixpoint insertBefore (less : APISpec -> APISpec -> bool) (x : APISpec)
    (l : list APISpec) : list APISpec :=
  match l with
  | [] => [x]
  | y :: l' => if less y x then y :: insertBefore less x l' else x :: l
  end.

Definition insertionSort (less : APISpec -> APISpec -> bool)
    (l : list APISpec) : list APISpec :=
  foldr (insertBefore less) [] l.

(** Thirteen descriptors without a domain: twelve with listen paths of the
    same length, and a last one with a longer listen path. *)
Definition stabilitySample : list APISpec :=
  [sampleSpec "a" "" "/a" true 0 0; sampleSpec "b" "" "/b" true 0 0;
   sampleSpec "c" "" "/c" true 0 0; sampleSpec "d" "" "/d" true 0 0;
   sampleSpec "e" "" "/e" true 0 0; sampleSpec "f" "" "/f" true 0 0;
   sampleSpec "g" "" "/g" true 0 0; sampleSpec "h" "" "/h" true 0 0;
   sampleSpec "i" "" "/i" true 0 0; sampleSpec "j" "" "/j" true 0 0;
   sampleSpec "k" "" "/k" true 0 0; sampleSpec "l" "" "/l" true 0 0;
   sampleSpec "m" "" "/mm" true 0 0].

(** ** Notions the properties are stated with *)

(** The request as the head of [DummyProxyHandler.ServeHTTP] leaves it: the
    URL and the method taken from the context when they are set there, the
    two context fields cleared, everything else untouched. *)
Definition contextConsumed (r : Request) : Request :=
  mkRequest
    (if String.eqb (ctxTransformRequestMethod r) "" then Method r
     else ctxTransformRequestMethod r)
    (match ctxURLRewriteTarget r with Some u => u | None => reqURL r end)
    None ""
    (ctxLoopLevel r) (ctxLoopLevelLimit r) (ctxOrigRequestURL r)
    (ctxSelfLooping r) (ctxCheckLoopLimits r) (ctxVersionInfoSet r)
    (ctxInternalRedirectTarget r).

(** The per-request cap on the loop level. *)
Definition loopCap (r : Request) : Z :=
  if ctxLoopLevelLimit r =? 0 then 5 else ctxLoopLevelLimit r.

(** The characters Go's [unicode.IsSpace] accepts among the bytes below 128:
    tab, line feed, vertical tab, form feed, carriage return and space. *)
Definition isWhitespace (c : ascii) : bool :=
  match c with
  | "009" | "010" | "011" | "012" | "013" | " " => true
  | _ => false
  end%char.

Fixpoint containsWhitespace (s : string) : bool :=
  match s with
  | EmptyString => false
  | String c s' => isWhitespace c || containsWhitespace s'
  end.

(** The target URL that [skipSpecBecauseInvalid] parses: the value the
    key-value store resolves it to, or the string itself. *)
Definition resolvedTargetURL (env : Collaborators) (spec : APISpec) : string :=
  match kvStore env (TargetURL (Proxy spec)) with
  | Some val => val
  | None => TargetURL (Proxy spec)
  end.

(** The collision key of a descriptor, and of a descriptor once its listen
    path is [p]. *)
Definition collisionKey (env : Collaborators) (spec : APISpec) : string :=
  generateDomainPath (GetAPIDomain env spec) (ListenPath (Proxy spec)).

Definition collisionKeyAt (env : Collaborators) (spec : APISpec) (p : string)
    : string :=
  collisionKey env (setListenPath spec p).

(** [n] underscores. *)
Fixpoint underscores (n : nat) : string :=
  match n with
  | O => ""
  | S n' => String "_" (underscores n')
  end.

(** The previously loaded descriptor of the same [api_id] held exactly this
    listen path. *)
Definition heldBefore (gw : Gateway) (spec : APISpec) : Prop :=
  exists prev, getApiSpec gw (APIID spec) = Some prev
               /\ ListenPath (Proxy prev) = ListenPath (Proxy spec).

(** The contract of [sort.Slice]: for a comparison that is a strict weak
    order the result is a rearrangement of the slice in which no element is
    smaller than one that precedes it.  Nothing is promised about the order
    of elements that compare equal. *)
Definition StrictWeakOrder (less : APISpec -> APISpec -> bool) : Prop :=
  (forall a, less a a = false)
  /\ (forall a b c, less a b = true -> less b c = true -> less a c = true)
  /\ (forall a b c, less a b = true -> less a c = true \/ less c b = true).

Definition notAfter (less : APISpec -> APISpec -> bool) (a b : APISpec) : Prop :=
  less b a = false.

Definition SortedBy (less : APISpec -> APISpec -> bool) (l : list APISpec)
    : Prop :=
  forall i j a b, (i < j)%nat -> l !! i = Some a -> l !! j = Some b ->
                  less b a = false.

Definition SliceContract
    (sort_Slice : (APISpec -> APISpec -> bool) -> list APISpec -> list APISpec)
    : Prop :=
  forall less l, StrictWeakOrder less ->
                 Permutation l (sort_Slice less l) /\ SortedBy less (sort_Slice less l).

(** Stability: the elements that compare equal to a given one come out in
    the order they went in. *)
Definition sameRank (less : APISpec -> APISpec -> bool) (x y : APISpec) : bool :=
  negb (less x y) && negb (less y x).

Definition Stable (less : APISpec -> APISpec -> bool) (input output : list APISpec)
    : Prop :=
  forall x, List.filter (sameRank less x) output = List.filter (sameRank less x) input.

(** The sum of the lengths of the segments that are not parameters. *)
Definition literalLength (segments : list string) : Z :=
  foldr Z.add 0
    (map Strs.len (List.filter (fun seg => negb (isParamSegment seg)) segments)).

(** ** Further parts of the loader *)

(** [countApisByListenHash]: how many descriptors share each collision key
    (the "Tracking hostname" log line is left out). *)
Definition countApisByListenHash (env : Collaborators) (specs : list APISpec)
    : gmap string Z :=
  fold_left
    (fun count spec =>
       let domain := GetAPIDomain env spec in
       let domainHash := generateDomainPath domain (ListenPath (Proxy spec)) in
       <[domainHash := mapCount count domainHash + 1]> count)
    specs ∅.

(** [findInternalHttpHandlerByNameOrID]: the handler and the descriptor when
    [ok] is true, [None] when it is false; the outer [None] is a panic
    raised inside [fuzzyFindAPI]. *)
Definition findInternalHttpHandlerByNameOrID (env : Collaborators)
    (gw : Gateway) (apiNameOrID : string)
    : option (option (option Handler * APISpec)) :=
  match fuzzyFindAPI env gw apiNameOrID with
  | None => None
  | Some None => Some None
  | Some (Some targetAPI) =>
      match apisHandlesByID gw !! APIID targetAPI with
      | None => Some None
      | Some h => Some (Some (ThisHandler h, targetAPI))
      end
  end.

(** The storage engine codes the loader tells apart: the two constants
    [LDAPStorageEngine] and [RPCStorageEngine], and every other code. *)
Inductive StorageEngineCode : Type :=
| LDAPStorageEngine
| RPCStorageEngine
| DefaultStorageEngine.

(** [storage.Handler] values the loader builds or is given.  What
    [gw.getGlobalMDCBStorageHandler], which is not part of the loader file,
    returns is kept as the call with its two arguments. *)
Inductive StorageHandler : Type :=
| RedisCluster (keyPrefix : string) (hashKeys isCache : bool)
| RPCStorageHandler (keyPrefix : string) (hashKeys : bool)
| GlobalMDCBStorageHandler (keyPrefix : string) (hashKeys : bool)
| LDAPStorageHandler (meta : list (string * string)).

Record generalStores : Type := mkGeneralStores {
  redisStore : StorageHandler;
  redisOrgStore : StorageHandler;
  healthStore : StorageHandler;
  rpcAuthStore : StorageHandler;
  rpcOrgStore : StorageHandler
}.

(** [spec.AuthProvider] and [spec.SessionProvider], the two fields of the
    descriptor that [configureAuthAndOrgStores] and [loadTCPService] read. *)
Record AuthProviderMeta : Type := mkAuthProvider {
  AuthStorageEngine : StorageEngineCode;
  AuthMeta : list (string * string)
}.

Record SessionProviderMeta : Type := mkSessionProvider {
  SessionStorageEngine : StorageEngineCode
}.

(** [prepareStorage], for the [HashKeys] setting of the configuration
    (connecting the stores and initialising the session manager are left
    out). *)
Definition prepareStorage (hashKeys : bool) : generalStores :=
  mkGeneralStores
    (RedisCluster "apikey-" hashKeys false)
    (RedisCluster "orgkey." false false)
    (RedisCluster "apihealth." false false)
    (RPCStorageHandler "apikey-" hashKeys)
    (GlobalMDCBStorageHandler "orgkey." false).

(** What the store selection yields: the three stores, and whether
    [EnforceOrgDataAge] was switched on in the descriptor's and the
    gateway's configuration. *)
Record StoreSelection : Type := mkStoreSelection {
  selAuthStore : StorageHandler;
  selOrgStore : StorageHandler;
  selSessionStore : StorageHandler;
  selEnforceOrgDataAge : bool
}.

(** [configureAuthAndOrgStores] *)
Definition configureAuthAndOrgStores (gs : generalStores)
    (authProvider : AuthProviderMeta) (sessionProvider : SessionProviderMeta)
    : StoreSelection :=
  let authStore := redisStore gs in
  let orgStore := redisOrgStore gs in
  let '(authStore, orgStore, enforce) :=
    match AuthStorageEngine authProvider with
    | LDAPStorageEngine =>
        (LDAPStorageHandler (AuthMeta authProvider), orgStore, false)
    | RPCStorageEngine => (rpcAuthStore gs, rpcOrgStore gs, true)
    | DefaultStorageEngine => (authStore, orgStore, false)
    end in
  let sessionStore := redisStore gs in
  let sessionStore :=
    match SessionStorageEngine sessionProvider with
    | RPCStorageEngine => rpcAuthStore gs
    | _ => sessionStore
    end in
  mkStoreSelection authStore orgStore sessionStore enforce.

(** [loadTCPService]: the stores it passes to [spec.Init] (auth, session,
    health, org), and whether it switched [EnforceOrgDataAge] on. *)
Definition loadTCPService (gs : generalStores)
    (authProvider : AuthProviderMeta) (sessionProvider : SessionProviderMeta)
    : (StorageHandler * StorageHandler * StorageHandler * StorageHandler) * bool :=
  let authStore := redisStore gs in
  let orgStore := redisOrgStore gs in
  let '(authStore, orgStore, enforce) :=
    match AuthStorageEngine authProvider with
    | LDAPStorageEngine =>
        (LDAPStorageHandler (AuthMeta authProvider), orgStore, false)
    | RPCStorageEngine => (rpcAuthStore gs, rpcOrgStore gs, true)
    | DefaultStorageEngine => (authStore, orgStore, false)
    end in
  let sessionStore := redisStore gs in
  let sessionStore :=
    match SessionStorageEngine sessionProvider with
    | RPCStorageEngine => rpcAuthStore gs
    | _ => sessionStore
    end in
  ((authStore, sessionStore, healthStore gs, orgStore), enforce).

(** ** Further notions the properties are stated with *)

(** How many descriptors of a list have a given collision key. *)
Fixpoint keyCount (env : Collaborators) (key : string) (specs : list APISpec)
    : nat :=
  match specs with
  | [] => O
  | spec :: specs' =>
      (if String.eqb (collisionKey env spec) key then 1 else 0)%nat
      + keyCount env key specs'
  end.

(** The stages of a handler, below the tracing wrappers. *)
Fixpoint chainStages (h : Handler) : list Middleware :=
  match h with
  | Chain stages _ => stages
  | TraceHandle _ h' => chainStages h'
  | OtelHTTPHandler _ h' => chainStages h'
  | explicitRouteHandler _ h' => chainStages h'
  end.

(** The sink of a handler, below the wrappers. *)
Fixpoint chainSink (h : Handler) : Sink :=
  match h with
  | Chain _ sink => sink
  | TraceHandle _ h' => chainSink h'
  | OtelHTTPHandler _ h' => chainSink h'
  | explicitRouteHandler _ h' => chainSink h'
  end.

(** How many tracing wrappers a handler carries. *)
Fixpoint wrapperCount (h : Handler) : nat :=
  match h with
  | Chain _ _ => O
  | TraceHandle _ h' => S (wrapperCount h')
  | OtelHTTPHandler _ h' => S (wrapperCount h')
  | explicitRouteHandler _ h' => wrapperCount h'
  end.

(** A descriptor matches a search string the way [fuzzyFindAPI] tests it. *)
Definition fuzzyMatches (env : Collaborators) (api : APISpec) (search : string)
    : Prop :=
  APIID api = search
  \/ IdHex api = search
  \/ exists n, APILoopingName env (Name api) = Some n
               /\ EqualFold env n search = true.

(** The key prefix of a store, for the stores that have one. *)
Definition storeKeyPrefix (h : StorageHandler) : option string :=
  match h with
  | RedisCluster p _ _ => Some p
  | RPCStorageHandler p _ => Some p
  | GlobalMDCBStorageHandler p _ => Some p
  | LDAPStorageHandler _ => None
  end.

(** Two segments that are the same or both parameters. *)
Definition sameUpToParameter (a b : string) : Prop :=
  a = b \/ (isParamSegment a = true /\ isParamSegment b = true).

(** The sum of the lengths of all segments. *)
Definition totalLength (segments : list string) : Z :=
  foldr Z.add 0 (map Strs.len segments).

(** Two descriptors that agree on everything but the proxy settings, the
    tag headers and the parsed target. *)
Definition sameIdentity (a b : APISpec) : Prop :=
  APIID a = APIID b /\ IdHex a = IdHex b /\ Name a = Name b
  /\ OrgID a = OrgID b /\ Domain a = Domain b /\ Protocol a = Protocol b
  /\ Internal a = Internal b /\ UseKeylessAccess a = UseKeylessAccess b
  /\ UseStandardAuth a = UseStandardAuth b
  /\ CustomPluginAuthEnabled a = CustomPluginAuthEnabled b
  /\ UseGoPluginAuth a = UseGoPluginAuth b
  /\ EnableCoProcessAuth a = EnableCoProcessAuth b
  /\ CustomMiddlewareDriver a = CustomMiddlewareDriver b
  /\ CustomMiddlewareBundle a = CustomMiddlewareBundle b
  /\ CustomMiddlewareBundleDisabled a = CustomMiddlewareBundleDisabled b
  /\ NotVersioned a = NotVersioned b
  /\ VersionOverrideTargets a = VersionOverrideTargets b.

(** One list of stages is another with stages added at its end. *)
Definition extendedBy (a b : list Middleware) : Prop :=
  exists e, b = (a ++ e)%list.

(** A handler with the stages of its chain replaced, and all else kept. *)
Fixpoint withStages (h : Handler) (stages : list Middleware) : Handler :=
  match h with
  | Chain _ sink => Chain stages sink
  | TraceHandle name h => TraceHandle name (withStages h stages)
  | OtelHTTPHandler name h => OtelHTTPHandler name (withStages h stages)
  | explicitRouteHandler prefix h =>
      explicitRouteHandler prefix (withStages h stages)
  end.

(** The API-level rate-limit stage for a quota key, if it is enabled for the
    descriptor. *)
Definition rateLimitStage (env : Collaborators) (spec : APISpec)
    (quotaKey : string) : list Middleware :=
  if EnabledForSpec env spec (RateLimitForAPI quotaKey)
  then [RateLimitForAPI quotaKey] else [].

(** * The security schemes of the OAS document

    [apidef/oas/security.go]: the functions that write the authentication
    settings of an API definition into the [components.securitySchemes] and
    the [security] parts of the OpenAPI document, and read them back. *)

Definition typeAPIKey : string := "apiKey".
Definition typeOAuth2 : string := "oauth2".
Definition header : string := "header".
Definition query : string := "query".
Definition cookie : string := "cookie".

(** [osin.AccessRequestType], a string type, and its constants. *)
Definition AccessRequestType : Type := string.
Definition AUTHORIZATION_CODE : AccessRequestType := "authorization_code".
Definition REFRESH_TOKEN : AccessRequestType := "refresh_token".
Definition PASSWORD : AccessRequestType := "password".
Definition CLIENT_CREDENTIALS : AccessRequestType := "client_credentials".
Definition ASSERTION : AccessRequestType := "assertion".
Definition IMPLICIT : AccessRequestType := "__implicit".

(** [openapi3.OAuthFlow]; [None] for [Scopes] is the nil map. *)
Record OAuthFlow : Type := mkOAuthFlow {
  AuthorizationURL : string;
  TokenURL : string;
  RefreshURL : string;
  Scopes : option (gmap string string)
}.

(** [openapi3.OAuthFlows]; [None] is the nil pointer. *)
Record OAuthFlows : Type := mkOAuthFlows {
  Implicit : option OAuthFlow;
  Password : option OAuthFlow;
  ClientCredentials : option OAuthFlow;
  AuthorizationCode : option OAuthFlow
}.

(** [openapi3.SecurityScheme] (its fields [Type], [Description], [Name],
    [In] and [Scheme] carry the prefix [Scheme] here). *)
Record SecurityScheme : Type := mkSecurityScheme {
  SchemeType : string;
  SchemeDescription : string;
  SchemeName : string;
  SchemeIn : string;
  SchemeScheme : string;
  BearerFormat : string;
  Flows : option OAuthFlows;
  OpenIdConnectUrl : string
}.

(** [openapi3.SecuritySchemeRef]; [None] for [Value] is the nil pointer. *)
Record SecuritySchemeRef : Type := mkSecuritySchemeRef {
  Ref : string;
  Value : option SecurityScheme
}.

(** [openapi3.Components], of which these functions touch
    [SecuritySchemes], a map to pointers: [None] is the nil map, and a key
    may hold the nil pointer, [None]. *)
Record ComponentsT : Type := mkComponents {
  SecuritySchemes : option (gmap string (option SecuritySchemeRef))
}.

(** [openapi3.SecurityRequirement], a map from scheme names to scopes;
    [None] is the nil map. *)
Definition SecurityRequirement : Type := option (gmap string (list string)).

(** The parts of the [OAS] document these functions work on: [s.Components],
    a pointer, and [s.Security], a slice of requirements. *)
Record OAS : Type := mkOAS {
  Components : option ComponentsT;
  Security : list SecurityRequirement
}.

(** [apidef.AuthConfig], with the fields these functions read and write
    ([Name] is [AuthName] here). *)
Record AuthConfig : Type := mkAuthConfig {
  AuthName : string;
  UseParam : bool;
  ParamName : string;
  UseCookie : bool;
  CookieName : string;
  DisableHeader : bool;
  AuthHeaderName : string
}.

(** [openapi3.NewSecurityScheme()]: the zero scheme. *)
Definition NewSecurityScheme : SecurityScheme :=
  mkSecurityScheme "" "" "" "" "" "" None "".

(** The setters [WithName], [WithIn] and [WithType] of
    [openapi3.SecurityScheme], and the assignment to [Flows]. *)
Definition WithName (v : SecurityScheme) (name : string) : SecurityScheme :=
  mkSecurityScheme (SchemeType v) (SchemeDescription v) name (SchemeIn v)
    (SchemeScheme v) (BearerFormat v) (Flows v) (OpenIdConnectUrl v).

Definition WithIn (v : SecurityScheme) (loc : string) : SecurityScheme :=
  mkSecurityScheme (SchemeType v) (SchemeDescription v) (SchemeName v) loc
    (SchemeScheme v) (BearerFormat v) (Flows v) (OpenIdConnectUrl v).

Definition WithType (v : SecurityScheme) (type : string) : SecurityScheme :=
  mkSecurityScheme type (SchemeDescription v) (SchemeName v) (SchemeIn v)
    (SchemeScheme v) (BearerFormat v) (Flows v) (OpenIdConnectUrl v).

Definition setFlows (v : SecurityScheme) (flows : option OAuthFlows)
    : SecurityScheme :=
  mkSecurityScheme (SchemeType v) (SchemeDescription v) (SchemeName v)
    (SchemeIn v) (SchemeScheme v) (BearerFormat v) flows (OpenIdConnectUrl v).

(** [appendSecurity] (lines 1081-1089).  With an empty [s.Security] a new,
    empty requirement is appended first.  When the first requirement is the
    nil map the name is not found in it and the assignment panics:
    [None]. *)
Definition appendSecurity (s : OAS) (name : string) : option OAS :=
  let security :=
    if (length (Security s) =? 0)%nat
    then (Security s ++ [Some ∅])%list
    else Security s in
  match security with
  | [] => None
  | None :: _ => None
  | Some first :: rest =>
      match first !! name with
      | Some _ => Some (mkOAS (Components s) security)
      | None =>
          Some (mkOAS (Components s) (Some (<[name := []]> first) :: rest))
      end
  end.

(** The opening lines the three fill functions share (lines 908-920,
    965-977 and 1024-1036): the map of schemes, made when it is nil, and the
    entry of the name in it, made when the key is missing.  [None] is the
    panic on a nil [s.Components]. *)
Definition schemeRefFor (s : OAS) (name : string)
    : option (gmap string (option SecuritySchemeRef)
              * option SecuritySchemeRef) :=
  match Components s with
  | None => None
  | Some components =>
      let ss :=
        match SecuritySchemes components with
        | None => ∅
        | Some ss => ss
        end in
      match ss !! name with
      | Some ref => Some (ss, ref)
      | None =>
          let ref := Some (mkSecuritySchemeRef "" (Some NewSecurityScheme)) in
          Some (<[name := ref]> ss, ref)
      end
  end.

(** Writing through the pointer [ref.Value]: the entry of the name now holds
    the changed scheme. *)
Definition storeScheme (s : OAS)
    (ss : gmap string (option SecuritySchemeRef)) (name : string)
    (ref : SecuritySchemeRef) (v : SecurityScheme) : OAS :=
  mkOAS
    (Some (mkComponents
             (Some (<[name := Some (mkSecuritySchemeRef (Ref ref) (Some v))]> ss))))
    (Security s).

(** [fillAPIKeyScheme] (lines 907-945): the changed document and the changed
    [ac]; [None] when it panics, on a nil [s.Components], a nil entry, a nil
    [ref.Value] or in [appendSecurity]. *)
Definition fillAPIKeyScheme (s : OAS) (ac : AuthConfig)
    : option (OAS * AuthConfig) :=
  match schemeRefFor s (AuthName ac) with
  | None => None
  | Some (_, None) => None
  | Some (ss, Some ref) =>
      match Value ref with
      | None => None
      | Some value =>
          let '(loc, key, ac') :=
            if String.eqb (SchemeIn value) header
               || (String.eqb (SchemeIn value) "" && negb (DisableHeader ac))
            then (header, AuthHeaderName ac,
                  mkAuthConfig (AuthName ac) (UseParam ac) (ParamName ac)
                    (UseCookie ac) (CookieName ac) true "")
            else if String.eqb (SchemeIn value) query
                    || (String.eqb (SchemeIn value) "" && UseParam ac)
            then (query, ParamName ac,
                  mkAuthConfig (AuthName ac) false ""
                    (UseCookie ac) (CookieName ac)
                    (DisableHeader ac) (AuthHeaderName ac))
            else if String.eqb (SchemeIn value) cookie
                    || (String.eqb (SchemeIn value) "" && UseCookie ac)
            then (cookie, CookieName ac,
                  mkAuthConfig (AuthName ac) (UseParam ac) (ParamName ac)
                    false "" (DisableHeader ac) (AuthHeaderName ac))
            else ("", "", ac) in
          let value := WithType (WithIn (WithName value key) loc) typeAPIKey in
          match appendSecurity (storeScheme s ss (AuthName ac) ref value)
                  (AuthName ac) with
          | None => None
          | Some s' => Some (s', ac')
          end
      end
  end.

(** The lookup [s.Components.SecuritySchemes[name]] followed by [ref.Value]:
    [None] when this panics, on a nil [s.Components], a missing key, a nil
    entry or a nil [ref.Value]. *)
Definition schemeValue (s : OAS) (name : string) : option SecurityScheme :=
  match Components s with
  | None => None
  | Some components =>
      match SecuritySchemes components with
      | None => None
      | Some ss =>
          match ss !! name with
          | Some (Some ref) => Value ref
          | _ => None
          end
      end
  end.

(** [extractAPIKeySchemeTo] (lines 947-962): the changed [ac]. *)
Definition extractAPIKeySchemeTo (s : OAS) (ac : AuthConfig) (name : string)
    : option AuthConfig :=
  match schemeValue s name with
  | None => None
  | Some value =>
      let ac :=
        mkAuthConfig name (UseParam ac) (ParamName ac) (UseCookie ac)
          (CookieName ac) (DisableHeader ac) (AuthHeaderName ac) in
      if String.eqb (SchemeIn value) header
      then Some (mkAuthConfig (AuthName ac) (UseParam ac) (ParamName ac)
                   (UseCookie ac) (CookieName ac) false (SchemeName value))
      else if String.eqb (SchemeIn value) query
      then Some (mkAuthConfig (AuthName ac) true (SchemeName value)
                   (UseCookie ac) (CookieName ac)
                   (DisableHeader ac) (AuthHeaderName ac))
      else if String.eqb (SchemeIn value) cookie
      then Some (mkAuthConfig (AuthName ac) (UseParam ac) (ParamName ac)
                   true (SchemeName value)
                   (DisableHeader ac) (AuthHeaderName ac))
      else Some ac
  end.

(** [setAuthorizationURLIfEmpty], [setTokenURLIfEmpty] and
    [setScopesIfEmpty] (lines 1091-1107). *)
Definition setAuthorizationURLIfEmpty (flow : OAuthFlow) : OAuthFlow :=
  if String.eqb (AuthorizationURL flow) ""
  then mkOAuthFlow "/oauth/authorize" (TokenURL flow) (RefreshURL flow)
         (Scopes flow)
  else flow.

Definition setTokenURLIfEmpty (flow : OAuthFlow) : OAuthFlow :=
  if String.eqb (TokenURL flow) ""
  then mkOAuthFlow (AuthorizationURL flow) "/oauth/token" (RefreshURL flow)
         (Scopes flow)
  else flow.

Definition setScopesIfEmpty (flow : OAuthFlow) : OAuthFlow :=
  match Scopes flow with
  | None =>
      mkOAuthFlow (AuthorizationURL flow) (TokenURL flow) (RefreshURL flow)
        (Some ∅)
  | Some _ => flow
  end.

(** A flow that is made when the pointer is nil: [&openapi3.OAuthFlow{}]. *)
Definition flowOrNew (flow : option OAuthFlow) : OAuthFlow :=
  match flow with
  | None => mkOAuthFlow "" "" "" None
  | Some flow => flow
  end.

(** One round of the loop of [fillOAuthScheme] (lines 985-1015). *)
Definition fillFlow (flows : OAuthFlows) (accessType : AccessRequestType)
    : OAuthFlows :=
  if String.eqb accessType AUTHORIZATION_CODE then
    mkOAuthFlows (Implicit flows) (Password flows) (ClientCredentials flows)
      (Some (setScopesIfEmpty (setTokenURLIfEmpty (setAuthorizationURLIfEmpty
         (flowOrNew (AuthorizationCode flows))))))
  else if String.eqb accessType CLIENT_CREDENTIALS then
    mkOAuthFlows (Implicit flows) (Password flows)
      (Some (setScopesIfEmpty (setTokenURLIfEmpty
         (flowOrNew (ClientCredentials flows)))))
      (AuthorizationCode flows)
  else if String.eqb accessType PASSWORD then
    mkOAuthFlows (Implicit flows)
      (Some (setScopesIfEmpty (setTokenURLIfEmpty
         (flowOrNew (Password flows)))))
      (ClientCredentials flows) (AuthorizationCode flows)
  else if String.eqb accessType IMPLICIT then
    mkOAuthFlows
      (Some (setScopesIfEmpty (setAuthorizationURLIfEmpty
         (flowOrNew (Implicit flows)))))
      (Password flows) (ClientCredentials flows) (AuthorizationCode flows)
  else flows.

(** The flows of a scheme, made when the pointer is nil:
    [&openapi3.OAuthFlows{}]. *)
Definition flowsOrNew (flows : option OAuthFlows) : OAuthFlows :=
  match flows with
  | None => mkOAuthFlows None None None None
  | Some flows => flows
  end.

(** [fillOAuthScheme] (lines 964-1021); [None] when it panics. *)
Definition fillOAuthScheme (s : OAS) (accessTypes : list AccessRequestType)
    (name : string) : option OAS :=
  match schemeRefFor s name with
  | None => None
  | Some (_, None) => None
  | Some (ss, Some ref) =>
      match Value ref with
      | None => None
      | Some value =>
          let flows := flowsOrNew (Flows value) in
          let flows := fold_left fillFlow accessTypes flows in
          let value := setFlows (WithType value typeOAuth2) (Some flows) in
          appendSecurity (storeScheme s ss name ref value) name
      end
  end.

(** [fillOAuthSchemeForExternal] (lines 1023-1054); [None] when it
    panics. *)
Definition fillOAuthSchemeForExternal (s : OAS) (name : string) : option OAS :=
  match schemeRefFor s name with
  | None => None
  | Some (_, None) => None
  | Some (ss, Some ref) =>
      match Value ref with
      | None => None
      | Some value =>
          let flows := flowsOrNew (Flows value) in
          let flows :=
            mkOAuthFlows (Implicit flows) (Password flows)
              (ClientCredentials flows)
              (Some (setScopesIfEmpty (setTokenURLIfEmpty
                 (setAuthorizationURLIfEmpty
                    (flowOrNew (AuthorizationCode flows)))))) in
          let value := setFlows (WithType value typeOAuth2) (Some flows) in
          appendSecurity (storeScheme s ss name ref value) name
      end
  end.

(** [extractOAuthSchemeTo] (lines 1056-1079), on
    [api.Oauth2Meta.AllowedAccessTypes], the one field of the definition it
    changes; [None] when it panics. *)
Definition extractOAuthSchemeTo (s : OAS)
    (AllowedAccessTypes : list AccessRequestType) (name : string)
    : option (list AccessRequestType) :=
  match schemeValue s name with
  | None => None
  | Some value =>
      match Flows value with
      | None => Some AllowedAccessTypes
      | Some flows =>
          let allowed := AllowedAccessTypes in
          let allowed :=
            match AuthorizationCode flows with
            | Some _ => (allowed ++ [AUTHORIZATION_CODE])%list
            | None => allowed
            end in
          let allowed :=
            match ClientCredentials flows with
            | Some _ => (allowed ++ [CLIENT_CREDENTIALS])%list
            | None => allowed
            end in
          let allowed :=
            match Password flows with
            | Some _ => (allowed ++ [PASSWORD])%list
            | None => allowed
            end in
          let allowed :=
            match Implicit flows with
            | Some _ => (allowed ++ [IMPLICIT])%list
            | None => allowed
            end in
          Some allowed
      end
  end.

(** ** Notions for the security schemes *)

(** The scheme names the first requirement of the document lists. *)
Definition requiredSchemes (s : OAS) : option (gmap string (list string)) :=
  match Security s with
  | Some first :: _ => Some first
  | _ => None
  end.

(** The fill functions can work on the entry of a name: [s.Components] is
    there, and the entry is missing or holds a scheme. *)
Definition fillable (s : OAS) (name : string) : Prop :=
  exists components,
    Components s = Some components
    /\ match SecuritySchemes components with
       | None => True
       | Some ss =>
           match ss !! name with
           | None => True
           | Some (Some ref) => exists value, Value ref = Some value
           | Some None => False
           end
       end.

(** The scheme the fill functions start from: the one of the entry, or the
    zero scheme. *)
Definition schemeOrNew (s : OAS) (name : string) : SecurityScheme :=
  match schemeValue s name with
  | Some value => value
  | None => NewSecurityScheme
  end.

(** An [AuthConfig] with the key location [loc] switched on. *)
Definition withLocation (loc : string) (ac : AuthConfig) : AuthConfig :=
  if String.eqb loc header
  then mkAuthConfig (AuthName ac) (UseParam ac) (ParamName ac) (UseCookie ac)
         (CookieName ac) false (AuthHeaderName ac)
  else if String.eqb loc query
  then mkAuthConfig (AuthName ac) true (ParamName ac) (UseCookie ac)
         (CookieName ac) (DisableHeader ac) (AuthHeaderName ac)
  else if String.eqb loc cookie
  then mkAuthConfig (AuthName ac) (UseParam ac) (ParamName ac) true
         (CookieName ac) (DisableHeader ac) (AuthHeaderName ac)
  else ac.

(** The first requirement of the document, if there is one, is not the nil
    map. *)
Definition securityWritable (s : OAS) : Prop :=
  match Security s with
  | None :: _ => False
  | _ => True
  end.

(** The four access types that have a flow, in the order
    [extractOAuthSchemeTo] reads the flows. *)
Definition flowAccessTypes : list AccessRequestType :=
  [AUTHORIZATION_CODE; CLIENT_CREDENTIALS; PASSWORD; IMPLICIT].

(** The flow of an access type, if the access type has one. *)
Definition flowOf (flows : OAuthFlows) (accessType : AccessRequestType)
    : option OAuthFlow :=
  if String.eqb accessType AUTHORIZATION_CODE then AuthorizationCode flows
  else if String.eqb accessType CLIENT_CREDENTIALS then ClientCredentials flows
  else if String.eqb accessType PASSWORD then Password flows
  else if String.eqb accessType IMPLICIT then Implicit flows
  else None.

(** What the loop of [fillOAuthScheme] makes of the flow of an access
    type. *)
Definition flowDefaults (accessType : AccessRequestType)
    (flow : option OAuthFlow) : OAuthFlow :=
  if String.eqb accessType AUTHORIZATION_CODE then
    setScopesIfEmpty (setTokenURLIfEmpty (setAuthorizationURLIfEmpty
      (flowOrNew flow)))
  else if String.eqb accessType CLIENT_CREDENTIALS then
    setScopesIfEmpty (setTokenURLIfEmpty (flowOrNew flow))
  else if String.eqb accessType PASSWORD then
    setScopesIfEmpty (setTokenURLIfEmpty (flowOrNew flow))
  else if String.eqb accessType IMPLICIT then
    setScopesIfEmpty (setAuthorizationURLIfEmpty (flowOrNew flow))
  else flowOrNew flow.

(** The flows of the scheme of a name, as the fill functions find them. *)
Definition flowsAt (s : OAS) (name : string) : OAuthFlows :=
  flowsOrNew (Flows (schemeOrNew s name)).

(** Whether an access type has a flow, or is among the access types
    filled in. *)
Definition hasFlow (flows : OAuthFlows) (accessTypes : list AccessRequestType)
    (accessType : AccessRequestType) : bool :=
  existsb (String.eqb accessType) accessTypes
  || match flowOf flows accessType with Some _ => true | None => false end.

(** A sample document with components and no schemes. *)
Definition sampleOAS : OAS := mkOAS (Some (mkComponents None)) [].

Definition sampleAuthConfig : AuthConfig :=
  mkAuthConfig "authToken" true "api_key" false "" false "Authorization".

(** A sample document with an OAuth scheme that has a password flow with a
    token URL of its own. *)
Definition sampleFlow : OAuthFlow := mkOAuthFlow "" "/custom/token" "" None.

Definition sampleOAuthOAS : OAS :=
  mkOAS
    (Some (mkComponents
             (Some {[ "oauth" :=
                        Some (mkSecuritySchemeRef ""
                                (Some (setFlows NewSecurityScheme
                                         (Some (mkOAuthFlows None
                                                  (Some sampleFlow)
                                                  None None))))) ]})))
    [].

(** * Properties *)

(** ** Facts about the string primitives *)

Module StrsFacts.
Import Strs.


Lemma app_cons (c : ascii) (a b : string) : String c a ++ b = String c (a ++ b).
Proof. reflexivity. Qed.

Lemma app_nil_l (b : string) : "" ++ b = b.
Proof. reflexivity. Qed.

Ltac unfold_app := simpl in *; rewrite ?app_cons, ?app_nil_l in *; simpl in *.

Lemma length_app (a b : string) :
  String.length (a ++ b) = (String.length a + String.length b)%nat.
Proof. induction a as [|c a IH]; unfold_app; [reflexivity | now rewrite IH]. Qed.

Lemma app_assoc (a b c : string) : (a ++ b) ++ c = a ++ (b ++ c).
Proof. induction a as [|x a IH]; unfold_app; [reflexivity | now rewrite IH]. Qed.

Lemma app_nil_r (a : string) : a ++ "" = a.
Proof. induction a as [|x a IH]; unfold_app; [reflexivity | now rewrite IH]. Qed.

Lemma length_take (n : nat) (s : string) :
  (n <= String.length s)%nat -> String.length (take n s) = n.
Proof.
  revert s; induction n as [|n IH]; intros [|c s] H; simpl in *; try lia.
  rewrite IH; lia.
Qed.

Lemma take_drop (n : nat) (s : string) : take n s ++ drop n s = s.
Proof.
  revert s; induction n as [|n IH]; intros [|c s]; unfold_app; try reflexivity.
  now rewrite IH.
Qed.

Lemma drop_app (a b : string) : drop (String.length a) (a ++ b) = b.
Proof.
  induction a as [|x a IH]; unfold_app; [now destruct b | assumption].
Qed.

Lemma HasPrefix_spec (s p : string) :
  HasPrefix s p = true <-> exists t, s = p ++ t.
Proof.
  revert s; induction p as [|c p IH]; intros s; simpl.
  - split; [intros _; now exists s | reflexivity].
  - destruct s as [|d s].
    + split; [discriminate | intros [t Ht]; discriminate].
    + rewrite andb_true_iff, Ascii.eqb_eq, IH. split.
      * intros [-> [t ->]]. now exists t.
      * intros [t Ht]. rewrite app_cons in Ht. injection Ht as -> ->.
        split; [reflexivity | now exists t].
Qed.

Lemma index_nat_Some (s sub : string) (i : nat) :
  index_nat s sub = Some i ->
  HasPrefix (drop i s) sub = true /\ (i <= String.length s)%nat
  /\ forall j, (j < i)%nat -> HasPrefix (drop j s) sub = false.
Proof.
  revert i; induction s as [|c s IH]; intros i; simpl.
  - destruct (HasPrefix "" sub) eqn:E; [|discriminate].
    intros [= <-]. repeat split; [exact E | lia | intros j Hj; lia].
  - destruct (HasPrefix (String c s) sub) eqn:E.
    + intros [= <-]. repeat split; [exact E | lia | intros j Hj; lia].
    + destruct (index_nat s sub) as [k|] eqn:Ek; simpl; [|discriminate].
      intros [= <-]. destruct (IH k eq_refl) as (H1 & H2 & H3).
      repeat split; [exact H1 | lia |].
      intros [|j] Hj; simpl; [exact E | apply H3; lia].
Qed.

Lemma index_nat_None (s sub : string) :
  index_nat s sub = None -> forall j, HasPrefix (drop j s) sub = false.
Proof.
  induction s as [|c s IH]; simpl.
  - destruct (HasPrefix "" sub) eqn:E; [discriminate|].
    intros _ [|j]; exact E.
  - destruct (HasPrefix (String c s) sub) eqn:E; [discriminate|].
    destruct (index_nat s sub) eqn:Ek; simpl; [discriminate|].
    intros _ [|j]; simpl; [exact E | now apply IH].
Qed.

Lemma Index_range (s sub : string) : -1 <= Index s sub <= len s.
Proof.
  unfold Index, len. destruct (index_nat s sub) as [i|] eqn:E; [|lia].
  apply index_nat_Some in E. lia.
Qed.

(** [Contains] holds exactly when the needle occurs somewhere. *)
Lemma Contains_spec (s sub : string) :
  Contains s sub = true <-> exists a b, s = a ++ sub ++ b.
Proof.
  unfold Contains, Index. split.
  - destruct (index_nat s sub) as [i|] eqn:E; [intros _ | discriminate].
    apply index_nat_Some in E as (H & _ & _).
    apply HasPrefix_spec in H as [t Ht].
    exists (take i s), t. rewrite <- Ht. symmetry; apply take_drop.
  - intros (a & b & ->).
    destruct (index_nat (a ++ sub ++ b) sub) as [i|] eqn:E; [apply Z.leb_le; lia|].
    pose proof (index_nat_None _ _ E (String.length a)) as H.
    rewrite drop_app in H.
    assert (HasPrefix (sub ++ b) sub = true) by (apply HasPrefix_spec; now exists b).
    congruence.
Qed.

End StrsFacts.

Import Strs StrsFacts.

Lemma HasSuffix_spec (s suf : string) :
  HasSuffix s suf = true <-> exists p, s = p ++ suf.
Proof.
  unfold HasSuffix. rewrite andb_true_iff, Nat.leb_le, String.eqb_eq. split.
  - intros [_ Hd].
    exists (take (String.length s - String.length suf) s).
    transitivity (take (String.length s - String.length suf) s
                  ++ drop (String.length s - String.length suf) s).
    + symmetry. apply take_drop.
    + now rewrite Hd.
  - intros [p ->]. rewrite length_app. split; [lia|].
    replace (String.length p + String.length suf - String.length suf)%nat
      with (String.length p) by lia.
    apply drop_app.
Qed.

(** ** The canonical looping name *)

Lemma Index_leading (c : ascii) (rest : string) :
  Index (String c rest) (String c "") = 0.
Proof. unfold Index. simpl. now rewrite Ascii.eqb_refl. Qed.

Lemma trimCategories_without_hash (name : string) :
  Contains name "#" = false -> trimCategories name = Some name.
Proof.
  unfold trimCategories, Contains. intros H.
  pose proof (Index_range name "#") as R.
  apply Z.leb_gt in H.
  replace (Index name "#") with (-1) by lia. reflexivity.
Qed.

(** With the first ['#'] at a position [i >= 1], the result is the name up
    to, and without, the character in front of the ['#']. *)
Lemma trimCategories_inner_hash (name : string) (i : nat) :
  index_nat name "#" = Some (S i) -> trimCategories name = Some (take i name).
Proof.
  intros H. unfold trimCategories, Index, slice_to. rewrite H.
  apply index_nat_Some in H as (_ & Hle & _).
  replace (Z.of_nat (S i) - 1) with (Z.of_nat i) by lia.
  rewrite Nat2Z.id.
  replace (Z.of_nat (S i) =? -1) with false by (symmetry; apply Z.eqb_neq; lia).
  replace (0 <=? Z.of_nat i) with true by (symmetry; apply Z.leb_le; lia).
  replace (Z.of_nat i <=? len name) with true
    by (symmetry; apply Z.leb_le; unfold len; lia).
  reflexivity.
Qed.

Lemma trimCategories_leading_hash (rest : string) :
  trimCategories (String "#" rest) = None.
Proof. unfold trimCategories. now rewrite Index_leading. Qed.

(** C9 (the code faults): a name whose first character is ['#'] makes
    [trimCategories] slice [name[:-1]], a run-time panic, so
    [APILoopingName] returns nothing for it; the claim that the computation
    is total fails on every such name, "#foo" among them. *)
Theorem APILoopingName_faults_on_leading_hash :
  forall (env : Collaborators) (rest : string),
    APILoopingName env (String "#" rest) = None
    /\ APILoopingName env "#foo" = None.
Proof.
  intros env rest. unfold APILoopingName.
  rewrite !trimCategories_leading_hash. split; reflexivity.
Qed.

(** Everywhere else the name is defined and is what the claim describes. *)
Lemma APILoopingName_defined (env : Collaborators) (name : string) :
  first name <> Some "#"%char ->
  exists trimmed,
    APILoopingName env name = Some (replaceNonAlphaNumeric env trimmed)
    /\ (Contains name "#" = false -> trimmed = name)
    /\ (forall i, Index name "#" = Z.of_nat i ->
                  trimmed = take (i - 1) name).
Proof.
  intros Hfirst. unfold APILoopingName.
  destruct (index_nat name "#") as [[|i]|] eqn:E.
  - exfalso. apply index_nat_Some in E as (H & _ & _).
    destruct name as [|c name]; simpl in H; [discriminate|].
    rewrite andb_true_r in H. apply Ascii.eqb_eq in H. subst c.
    now apply Hfirst.
  - rewrite (trimCategories_inner_hash _ _ E). exists (take i name).
    split; [reflexivity|]. split.
    + unfold Contains, Index. rewrite E. intros H. apply Z.leb_gt in H. lia.
    + unfold Index. rewrite E. intros j Hj.
      replace (j - 1)%nat with i by lia. reflexivity.
  - assert (Hc : Contains name "#" = false).
    { unfold Contains, Index. now rewrite E. }
    rewrite (trimCategories_without_hash _ Hc). exists name.
    split; [reflexivity|]. split; [reflexivity|].
    unfold Index. rewrite E. intros j Hj. lia.
Qed.

Example APILoopingName_foo_bar :
  APILoopingName sampleEnv "foo #bar" = Some "foo".
Proof. reflexivity. Qed.

(** The fault reaches the loop dispatcher: looking a loop target up by name
    panics as soon as the range loop meets such a descriptor. *)
Lemma fuzzyFindAPI_range_faults (env : Collaborators) (api : APISpec)
    (rest : list APISpec) (search : string) :
  APIID api <> search -> IdHex api <> search ->
  first (Name api) = Some "#"%char ->
  fuzzyFindAPI_range env (api :: rest) search = None.
Proof.
  intros H1 H2 H3. simpl.
  apply String.eqb_neq in H1, H2. rewrite H1, H2.
  destruct (Name api) as [|c n]; simpl in H3; [discriminate|].
  injection H3 as ->.
  unfold APILoopingName. now rewrite trimCategories_leading_hash.
Qed.

(** ** The strict-prefix gate *)

(** C6: [explicitRouteSubpaths] returns the handler unchanged when the gate
    is disabled, when the prefix ends with ['/'], and when the prefix
    contains both ['{'] and ['}']; in every other case it returns the
    wrapping handler, which hands a request to the inner handler exactly
    when the request path is the prefix or begins with the prefix followed
    by ['/'], and otherwise answers 404 with the text "Not Found". *)
Theorem explicitRouteSubpaths_strict_prefix_gate :
  forall (prefix : string) (handler : Handler) (enabled : bool),
    let bypass :=
      enabled = false
      \/ (exists p, prefix = p ++ "/")
      \/ ((exists a b, prefix = a ++ "{" ++ b) /\ (exists a b, prefix = a ++ "}" ++ b)) in
    (bypass -> explicitRouteSubpaths prefix handler enabled = handler)
    /\ (~ bypass ->
        explicitRouteSubpaths prefix handler enabled
        = explicitRouteHandler prefix handler)
    /\ forall r : Request,
        let matches :=
          Path (reqURL r) = prefix
          \/ exists rest, Path (reqURL r) = (prefix ++ "/") ++ rest in
        (matches ->
         explicitRouteHandler_ServeHTTP prefix handler r = GateForward handler r)
        /\ (~ matches ->
            explicitRouteHandler_ServeHTTP prefix handler r
            = GateRespond 404 "Not Found").
Proof.
  intros prefix handler enabled bypass.
  assert (Hb : bypass <->
               negb enabled
               || HasSuffix prefix "/"
               || (Contains prefix "{" && Contains prefix "}") = true).
  { unfold bypass.
    rewrite !orb_true_iff, andb_true_iff, negb_true_iff, HasSuffix_spec,
      !Contains_spec. tauto. }
  split; [|split].
  - intros H. apply Hb in H. unfold explicitRouteSubpaths.
    destruct (negb enabled); [reflexivity|].
    destruct (HasSuffix prefix "/"); [reflexivity|].
    simpl in H. now rewrite H.
  - intros H. unfold explicitRouteSubpaths.
    destruct (negb enabled) eqn:E1; [exfalso; apply H, Hb; reflexivity|].
    destruct (HasSuffix prefix "/") eqn:E2; [exfalso; apply H, Hb; reflexivity|].
    destruct (Contains prefix "{" && Contains prefix "}") eqn:E3;
      [exfalso; apply H, Hb; reflexivity | reflexivity].
  - intros r matches.
    assert (Hm : matches <->
                 String.eqb (Path (reqURL r)) prefix
                 || HasPrefix (Path (reqURL r)) (prefix ++ "/") = true).
    { unfold matches. rewrite orb_true_iff, String.eqb_eq, HasPrefix_spec. tauto. }
    unfold explicitRouteHandler_ServeHTTP.
    destruct (String.eqb (Path (reqURL r)) prefix
              || HasPrefix (Path (reqURL r)) (prefix ++ "/")) eqn:E.
    + split; [reflexivity | intros H; exfalso; apply H, Hm; reflexivity].
    + split; [intros H; apply Hm in H; discriminate | reflexivity].
Qed.

Example strict_routes_scenario :
  let chain := Chain [] userRatesCheck in
  let at_ path := sampleRequest "http" path 0 0 in
  explicitRouteHandler_ServeHTTP "/foo" chain (at_ "/foobar")
  = GateRespond 404 "Not Found"
  /\ explicitRouteHandler_ServeHTTP "/foo" chain (at_ "/foo")
     = GateForward chain (at_ "/foo")
  /\ explicitRouteHandler_ServeHTTP "/foo" chain (at_ "/foo/x")
     = GateForward chain (at_ "/foo/x")
  /\ explicitRouteSubpaths "/foo/" chain true = chain
  /\ explicitRouteSubpaths "/foo" chain true = explicitRouteHandler "/foo" chain.
Proof. repeat split. Qed.

(** ** The loop check and the head of the terminal handler *)

Lemma isLoop_found (r : Request) :
  fst (isLoop r) = true <-> Scheme (reqURL r) = "tyk".
Proof.
  unfold isLoop. destruct (String.eqb (Scheme (reqURL r)) "tyk") eqn:E; simpl.
  - apply String.eqb_eq in E.
    destruct (_ <? _); simpl; tauto.
  - apply String.eqb_neq in E. split; [discriminate | tauto].
Qed.

Lemma isLoop_error (r : Request) (err : string) :
  snd (isLoop r) = Some err <->
  Scheme (reqURL r) = "tyk" /\ loopCap r < ctxLoopLevel r
  /\ err = "Loop level too deep. Found more than " ++ itoa (loopCap r)
           ++ " loops in single request".
Proof.
  unfold isLoop, loopCap, defaultLoopLevelLimit.
  destruct (String.eqb (Scheme (reqURL r)) "tyk") eqn:E; simpl.
  - apply String.eqb_eq in E.
    destruct (_ <? _) eqn:L; simpl.
    + apply Z.ltb_lt in L. split.
      * intros [= <-]. auto.
      * intros (_ & _ & ->). reflexivity.
    + apply Z.ltb_ge in L. split; [discriminate | intros (_ & H & _); lia].
  - apply String.eqb_neq in E. split; [discriminate | tauto].
Qed.

(** What [ServeHTTP] does, in terms of the request its head leaves. *)
Lemma ServeHTTP_unfold (env : Collaborators) (d : DummyProxyHandler) (r : Request) :
  ServeHTTP env d r =
  match isLoop (contextConsumed r) with
  | (true, Some err) => HandleError (contextConsumed r) err 500
  | (true, None) => serveLoop env d (contextConsumed r)
  | (false, _) =>
      match target (SH_Spec d) with
      | None => Panics (contextConsumed r)
      | Some targetURL =>
          if String.eqb (Scheme targetURL) "tyk"
          then serveInternalTarget env d targetURL (contextConsumed r)
          else SuccessServeHTTP (contextConsumed r)
      end
  end.
Proof.
  unfold ServeHTTP, contextConsumed.
  destruct r as [m u rw tm lvl lim orig sl cl vi irt]; simpl.
  destruct rw as [newURL|]; simpl; destruct (String.eqb tm "") eqn:E; simpl;
    try reflexivity;
    apply String.eqb_eq in E; subst tm; reflexivity.
Qed.

(** C3: [isLoop] reports a loop exactly when the URL scheme is "tyk"; it
    returns an error exactly when, in addition, the loop level of the
    request exceeds the cap, which is the limit of the request context when
    that is nonzero and 5 otherwise; the error reads "Loop level too deep.
    Found more than N loops in single request" with N the cap; and the
    terminal handler answers such a request through the error handler with
    status 500. *)
Theorem isLoop_depth_check :
  forall r : Request,
    (fst (isLoop r) = true <-> Scheme (reqURL r) = "tyk")
    /\ (snd (isLoop r) <> None <->
        Scheme (reqURL r) = "tyk" /\ loopCap r < ctxLoopLevel r)
    /\ (forall err, snd (isLoop r) = Some err ->
          err = "Loop level too deep. Found more than " ++ itoa (loopCap r)
                ++ " loops in single request")
    /\ (loopCap r = if ctxLoopLevelLimit r =? 0 then 5 else ctxLoopLevelLimit r)
    /\ (forall (env : Collaborators) (d : DummyProxyHandler) (r0 : Request) err,
          contextConsumed r0 = r -> snd (isLoop r) = Some err ->
          ServeHTTP env d r0 = HandleError r err 500).
Proof.
  intros r. split; [apply isLoop_found|]. split; [|split; [|split]].
  - split.
    + destruct (snd (isLoop r)) as [err|] eqn:E; [|congruence].
      intros _. apply isLoop_error in E. tauto.
    + intros [H1 H2].
      pose proof (proj2 (isLoop_error r _) (conj H1 (conj H2 eq_refl))) as H.
      congruence.
  - intros err H. apply isLoop_error in H. tauto.
  - reflexivity.
  - intros env d r0 err <- H. rewrite ServeHTTP_unfold.
    pose proof (proj1 (isLoop_error _ _) H) as (Hs & _ & _).
    apply isLoop_found in Hs.
    destruct (isLoop (contextConsumed r0)) as [found e]; simpl in *.
    subst. reflexivity.
Qed.

Example self_loop_over_the_cap :
  ServeHTTP sampleEnv (mkDummyProxyHandler (sampleSpec "a" "" "/x" true 0 0) sampleGateway)
    (sampleRequest "tyk" "/v2" 6 0)
  = HandleError (sampleRequest "tyk" "/v2" 6 0)
      "Loop level too deep. Found more than 5 loops in single request" 500.
Proof. reflexivity. Qed.

(** C10: whatever the URL scheme, the terminal handler first takes the URL
    from [url_rewrite_target] when that is set, and clears the field, then
    takes the method from [transform_request_method] when that is set, and
    clears the field; the loop check and everything after it run on the
    request so changed, the path of an ordinary request to the reverse proxy
    included. *)
Theorem ServeHTTP_consumes_context_first :
  forall (env : Collaborators) (d : DummyProxyHandler) (r : Request),
    let r' := contextConsumed r in
    reqURL r' = match ctxURLRewriteTarget r with
                | Some newURL => newURL
                | None => reqURL r
                end
    /\ ctxURLRewriteTarget r' = None
    /\ Method r' = (if String.eqb (ctxTransformRequestMethod r) "" then Method r
                    else ctxTransformRequestMethod r)
    /\ ctxTransformRequestMethod r' = ""
    /\ (forall err, isLoop r' = (true, Some err) ->
          ServeHTTP env d r = HandleError r' err 500)
    /\ (isLoop r' = (true, None) -> ServeHTTP env d r = serveLoop env d r')
    /\ (forall targetURL,
          Scheme (reqURL r') <> "tyk" ->
          target (SH_Spec d) = Some targetURL ->
          ServeHTTP env d r =
            if String.eqb (Scheme targetURL) "tyk"
            then serveInternalTarget env d targetURL r'
            else SuccessServeHTTP r').
Proof.
  intros env d r r'. repeat split.
  - intros err H. rewrite ServeHTTP_unfold. fold r'. now rewrite H.
  - intros H. rewrite ServeHTTP_unfold. fold r'. now rewrite H.
  - intros targetURL Hs Ht. rewrite ServeHTTP_unfold. fold r'.
    destruct (isLoop r') as [found e] eqn:E.
    assert (found = false) as ->.
    { destruct found; [|reflexivity].
      exfalso. apply Hs, isLoop_found. now rewrite E. }
    now rewrite Ht.
Qed.

Example ordinary_request_is_rewritten :
  let d := mkDummyProxyHandler
             (setTarget (sampleSpec "a" "" "/x" true 0 0)
                (Some (mkURL "http" "upstream" "" ""))) sampleGateway in
  let newURL := mkURL "http" "upstream" "/rewritten" "" in
  ServeHTTP sampleEnv d
    (mkRequest "GET" (mkURL "http" "gw" "/x" "") (Some newURL) "POST" 0 0 None
       false false false None)
  = SuccessServeHTTP
      (mkRequest "POST" newURL None "" 0 0 None false false false None).
Proof. reflexivity. Qed.

(** ** The listen-path loop *)

Lemma setListenPath_same (spec : APISpec) :
  setListenPath spec (ListenPath (Proxy spec)) = spec.
Proof. destruct spec as [? ? ? ? ? ? ? ? ? ? ? ? ? ? ? ? ? ? [? ? ?] ?]. reflexivity. Qed.

Lemma collisionKeyAt_same (env : Collaborators) (spec : APISpec) :
  collisionKeyAt env spec (ListenPath (Proxy spec)) = collisionKey env spec.
Proof. unfold collisionKeyAt. now rewrite setListenPath_same. Qed.

Lemma length_le_longest (keys : list string) (k : string) :
  k ∈ keys -> (String.length k <= foldr Nat.max O (String.length <$> keys))%nat.
Proof.
  induction 1 as [k l|k k' l _ IH]; rewrite fmap_cons; simpl.
  - apply Nat.le_max_l.
  - etransitivity; [exact IH | apply Nat.le_max_r].
Qed.

Lemma maxKeyLength_bound (m : gmap string Z) (k : string) (v : Z) :
  m !! k = Some v -> (String.length k <= maxKeyLength m)%nat.
Proof.
  intros H. apply elem_of_map_to_list in H. unfold maxKeyLength.
  apply length_le_longest, list_elem_of_fmap. now exists (k, v).
Qed.

(** A key that the map counts twice is no longer than the longest key, and
    the listen path is part of the key. *)
Lemma counted_path_length (env : Collaborators) (m : gmap string Z)
    (spec : APISpec) :
  2 <= mapCount m (collisionKey env spec) ->
  (String.length (ListenPath (Proxy spec)) <= maxKeyLength m)%nat.
Proof.
  unfold mapCount, collisionKey, generateDomainPath.
  destruct (m !! _) as [v|] eqn:E; simpl; [intros _ | lia].
  apply maxKeyLength_bound in E. rewrite length_app in E. lia.
Qed.

Lemma listenPathLoop_step (env : Collaborators) (gw : Gateway)
    (m : gmap string Z) (fuel : nat) (spec : APISpec) (pathModified : bool) :
  listenPathLoop env gw m (S fuel) spec pathModified =
  if mapCount m (collisionKey env spec) <? 2 then Some (spec, pathModified)
  else if negb pathModified then
    if match getApiSpec gw (APIID spec) with
       | Some prev => String.eqb (ListenPath (Proxy prev)) (ListenPath (Proxy spec))
       | None => false
       end
    then Some (spec, pathModified)
    else listenPathLoop env gw m fuel
           (setListenPath spec (ListenPath (Proxy spec) ++ "-" ++ APIID spec)) true
  else listenPathLoop env gw m fuel
         (setListenPath spec (ListenPath (Proxy spec) ++ "_")) true.
Proof. reflexivity. Qed.

(** Once the path has been modified the loop appends underscores, and it
    leaves at the first path whose key the map counts less than twice. *)
Lemma listenPathLoop_underscores (env : Collaborators) (gw : Gateway)
    (m : gmap string Z) (fuel : nat) :
  forall spec : APISpec,
    (S (S (maxKeyLength m) - String.length (ListenPath (Proxy spec))) <= fuel)%nat ->
    exists n : nat,
      listenPathLoop env gw m fuel spec true
      = Some (setListenPath spec (ListenPath (Proxy spec) ++ underscores n), true)
      /\ mapCount m (collisionKeyAt env spec (ListenPath (Proxy spec) ++ underscores n)) < 2
      /\ forall k, (k < n)%nat ->
           2 <= mapCount m (collisionKeyAt env spec (ListenPath (Proxy spec) ++ underscores k)).
Proof.
  induction fuel as [|fuel IH]; intros spec Hfuel; [lia|].
  rewrite listenPathLoop_step.
  destruct (mapCount m (collisionKey env spec) <? 2) eqn:E.
  - apply Z.ltb_lt in E. exists O. simpl underscores.
    rewrite app_nil_r, setListenPath_same, collisionKeyAt_same.
    split; [reflexivity|]. split; [exact E | intros k Hk; lia].
  - apply Z.ltb_ge in E. simpl negb. cbv iota.
    pose proof (counted_path_length _ _ _ E) as Hlen.
    set (spec1 := setListenPath spec (ListenPath (Proxy spec) ++ "_")).
    destruct (IH spec1) as (n & Hrun & Hfree & Hbusy).
    { subst spec1. simpl. rewrite length_app. simpl. lia. }
    exists (S n). subst spec1. simpl in Hrun, Hfree, Hbusy.
    unfold collisionKeyAt in *. simpl in Hfree, Hbusy.
    rewrite app_assoc in Hrun, Hfree.
    split; [exact Hrun|]. split; [exact Hfree|].
    intros [|k] Hk.
    + simpl underscores. rewrite app_nil_r, setListenPath_same. exact E.
    + specialize (Hbusy k ltac:(lia)). rewrite app_assoc in Hbusy. exact Hbusy.
Qed.

Lemma heldBefore_test (gw : Gateway) (spec : APISpec) :
  match getApiSpec gw (APIID spec) with
  | Some prev => String.eqb (ListenPath (Proxy prev)) (ListenPath (Proxy spec))
  | None => false
  end = true <-> heldBefore gw spec.
Proof.
  unfold heldBefore. destruct (getApiSpec gw (APIID spec)) as [prev|].
  - rewrite String.eqb_eq. split; [intros H; now exists prev|].
    now intros (prev' & [= <-] & H).
  - split; [discriminate | now intros (prev & H & _)].
Qed.

(** The result of the loop, with enough fuel. *)
Lemma listenPathLoop_result (env : Collaborators) (gw : Gateway)
    (m : gmap string Z) (spec : APISpec) (fuel : nat) :
  (loopFuel m spec <= fuel)%nat ->
  let p := ListenPath (Proxy spec) in
  (mapCount m (collisionKey env spec) < 2 ->
   listenPathLoop env gw m fuel spec false = Some (spec, false))
  /\ (2 <= mapCount m (collisionKey env spec) -> heldBefore gw spec ->
      listenPathLoop env gw m fuel spec false = Some (spec, false))
  /\ (2 <= mapCount m (collisionKey env spec) -> ~ heldBefore gw spec ->
      exists n : nat,
        let p' := p ++ "-" ++ APIID spec ++ underscores n in
        listenPathLoop env gw m fuel spec false = Some (setListenPath spec p', true)
        /\ mapCount m (collisionKeyAt env spec p') < 2
        /\ forall k, (k < n)%nat ->
             2 <= mapCount m
                    (collisionKeyAt env spec (p ++ "-" ++ APIID spec ++ underscores k))).
Proof.
  intros Hfuel p. unfold loopFuel in Hfuel. fold p in Hfuel.
  destruct fuel as [|fuel]; [lia|]. rewrite listenPathLoop_step.
  split; [|split].
  - intros H. apply Z.ltb_lt in H. now rewrite H.
  - intros H Hheld. apply Z.ltb_ge in H. rewrite H. simpl negb. cbv iota.
    apply heldBefore_test in Hheld. now rewrite Hheld.
  - intros H Hheld. pose proof (counted_path_length _ _ _ H) as Hlen.
    apply Z.ltb_ge in H. rewrite H. simpl negb. cbv iota.
    destruct (match getApiSpec gw (APIID spec) with
              | Some prev => _ | None => _ end) eqn:E;
      [exfalso; now apply Hheld, heldBefore_test|].
    set (spec1 := setListenPath spec (p ++ "-" ++ APIID spec)).
    destruct (listenPathLoop_underscores env gw m fuel spec1) as (n & Hrun & Hfree & Hbusy).
    { subst spec1 p. simpl. rewrite !length_app. simpl. lia. }
    exists n. subst spec1. simpl in Hrun, Hfree, Hbusy.
    unfold collisionKeyAt in *. simpl in Hfree, Hbusy.
    rewrite !app_assoc in Hrun, Hfree. fold p in Hrun, Hfree.
    split; [exact Hrun|]. split; [exact Hfree|].
    intros k Hk. specialize (Hbusy k Hk). rewrite !app_assoc in Hbusy. exact Hbusy.
Qed.

(** The loop ends, and its result does not depend on how much fuel is left
    over. *)
Lemma listenPathLoop_outcome (env : Collaborators) (gw : Gateway)
    (m : gmap string Z) (spec : APISpec) :
  let p := ListenPath (Proxy spec) in
  exists (spec' : APISpec) (modified : bool),
    (forall fuel, (loopFuel m spec <= fuel)%nat ->
                  listenPathLoop env gw m fuel spec false = Some (spec', modified))
    /\ (((mapCount m (collisionKey env spec) < 2
          \/ (2 <= mapCount m (collisionKey env spec) /\ heldBefore gw spec))
         /\ spec' = spec /\ modified = false)
        \/ (2 <= mapCount m (collisionKey env spec) /\ ~ heldBefore gw spec
            /\ modified = true
            /\ exists n : nat,
                 spec' = setListenPath spec (p ++ "-" ++ APIID spec ++ underscores n)
                 /\ mapCount m (collisionKeyAt env spec
                                  (p ++ "-" ++ APIID spec ++ underscores n)) < 2
                 /\ forall k, (k < n)%nat ->
                      2 <= mapCount m
                             (collisionKeyAt env spec
                                (p ++ "-" ++ APIID spec ++ underscores k)))).
Proof.
  intros p.
  destruct (Z.lt_ge_cases (mapCount m (collisionKey env spec)) 2) as [Hlt|Hge].
  { exists spec, false. split; [|left; auto].
    intros fuel Hfuel.
    destruct (listenPathLoop_result env gw m spec fuel Hfuel) as (Ha & _). auto. }
  destruct (match getApiSpec gw (APIID spec) with
            | Some prev => String.eqb (ListenPath (Proxy prev)) (ListenPath (Proxy spec))
            | None => false
            end) eqn:Htest.
  { apply heldBefore_test in Htest. exists spec, false. split; [|left; auto].
    intros fuel Hfuel.
    destruct (listenPathLoop_result env gw m spec fuel Hfuel) as (_ & Hb & _). auto. }
  assert (Hnot : ~ heldBefore gw spec).
  { intros H. apply heldBefore_test in H. congruence. }
  destruct (listenPathLoop_result env gw m spec (loopFuel m spec) (Nat.le_refl _))
    as (_ & _ & Hc).
  destruct (Hc Hge Hnot) as (n & Hrun & Hfree & Hbusy). fold p in Hrun, Hfree, Hbusy.
  exists (setListenPath spec (p ++ "-" ++ APIID spec ++ underscores n)), true.
  split; [|right; repeat split; auto; exists n; auto].
  intros fuel Hfuel.
  destruct (listenPathLoop_result env gw m spec fuel Hfuel) as (_ & _ & Hc').
  destruct (Hc' Hge Hnot) as (n' & Hrun' & Hfree' & Hbusy'). fold p in Hrun', Hfree', Hbusy'.
  assert (n' = n) as ->; [|exact Hrun'].
  destruct (Nat.lt_trichotomy n' n) as [Hl|[He|Hg]]; [|exact He|].
  - specialize (Hbusy n' Hl). lia.
  - specialize (Hbusy' n Hg). lia.
Qed.

(** C1: a descriptor whose key the collision map counts less than twice
    keeps its listen path; one whose key is counted at least twice keeps it
    when the previously loaded descriptor of the same api_id held exactly
    this path; otherwise "-<api_id>" is appended once and then "_" as often
    as it takes, the key being recomputed from the descriptor after each
    change, until the map counts the key less than twice: the result is the
    path with "-<api_id>" and the least number of underscores for which that
    holds. *)
Theorem listenPath_arbitration :
  forall (env : Collaborators) (gw : Gateway) (m : gmap string Z) (spec : APISpec),
    let p := ListenPath (Proxy spec) in
    exists (spec' : APISpec) (modified : bool),
      (forall fuel, (loopFuel m spec <= fuel)%nat ->
                    listenPathLoop env gw m fuel spec false = Some (spec', modified))
      /\ spec' = setListenPath spec (ListenPath (Proxy spec'))
      /\ (mapCount m (collisionKey env spec) < 2 ->
          ListenPath (Proxy spec') = p /\ modified = false)
      /\ (2 <= mapCount m (collisionKey env spec) -> heldBefore gw spec ->
          ListenPath (Proxy spec') = p /\ modified = false)
      /\ (2 <= mapCount m (collisionKey env spec) -> ~ heldBefore gw spec ->
          modified = true
          /\ exists n : nat,
               ListenPath (Proxy spec') = p ++ "-" ++ APIID spec ++ underscores n
               /\ mapCount m (collisionKey env spec') < 2
               /\ forall k, (k < n)%nat ->
                    2 <= mapCount m
                           (collisionKeyAt env spec
                              (p ++ "-" ++ APIID spec ++ underscores k))).
Proof.
  intros env gw m spec p.
  destruct (listenPathLoop_outcome env gw m spec)
    as (spec' & modified & Hrun & [(Hcase & -> & ->)|(Hge & Hnot & -> & n & -> & Hfree & Hbusy)]).
  - exists spec, false. split; [exact Hrun|].
    split; [symmetry; apply setListenPath_same|].
    split; [auto|]. split; [auto|].
    intros Hge Hnot. destruct Hcase as [Hlt|[_ Hheld]]; [lia | contradiction].
  - fold p in Hfree, Hbusy |- *.
    exists (setListenPath spec (p ++ "-" ++ APIID spec ++ underscores n)), true.
    split; [exact Hrun|]. split; [reflexivity|].
    split; [intros; lia|]. split; [intros; contradiction|].
    intros _ _. split; [reflexivity|]. exists n. auto.
Qed.

Example collision_scenario :
  let m : gmap string Z := <["/x" := 2]> ∅ in
  listenPathLoop sampleEnv sampleGateway m 5 (sampleSpec "b" "" "/x" false 0 0) false
  = Some (sampleSpec "b" "" "/x-b" false 0 0, true).
Proof. reflexivity. Qed.

Example suffix_cascade_scenario :
  let m : gmap string Z := <["/x-c" := 2]> (<["/x" := 2]> ∅) in
  listenPathLoop sampleEnv sampleGateway m 5 (sampleSpec "c" "" "/x" false 0 0) false
  = Some (sampleSpec "c" "" "/x-c_" false 0 0, true).
Proof. reflexivity. Qed.

Example stability_scenario :
  let m : gmap string Z := <["/x" := 2]> ∅ in
  let gw := mkGateway (<["a" := sampleSpec "a" "" "/x" false 0 0]> ∅) ∅ sampleConfig in
  listenPathLoop sampleEnv gw m 5 (sampleSpec "a" "" "/x" false 0 0) false
  = Some (sampleSpec "a" "" "/x" false 0 0, false).
Proof. reflexivity. Qed.

(** ** [processSpec] as a whole *)

Lemma skipSpec_setTransport (env : Collaborators) (spec : APISpec)
    (t : TransportConfig) :
  skipSpecBecauseInvalid env (setTransport spec t)
  = (fst (skipSpecBecauseInvalid env spec),
     setTransport (snd (skipSpecBecauseInvalid env spec)) t).
Proof.
  unfold skipSpecBecauseInvalid. simpl.
  destruct (isHTTPProtocol (Protocol spec) && _); [reflexivity|].
  destruct (isHTTPProtocol (Protocol spec) && _); [reflexivity|].
  destruct (kvStore env _); simpl; destruct (url_Parse env _); reflexivity.
Qed.

Lemma skipSpec_setTagHeaders (env : Collaborators) (spec : APISpec)
    (hs : list string) :
  skipSpecBecauseInvalid env (setTagHeaders spec hs)
  = (fst (skipSpecBecauseInvalid env spec),
     setTagHeaders (snd (skipSpecBecauseInvalid env spec)) hs).
Proof.
  unfold skipSpecBecauseInvalid. simpl.
  destruct (isHTTPProtocol (Protocol spec) && _); [reflexivity|].
  destruct (isHTTPProtocol (Protocol spec) && _); [reflexivity|].
  destruct (kvStore env _); simpl; destruct (url_Parse env _); reflexivity.
Qed.

(** The verdict of the validator. *)
Lemma skipSpec_verdict (env : Collaborators) (spec : APISpec) :
  fst (skipSpecBecauseInvalid env spec) = true <->
  (isHTTPProtocol (Protocol spec) = true
   /\ (ListenPath (Proxy spec) = "" \/ Contains (ListenPath (Proxy spec)) " " = true))
  \/ url_Parse env (resolvedTargetURL env spec) = None.
Proof.
  unfold skipSpecBecauseInvalid, resolvedTargetURL.
  destruct (isHTTPProtocol (Protocol spec)); simpl.
  - destruct (String.eqb_spec (ListenPath (Proxy spec)) "") as [E|E]; simpl;
      [tauto|].
    destruct (Contains (ListenPath (Proxy spec)) " "); simpl; [tauto|].
    destruct (kvStore env _); simpl; destruct (url_Parse env _); simpl;
      intuition congruence.
  - destruct (kvStore env _); simpl; destruct (url_Parse env _); simpl;
      intuition congruence.
Qed.

(** The validator changes nothing but the target URL. *)
Lemma skipSpec_descriptor (env : Collaborators) (spec : APISpec) :
  snd (skipSpecBecauseInvalid env spec) = spec
  \/ snd (skipSpecBecauseInvalid env spec)
     = setTargetURL spec (resolvedTargetURL env spec).
Proof.
  unfold skipSpecBecauseInvalid, resolvedTargetURL.
  destruct (isHTTPProtocol (Protocol spec) && _); [auto|].
  destruct (isHTTPProtocol (Protocol spec) && _); [auto|].
  destruct (kvStore env _); simpl; destruct (url_Parse env _); simpl; auto.
  all: left; destruct spec as [? ? ? ? ? ? ? ? ? ? ? ? ? ? ? ? ? ? [? ? ?] ?];
    reflexivity.
Qed.

(** The descriptor as it enters the validator: TLS versions normalised and
    tag headers lowered. *)
Lemma processSpec_unfold (env : Collaborators) (gw : Gateway) (spec : APISpec)
    (m : gmap string Z) :
  exists spec0 : APISpec,
    Transport (Proxy spec0) = normaliseTLS (Transport (Proxy spec))
    /\ ListenPath (Proxy spec0) = ListenPath (Proxy spec)
    /\ UseKeylessAccess spec0 = UseKeylessAccess spec
    /\ Internal spec0 = Internal spec
    /\ APIID spec0 = APIID spec
    /\ forall q : string,
       processSpec env gw spec m q =
       if fst (skipSpecBecauseInvalid env spec)
       then Some (spec0, mkChainObject None None false true)
       else
         match listenPathLoop env gw m (loopFuel m spec0) spec0 false with
         | None => None
         | Some (spec1, _) =>
             let spec2 := setTarget spec1 (url_Parse env (TargetURL (Proxy spec1))) in
             let cm := fixBundlePaths env spec1 (loadCustomMiddleware env spec1) in
             let authArray :=
               if negb (UseKeylessAccess spec2) then buildAuthArray env spec2 cm
               else [] in
             let proxy :=
               if existsb (fun o => negb (String.eqb o "") && negb (NotVersioned spec1))
                    (VersionOverrideTargets spec1)
               then MultiTargetProxy else SingleHostReverseProxy in
             let chain :=
               Chain (buildChainArray env spec2 cm authArray q)
                     (DummyProxy spec2 proxy) in
             Some (spec2,
                   mkChainObject
                     (Some (if TraceEnabled (config gw)
                            then TraceHandle (Name spec2) chain
                            else if OpenTelemetryEnabled (config gw)
                            then OtelHTTPHandler (Name spec2) chain
                            else chain))
                     (if UseKeylessAccess spec then None
                      else Some (Chain (buildSimpleArray env spec2 authArray)
                                   userRatesCheck))
                     (UseKeylessAccess spec) (Internal spec))
         end.
Proof.
  set (t := normaliseTLS (Transport (Proxy spec))).
  set (sp := if (0 <? length (TagHeaders (setTransport spec t)))%nat
             then setTagHeaders (setTransport spec t)
                    (map (ToLower env) (TagHeaders (setTransport spec t)))
             else setTransport spec t).
  assert (Hskip : skipSpecBecauseInvalid env sp
                  = (fst (skipSpecBecauseInvalid env spec),
                     if (0 <? length (TagHeaders (setTransport spec t)))%nat
                     then setTagHeaders
                            (setTransport (snd (skipSpecBecauseInvalid env spec)) t)
                            (map (ToLower env) (TagHeaders (setTransport spec t)))
                     else setTransport (snd (skipSpecBecauseInvalid env spec)) t)).
  { subst sp. destruct (0 <? _)%nat.
    - now rewrite skipSpec_setTagHeaders, skipSpec_setTransport.
    - now rewrite skipSpec_setTransport. }
  match type of Hskip with _ = (_, ?s) => exists s end.
  assert (Hfields :
            forall s, s = spec \/ s = setTargetURL spec (resolvedTargetURL env spec) ->
                      forall s0,
                        s0 = setTransport s t
                        \/ s0 = setTagHeaders (setTransport s t)
                                  (map (ToLower env) (TagHeaders (setTransport spec t))) ->
                        Transport (Proxy s0) = t
                        /\ ListenPath (Proxy s0) = ListenPath (Proxy spec)
                        /\ UseKeylessAccess s0 = UseKeylessAccess spec
                        /\ Internal s0 = Internal spec
                        /\ APIID s0 = APIID spec).
  { intros s [-> | ->] s0 [-> | ->]; simpl; auto. }
  pose proof (skipSpec_descriptor env spec) as Hd.
  match goal with
  | |- Transport (Proxy ?s0) = _ /\ _ =>
      destruct (Hfields _ Hd s0) as (F1 & F2 & F3 & F4 & F5);
      [destruct (0 <? _)%nat; auto|]
  end.
  repeat (split; [assumption|]).
  intros q. unfold processSpec. fold t. fold sp. rewrite Hskip.
  destruct (fst (skipSpecBecauseInvalid env spec)); [reflexivity|].
  match goal with
  | |- context [listenPathLoop env gw m (loopFuel m ?s0) ?s0 false] =>
      set (spec0 := s0) in *;
      destruct (listenPathLoop env gw m (loopFuel m spec0) spec0 false)
        as [[spec1' md']|] eqn:Hrun; [|reflexivity]
  end.
  assert (G : UseKeylessAccess spec1' = UseKeylessAccess spec
              /\ Internal spec0 = Internal spec).
  { split; [|assumption].
    destruct (listenPathLoop_outcome env gw m spec0) as (s1 & md1 & Hr & Hc).
    rewrite (Hr _ (Nat.le_refl _)) in Hrun. injection Hrun as <- <-.
    destruct Hc as [(_ & -> & _)|(_ & _ & _ & n & -> & _)]; simpl; assumption. }
  destruct G as [G1 G2]. simpl. rewrite G1, G2.
  destruct (Internal spec), (UseKeylessAccess spec); reflexivity.
Qed.

(** The descriptor [processSpec] leaves: the normalised TLS versions, and a
    listen path that the loop result determines. *)
Lemma processSpec_transport (env : Collaborators) (gw : Gateway) (spec : APISpec)
    (m : gmap string Z) (q : string) (spec' : APISpec) (chainObj : ChainObject) :
  processSpec env gw spec m q = Some (spec', chainObj) ->
  Transport (Proxy spec') = normaliseTLS (Transport (Proxy spec)).
Proof.
  destruct (processSpec_unfold env gw spec m) as (spec0 & F1 & _ & _ & _ & _ & Hp).
  rewrite Hp. destruct (fst (skipSpecBecauseInvalid env spec)).
  - now intros [= <- _].
  - destruct (listenPathLoop_outcome env gw m spec0) as (s1 & md1 & Hr & Hc).
    rewrite (Hr _ (Nat.le_refl _)). intros [= <- _]. simpl.
    destruct Hc as [(_ & -> & _)|(_ & _ & _ & n & -> & _)]; simpl; assumption.
Qed.

Lemma processSpec_total (env : Collaborators) (gw : Gateway) (spec : APISpec)
    (m : gmap string Z) (q : string) :
  exists out, processSpec env gw spec m q = Some out.
Proof.
  destruct (processSpec_unfold env gw spec m) as (spec0 & _ & _ & _ & _ & _ & Hp).
  rewrite Hp. destruct (fst (skipSpecBecauseInvalid env spec)); [eauto|].
  destruct (listenPathLoop_outcome env gw m spec0) as (s1 & md1 & Hr & _).
  rewrite (Hr _ (Nat.le_refl _)). eauto.
Qed.

(** C8: the suffixing loop terminates.  Every round either leaves the loop
    or goes on with a strictly longer listen path; with the fuel computed
    from the longest key of the map the loop returns, and more fuel does not
    change what it returns; when it has changed the path, the key it leaves
    with is counted less than twice, so no collision is left; and
    [processSpec] returns for every descriptor. *)
Theorem listenPath_suffixing_terminates :
  forall (env : Collaborators) (gw : Gateway) (m : gmap string Z) (spec : APISpec),
    (forall fuel s pathModified,
        listenPathLoop env gw m (S fuel) s pathModified = Some (s, pathModified)
        \/ exists s1,
             (String.length (ListenPath (Proxy s))
              < String.length (ListenPath (Proxy s1)))%nat
             /\ listenPathLoop env gw m (S fuel) s pathModified
                = listenPathLoop env gw m fuel s1 true)
    /\ (exists (spec' : APISpec) (modified : bool),
           (forall fuel, (loopFuel m spec <= fuel)%nat ->
                         listenPathLoop env gw m fuel spec false = Some (spec', modified))
           /\ (modified = true -> mapCount m (collisionKey env spec') < 2))
    /\ (forall q, exists out, processSpec env gw spec m q = Some out).
Proof.
  intros env gw m spec. split; [|split].
  - intros fuel s pm. rewrite listenPathLoop_step.
    destruct (_ <? 2); [now left|].
    destruct (negb pm).
    + destruct (match getApiSpec gw (APIID s) with Some _ => _ | None => _ end);
        [now left|].
      right. eexists. split; [|reflexivity]. simpl. rewrite !length_app. simpl. lia.
    + right. eexists. split; [|reflexivity]. simpl. rewrite !length_app. simpl. lia.
  - destruct (listenPathLoop_outcome env gw m spec)
      as (spec' & modified & Hrun & Hcase).
    exists spec', modified. split; [exact Hrun|].
    intros ->. destruct Hcase as [(_ & _ & [=])|(_ & _ & _ & n & -> & Hfree & _)].
    exact Hfree.
  - intros q. apply processSpec_total.
Qed.

(** ** TLS normalisation *)

Lemma normaliseTLS_spec (t : TransportConfig) :
  let clamped := if (SSLMaxVersion t =? 0)%N then 0%N else VersionTLS12 in
  SSLMinVersion (normaliseTLS t) = SSLMinVersion t
  /\ SSLMaxVersion (normaliseTLS t)
     = (if (clamped <? SSLMinVersion t)%N then SSLMinVersion t else clamped).
Proof.
  destruct t as [tmin tmax]. unfold normaliseTLS. simpl.
  destruct (N.ltb_spec 0 tmax) as [H|H]; simpl.
  - replace (tmax =? 0)%N with false by (symmetry; apply N.eqb_neq; lia).
    destruct (VersionTLS12 <? tmin)%N; auto.
  - replace (tmax =? 0)%N with true by (symmetry; apply N.eqb_eq; lia).
    assert (tmax = 0%N) as -> by lia.
    destruct (0 <? tmin)%N; auto.
Qed.

(** C2 (as amended): after the TLS normalisation of [processSpec] the
    minimum version is unchanged and does not exceed the maximum; the
    maximum is the clamped one, 0 for a zero [ssl_max_version] and TLS 1.2
    otherwise, unless the minimum exceeds that, in which case the maximum
    equals the minimum. *)
Theorem processSpec_tls_normalised :
  forall (env : Collaborators) (gw : Gateway) (spec : APISpec)
         (m : gmap string Z) (q : string) (spec' : APISpec) (chainObj : ChainObject),
    processSpec env gw spec m q = Some (spec', chainObj) ->
    let tmin := SSLMinVersion (Transport (Proxy spec)) in
    let tmax := SSLMaxVersion (Transport (Proxy spec)) in
    let tmin' := SSLMinVersion (Transport (Proxy spec')) in
    let tmax' := SSLMaxVersion (Transport (Proxy spec')) in
    let clamped := if (tmax =? 0)%N then 0%N else VersionTLS12 in
    tmin' = tmin
    /\ (tmin' <= tmax')%N
    /\ ((tmin <= clamped)%N -> tmax' = clamped /\ (tmax' = 0%N \/ tmax' = VersionTLS12))
    /\ ((clamped < tmin)%N -> tmax' = tmin).
Proof.
  intros env gw spec m q spec' chainObj H tmin tmax tmin' tmax' clamped.
  apply processSpec_transport in H.
  destruct (normaliseTLS_spec (Transport (Proxy spec))) as [Hmin Hmax].
  subst tmin' tmax'. rewrite H, Hmin, Hmax. fold tmin tmax clamped.
  destruct (N.ltb_spec clamped tmin) as [L|L].
  - repeat split; try lia.
  - repeat split; try lia.
    subst clamped. destruct (tmax =? 0)%N; auto.
Qed.

(** The theorem at a descriptor configured for TLS 1.0 up to TLS 1.3. *)
Lemma processSpec_tls_normalised_witness :
  exists (spec' : APISpec) (chainObj : ChainObject),
    processSpec sampleEnv sampleGateway (sampleSpec "a" "" "/x" true 769 772) ∅ ""
    = Some (spec', chainObj)
    /\ SSLMinVersion (Transport (Proxy spec')) = 769%N
    /\ SSLMaxVersion (Transport (Proxy spec')) = 771%N.
Proof.
  destruct (processSpec sampleEnv sampleGateway (sampleSpec "a" "" "/x" true 769 772) ∅ "")
    as [[spec' chainObj]|] eqn:E; [|vm_compute in E; discriminate].
  exists spec', chainObj. split; [reflexivity|].
  destruct (processSpec_tls_normalised _ _ _ _ _ _ _ E) as (H1 & _ & H3 & _).
  split; [exact H1|].
  destruct H3 as [H3 _]; [vm_compute; discriminate | exact H3].
Defined.

(** C2 (as stated) fails: a descriptor with [ssl_min_version] TLS 1.3 and
    no [ssl_max_version] leaves the normalisation with [ssl_max_version]
    TLS 1.3, which is neither 0 nor TLS 1.2. *)
Lemma tls_clamp_counterexample :
  ~ (forall (env : Collaborators) (gw : Gateway) (spec : APISpec)
            (m : gmap string Z) (q : string) (spec' : APISpec) (chainObj : ChainObject),
        processSpec env gw spec m q = Some (spec', chainObj) ->
        (SSLMaxVersion (Transport (Proxy spec')) = 0%N
         \/ SSLMaxVersion (Transport (Proxy spec')) = VersionTLS12)
        /\ (SSLMinVersion (Transport (Proxy spec'))
            <= SSLMaxVersion (Transport (Proxy spec')))%N).
Proof.
  intros H.
  destruct (processSpec sampleEnv sampleGateway (sampleSpec "a" "" "/x" true 772 0) ∅ "")
    as [[spec' chainObj]|] eqn:E; [|vm_compute in E; discriminate].
  destruct (H _ _ _ _ _ _ _ E) as [Hmax _].
  vm_compute in E. injection E as <- <-.
  destruct Hmax as [Hmax|Hmax]; vm_compute in Hmax; discriminate.
Qed.

(** ** The chain object *)

(** C5 (as amended): in every chain object [processSpec] returns, [Open]
    implies that [RateLimitChain] is nil; for every descriptor that is not
    keyless and that [skipSpecBecauseInvalid] accepts, the rate-limit
    side-chain is built from the address filters, the organisation monitor,
    the version check, the authentication sub-sequence, key expiry and
    access rights, ends in [userRatesCheck], and is stored on the chain
    object. *)
Theorem processSpec_rate_limit_chain :
  forall (env : Collaborators) (gw : Gateway) (spec : APISpec)
         (m : gmap string Z) (q : string) (spec' : APISpec) (chainObj : ChainObject),
    processSpec env gw spec m q = Some (spec', chainObj) ->
    (Open chainObj = true -> RateLimitChain chainObj = None)
    /\ (UseKeylessAccess spec = false ->
        fst (skipSpecBecauseInvalid env spec) = false ->
        Open chainObj = false
        /\ exists authArray,
             RateLimitChain chainObj
             = Some (Chain (buildSimpleArray env spec' authArray) userRatesCheck)).
Proof.
  intros env gw spec m q spec' chainObj.
  destruct (processSpec_unfold env gw spec m) as (spec0 & _ & _ & _ & _ & _ & Hp).
  rewrite Hp. destruct (fst (skipSpecBecauseInvalid env spec)).
  - intros [= <- <-]. simpl. split; [discriminate | discriminate].
  - destruct (listenPathLoop env gw m (loopFuel m spec0) spec0 false)
      as [[spec1 md]|]; [|discriminate].
    cbv zeta. intros [= <- <-]. simpl.
    destruct (UseKeylessAccess spec); split; try discriminate; try reflexivity.
    intros _ _. split; [reflexivity|]. eexists. reflexivity.
Qed.

(** The theorem at a key-protected descriptor: the side-chain it gets when
    every middleware is enabled. *)
Lemma processSpec_rate_limit_chain_witness :
  exists (spec' : APISpec) (chainObj : ChainObject),
    processSpec sampleEnv sampleGateway (sampleSpec "a" "" "/x" false 0 0) ∅ ""
    = Some (spec', chainObj)
    /\ Open chainObj = false
    /\ RateLimitChain chainObj
       = Some (Chain [IPWhiteListMiddleware; IPBlackListMiddleware;
                      OrganizationMonitor; VersionCheck; Oauth2KeyExists;
                      ExternalOAuthMiddleware; BasicAuthKeyIsValid;
                      HTTPSignatureValidationMiddleware; JWTMiddleware;
                      OpenIDMW; KeyExpired; AccessRightsCheck]
                userRatesCheck).
Proof.
  destruct (processSpec sampleEnv sampleGateway (sampleSpec "a" "" "/x" false 0 0) ∅ "")
    as [[spec' chainObj]|] eqn:E; [|vm_compute in E; discriminate].
  exists spec', chainObj. split; [reflexivity|].
  destruct (processSpec_rate_limit_chain _ _ _ _ _ _ _ E) as (_ & H).
  destruct H as [H _]; [reflexivity | reflexivity |].
  split; [exact H|].
  vm_compute in E. injection E as <- <-. reflexivity.
Defined.

(** C5 (as stated) fails: a descriptor that is not keyless and has an empty
    listen path is refused by the validator, and the chain object returned
    for it carries no rate-limit side-chain. *)
Lemma rate_limit_chain_counterexample :
  ~ (forall (env : Collaborators) (gw : Gateway) (spec : APISpec)
            (m : gmap string Z) (q : string) (spec' : APISpec) (chainObj : ChainObject),
        processSpec env gw spec m q = Some (spec', chainObj) ->
        (Open chainObj = true -> RateLimitChain chainObj = None)
        /\ (UseKeylessAccess spec = false -> RateLimitChain chainObj <> None)).
Proof.
  intros H.
  destruct (processSpec sampleEnv sampleGateway (sampleSpec "a" "" "" false 0 0) ∅ "")
    as [[spec' chainObj]|] eqn:E; [|vm_compute in E; discriminate].
  destruct (H _ _ _ _ _ _ _ E) as [_ Hrl].
  vm_compute in E. injection E as <- <-.
  now apply Hrl.
Qed.

Example keyless_scenario :
  exists spec' handler,
    processSpec sampleEnv sampleGateway (sampleSpec "a" "" "/open" true 0 0) ∅ ""
    = Some (spec', mkChainObject (Some handler) None true false).
Proof. eexists. eexists. vm_compute. reflexivity. Qed.

(** ** The validator *)

(** A listen path with a tab in it. *)
Lemma tab_is_whitespace :
  containsWhitespace ("/a" ++ String "009" "b") = true
  /\ Contains ("/a" ++ String "009" "b") " " = false.
Proof. split; reflexivity. Qed.

(** A chain object with [Skip] set is never registered: whenever
    [loadHTTPService] returns one, it has added no route. *)
Lemma loadHTTPService_skipped (env : Collaborators) (gw : Gateway)
    (spec spec' : APISpec) (m : gmap string Z) (chainObj : ChainObject)
    (routes : list Route) :
  loadHTTPService env gw spec m = Loaded spec' chainObj routes ->
  Skip chainObj = true -> routes = [].
Proof.
  unfold loadHTTPService. intros Hload Hskip.
  destruct (ValidatePath env (ListenPath (Proxy spec))); [discriminate|].
  match type of Hload with
  | match ?loaded with _ => _ end = _ =>
      destruct loaded as [[spec1 c]|]; [|discriminate]
  end.
  destruct (Skip c) eqn:E; injection Hload as <- <- <-;
    [reflexivity | congruence].
Qed.

(** C7 (as amended): for a descriptor of protocol "", "http" or "https",
    [skipSpecBecauseInvalid] returns true exactly when the listen path is
    empty, or contains the space character, or the target URL, after the
    key-value lookup, fails to parse; and whenever it returns true,
    [processSpec] produces, for every quota key, a chain object with [Skip]
    set, which has no handler and no side-chain, and does not register the
    descriptor: [loadHTTPService] adds no route with a chain object that
    has [Skip] set, and so none where it runs [processSpec] on the
    descriptor. *)
Theorem skipSpecBecauseInvalid_http :
  forall (env : Collaborators) (gw : Gateway) (spec : APISpec) (m : gmap string Z),
    isHTTPProtocol (Protocol spec) = true ->
    (fst (skipSpecBecauseInvalid env spec) = true <->
     ListenPath (Proxy spec) = ""
     \/ (exists a b, ListenPath (Proxy spec) = a ++ " " ++ b)
     \/ url_Parse env (resolvedTargetURL env spec) = None)
    /\ (fst (skipSpecBecauseInvalid env spec) = true ->
        exists spec' : APISpec,
          (forall q, processSpec env gw spec m q
                     = Some (spec', mkChainObject None None false true))
          /\ (forall gw0 spec0 m0 spec1 routes,
                 loadHTTPService env gw0 spec0 m0
                 = Loaded spec1 (mkChainObject None None false true) routes ->
                 routes = [])
          /\ (ValidatePath env (ListenPath (Proxy spec)) = None ->
              shouldReloadSpec env (getApiSpec gw (APIID spec)) spec = true ->
              loadHTTPService env gw spec m
              = Loaded spec' (mkChainObject None None false true) [])).
Proof.
  intros env gw spec m Hproto. split.
  - rewrite skipSpec_verdict, Hproto, Contains_spec. tauto.
  - intros Hskip.
    destruct (processSpec_unfold env gw spec m) as (spec0 & _ & _ & _ & _ & _ & Hp).
    exists spec0. split; [|split].
    + intros q. now rewrite Hp, Hskip.
    + intros gw0 spec1 m0 spec2 routes Hload.
      now apply (loadHTTPService_skipped _ _ _ _ _ _ _ Hload).
    + intros Hvalid Hreload. unfold loadHTTPService.
      now rewrite Hvalid, Hreload, Hp, Hskip.
Qed.

(** The theorem at a descriptor whose listen path contains a space. *)
Lemma skipSpecBecauseInvalid_http_witness :
  fst (skipSpecBecauseInvalid sampleEnv (sampleSpec "a" "" "/a b" false 0 0)) = true
  /\ exists spec' : APISpec,
       processSpec sampleEnv sampleGateway (sampleSpec "a" "" "/a b" false 0 0) ∅ ""
       = Some (spec', mkChainObject None None false true)
       /\ loadHTTPService sampleEnv sampleGateway
            (sampleSpec "a" "" "/a b" false 0 0) ∅
          = Loaded spec' (mkChainObject None None false true) [].
Proof.
  destruct (skipSpecBecauseInvalid_http sampleEnv sampleGateway
              (sampleSpec "a" "" "/a b" false 0 0) ∅ eq_refl) as [Hiff Hskip].
  assert (H : fst (skipSpecBecauseInvalid sampleEnv (sampleSpec "a" "" "/a b" false 0 0))
              = true).
  { apply Hiff. right. left. exists "/a", "b". reflexivity. }
  split; [exact H|].
  destruct (Hskip H) as (spec' & Hrun & _ & Hload).
  exists spec'. split; [apply Hrun | apply Hload; reflexivity].
Defined.

(** C7 (as stated) fails: the validator looks for the space character only;
    a listen path with a tab in it contains whitespace and is accepted. *)
Lemma validator_whitespace_counterexample :
  ~ (forall (env : Collaborators) (spec : APISpec),
        isHTTPProtocol (Protocol spec) = true ->
        (fst (skipSpecBecauseInvalid env spec) = true <->
         ListenPath (Proxy spec) = ""
         \/ containsWhitespace (ListenPath (Proxy spec)) = true
         \/ url_Parse env (resolvedTargetURL env spec) = None)).
Proof.
  intros H.
  pose proof (H sampleEnv (sampleSpec "a" "" ("/a" ++ String "009" "b") false 0 0) eq_refl)
    as [_ Hback].
  assert (Hfalse : fst (skipSpecBecauseInvalid sampleEnv
                          (sampleSpec "a" "" ("/a" ++ String "009" "b") false 0 0))
                   = false) by reflexivity.
  rewrite Hback in Hfalse; [discriminate|].
  right. left. reflexivity.
Qed.

(** ** The descriptor sort *)

Lemma fold_left_literalLength (segments : list string) (init : Z) :
  fold_left
    (fun length segment =>
       if isParamSegment segment then length else length + len segment)
    segments init
  = init + literalLength segments.
Proof.
  unfold literalLength. revert init.
  induction segments as [|seg segments IH]; intros init; simpl; [lia|].
  rewrite IH. destruct (isParamSegment seg); simpl; lia.
Qed.

Lemma listenPathLength_spec (p : string) :
  (Contains p "{" = true ->
   listenPathLength p = Count p "/" + literalLength (Split p "/"))
  /\ (Contains p "{" = false -> listenPathLength p = len p).
Proof.
  unfold listenPathLength. split; intros ->; simpl; [|reflexivity].
  apply fold_left_literalLength.
Qed.

(** The comparison of the sort is a strict weak order. *)
Lemma specLess_strict_weak : StrictWeakOrder specLess.
Proof.
  unfold StrictWeakOrder, specLess. split; [|split].
  - intros a. destruct (String.eqb (Domain a) ""); simpl; apply Z.ltb_irrefl.
  - intros a b c.
    destruct (String.eqb (Domain a) ""), (String.eqb (Domain b) ""),
      (String.eqb (Domain c) ""); simpl; try discriminate; try reflexivity.
    all: rewrite !Z.ltb_lt; lia.
  - intros a b c.
    destruct (String.eqb (Domain a) ""), (String.eqb (Domain b) ""),
      (String.eqb (Domain c) ""); simpl; try discriminate; auto.
    all: rewrite !Z.ltb_lt; lia.
Qed.

(** What being sorted by [specLess] means for two descriptors. *)
Lemma specLess_false (a b : APISpec) :
  specLess b a = false ->
  (Domain a = "" -> Domain b = "")
  /\ ((Domain a = "" <-> Domain b = "") ->
      listenPathLength (ListenPath (Proxy b))
      <= listenPathLength (ListenPath (Proxy a))).
Proof.
  unfold specLess.
  destruct (String.eqb_spec (Domain a) ""), (String.eqb_spec (Domain b) "");
    simpl; try discriminate; rewrite ?Z.ltb_ge; tauto.
Qed.

Section SortFacts.

Variable less : APISpec -> APISpec -> bool.
Hypothesis less_swo : StrictWeakOrder less.

Lemma less_asym (a b : APISpec) : less a b = true -> less b a = false.
Proof.
  destruct less_swo as (Hirr & Htrans & _). intros H.
  destruct (less b a) eqn:E; [|reflexivity].
  pose proof (Htrans _ _ _ H E) as Haa. now rewrite Hirr in Haa.
Qed.

Lemma StronglySorted_SortedBy (l : list APISpec) :
  StronglySorted (notAfter less) l -> SortedBy less l.
Proof.
  induction 1 as [|x l Hs IH Hall]; intros i j a b Hij Hi Hj.
  - discriminate.
  - destruct j as [|j]; [lia|]. simpl in Hj. destruct i as [|i]; simpl in Hi.
    + injection Hi as <-. rewrite Forall_forall in Hall.
      apply Hall, list_elem_of_lookup. now exists j.
    + apply (IH i j); [lia | assumption | assumption].
Qed.

Lemma insertBefore_perm (x : APISpec) (l : list APISpec) :
  Permutation (x :: l) (insertBefore less x l).
Proof.
  induction l as [|y l IH]; simpl; [reflexivity|].
  destruct (less y x); [|reflexivity].
  rewrite perm_swap. now apply perm_skip.
Qed.

Lemma insertBefore_sorted (x : APISpec) (l : list APISpec) :
  StronglySorted (notAfter less) l -> StronglySorted (notAfter less) (insertBefore less x l).
Proof.
  destruct less_swo as (_ & _ & Hneg).
  induction 1 as [|y l Hs IH Hall]; simpl.
  - constructor; constructor.
  - destruct (less y x) eqn:E.
    + constructor; [exact IH|].
      eapply Permutation_Forall; [apply insertBefore_perm|].
      constructor; [now apply less_asym | exact Hall].
    + constructor; [now constructor|].
      constructor; [exact E|].
      rewrite Forall_forall in Hall |- *. intros z Hz. specialize (Hall z Hz).
      unfold notAfter in *. destruct (less z x) eqn:Ez; [|reflexivity].
      destruct (Hneg _ _ y Ez); congruence.
Qed.

Lemma insertionSort_meets (l : list APISpec) :
  Permutation l (insertionSort less l) /\ SortedBy less (insertionSort less l).
Proof.
  split.
  - induction l as [|x l IH]; simpl; [reflexivity|].
    etransitivity; [apply perm_skip, IH | apply insertBefore_perm].
  - apply StronglySorted_SortedBy.
    induction l as [|x l IH]; simpl; [constructor | now apply insertBefore_sorted].
Qed.

End SortFacts.

Lemma insertionSort_contract : SliceContract insertionSort.
Proof. intros less l H. now apply insertionSort_meets. Qed.

(** C4 (as amended): for every input list, and every [sort.Slice] that
    keeps what its documentation promises, [sortSpecsByListenPath] yields
    an order, a rearrangement of the list, in which every descriptor with a
    non-empty domain precedes every descriptor with an empty domain, and
    within each of the two groups descriptors are ordered by non-increasing
    effective listen-path length, where the effective length of a parametric
    path is the count of ['/'] plus the sum of the literal segment lengths
    with ['{...}'] segments excluded (and that of any other path is its
    length).  Stability is not part of it. *)
Theorem sortSpecsByListenPath_order :
  forall sort_Slice : (APISpec -> APISpec -> bool) -> list APISpec -> list APISpec,
    SliceContract sort_Slice ->
    forall specs : list APISpec,
      let sorted := sortSpecsByListenPath sort_Slice specs in
      Permutation specs sorted
      /\ (forall i j a b,
            (i < j)%nat -> sorted !! i = Some a -> sorted !! j = Some b ->
            (Domain a = "" -> Domain b = "")
            /\ ((Domain a = "" <-> Domain b = "") ->
                listenPathLength (ListenPath (Proxy b))
                <= listenPathLength (ListenPath (Proxy a))))
      /\ (forall p, Contains p "{" = true ->
                    listenPathLength p = Count p "/" + literalLength (Split p "/"))
      /\ (forall p, Contains p "{" = false -> listenPathLength p = len p).
Proof.
  intros sort_Slice Hc specs sorted.
  destruct (Hc specLess specs specLess_strict_weak) as [Hperm Hsorted].
  split; [exact Hperm|]. split; [|split].
  - intros i j a b Hij Hi Hj. apply specLess_false.
    exact (Hsorted i j a b Hij Hi Hj).
  - intros p. apply listenPathLength_spec.
  - intros p. apply listenPathLength_spec.
Qed.

(** The theorem at the insertion sort and the three descriptors. *)
Lemma sortSpecsByListenPath_order_witness :
  SliceContract insertionSort
  /\ Permutation sortSample (sortSpecsByListenPath insertionSort sortSample)
  /\ APIID <$> sortSpecsByListenPath insertionSort sortSample = ["c"; "b"; "a"].
Proof.
  split; [exact insertionSort_contract|].
  destruct (sortSpecsByListenPath_order insertionSort insertionSort_contract sortSample)
    as [Hperm _].
  split; [exact Hperm | reflexivity].
Defined.

(** The thirteen descriptors of [stabilitySample] as [sort.Slice] leaves
    them, whatever the generator: the run does not end early; the pivot, the
    seventh descriptor, is swapped to the front, and the first descriptor
    thereby behind five descriptors of its own rank. *)
Example sort_Slice_thirteen :
  forall xorshift_Next : Z -> Z,
    sort.pdqsort_func xorshift_Next specLess 0 13 (sort.bits_Len 13)
      stabilitySample
    = Some (tt, sort.Slice xorshift_Next specLess stabilitySample)
    /\ APIID <$> sort.Slice xorshift_Next specLess stabilitySample
       = ["m"; "g"; "c"; "d"; "e"; "f"; "a"; "h"; "i"; "j"; "k"; "l"; "b"].
Proof. intros next. split; vm_compute; reflexivity. Qed.

(** The steps of that run: the pivot chosen is the seventh descriptor, the
    slice counts as increasing so far, the partial insertion sort gives up
    at the last descriptor, and the partition, which starts by swapping the
    pivot to the front, leaves the slice as it will stay: the two parts,
    of one and of eleven descriptors, are sorted by insertion afterwards,
    which moves nothing. *)
Example sort_Slice_thirteen_steps :
  sort.choosePivot_func specLess 0 13 stabilitySample
  = Some ((6, sort.increasingHint), stabilitySample)
  /\ sort.partialInsertionSort_func specLess 0 13 stabilitySample
     = Some (false, stabilitySample)
  /\ match sort.partition_func specLess 0 13 6 stabilitySample with
     | Some (mid, alreadyPartitioned, data) =>
         Some (mid, alreadyPartitioned, APIID <$> data)
     | None => None
     end
     = Some (1, false,
             ["m"; "g"; "c"; "d"; "e"; "f"; "a"; "h"; "i"; "j"; "k"; "l"; "b"]).
Proof. repeat split; vm_compute; reflexivity. Qed.

(** C4 (as stated) fails: with [sort.Slice] as Go implements it, whatever
    its generator, [sortSpecsByListenPath] is not stable: of thirteen
    descriptors, twelve of which compare equal, the first comes out behind
    five of its equals. *)
Lemma sort_stability_counterexample :
  ~ exists xorshift_Next : Z -> Z,
      forall specs : list APISpec,
        Stable specLess specs
          (sortSpecsByListenPath (sort.Slice xorshift_Next) specs).
Proof.
  intros [next H].
  specialize (H stabilitySample (sampleSpec "a" "" "/a" true 0 0)).
  vm_compute in H. discriminate H.
Qed.

Example listenPathLength_examples :
  listenPathLength "/foo-bar" = 8
  /\ listenPathLength "/users/{id}/x" = 3 + (5 + 1)
  /\ listenPathLength "/users/{}/x" = 3 + (5 + 2 + 1).
Proof. repeat split. Qed.

(** ** The listen path [processSpec] leaves *)

(** For a descriptor the validator accepts, the listen path of the
    descriptor [processSpec] returns is the one the loop settles on; for one
    it refuses, the listen path is untouched. *)
Lemma processSpec_listenPath (env : Collaborators) (gw : Gateway) (spec : APISpec)
    (m : gmap string Z) (q : string) :
  exists (spec0 spec' : APISpec) (chainObj : ChainObject),
    processSpec env gw spec m q = Some (spec', chainObj)
    /\ ListenPath (Proxy spec0) = ListenPath (Proxy spec)
    /\ APIID spec0 = APIID spec
    /\ (fst (skipSpecBecauseInvalid env spec) = true ->
        ListenPath (Proxy spec') = ListenPath (Proxy spec))
    /\ (fst (skipSpecBecauseInvalid env spec) = false ->
        exists spec1 modified,
          (forall fuel, (loopFuel m spec0 <= fuel)%nat ->
                        listenPathLoop env gw m fuel spec0 false = Some (spec1, modified))
          /\ ListenPath (Proxy spec') = ListenPath (Proxy spec1)).
Proof.
  destruct (processSpec_unfold env gw spec m) as (spec0 & _ & F2 & _ & _ & F5 & Hp).
  destruct (listenPathLoop_outcome env gw m spec0) as (spec1 & md & Hrun & _).
  rewrite Hp. destruct (fst (skipSpecBecauseInvalid env spec)).
  - exists spec0, spec0. eexists. split; [reflexivity|].
    repeat split; auto; discriminate.
  - rewrite (Hrun _ (Nat.le_refl _)). exists spec0. eexists. eexists.
    split; [reflexivity|]. repeat split; auto; [discriminate|].
    intros _. exists spec1, md. split; [exact Hrun | reflexivity].
Qed.

(** * Further properties of the loader *)

(** ** The collision map *)

Lemma mapCount_insert_eq (m : gmap string Z) (key : string) (v : Z) :
  mapCount (<[key := v]> m) key = v.
Proof. unfold mapCount. now rewrite lookup_insert_eq. Qed.

Lemma mapCount_insert_ne (m : gmap string Z) (key key' : string) (v : Z) :
  key <> key' -> mapCount (<[key := v]> m) key' = mapCount m key'.
Proof. intros H. unfold mapCount. now rewrite lookup_insert_ne. Qed.

Lemma countApis_fold_lookup (env : Collaborators) (specs : list APISpec) :
  forall (m : gmap string Z) (key : string),
    fold_left
      (fun count spec =>
         let domain := GetAPIDomain env spec in
         let domainHash := generateDomainPath domain (ListenPath (Proxy spec)) in
         <[domainHash := mapCount count domainHash + 1]> count)
      specs m !! key
    = if (keyCount env key specs =? 0)%nat then m !! key
      else Some (mapCount m key + Z.of_nat (keyCount env key specs)).
Proof.
  induction specs as [|spec specs IH]; intros m key; [reflexivity|].
  cbn [fold_left keyCount]. rewrite IH. fold (collisionKey env spec).
  destruct (String.eqb_spec (collisionKey env spec) key) as [->|Hne].
  - rewrite mapCount_insert_eq, lookup_insert_eq.
    destruct (keyCount env key specs) as [|n]; simpl Nat.eqb; cbv iota;
      f_equal; lia.
  - rewrite mapCount_insert_ne, lookup_insert_ne by assumption.
    rewrite Nat.add_0_l. reflexivity.
Qed.

Lemma countApis_lookup (env : Collaborators) (specs : list APISpec) (key : string) :
  countApisByListenHash env specs !! key
  = if (keyCount env key specs =? 0)%nat then None
    else Some (Z.of_nat (keyCount env key specs)).
Proof.
  unfold countApisByListenHash. rewrite countApis_fold_lookup.
  destruct (keyCount env key specs =? 0)%nat; [apply lookup_empty|].
  unfold mapCount. rewrite lookup_empty. reflexivity.
Qed.

Lemma countApis_mapCount (env : Collaborators) (specs : list APISpec) (key : string) :
  mapCount (countApisByListenHash env specs) key
  = Z.of_nat (keyCount env key specs).
Proof.
  unfold mapCount. rewrite countApis_lookup.
  destruct (Nat.eqb_spec (keyCount env key specs) 0) as [->|_]; reflexivity.
Qed.

(** X1: the map [countApisByListenHash] builds counts, for every key, the
    descriptors of the list that have this key; a key that no descriptor has
    is absent from the map, and no key is mapped to zero. *)
Theorem countApisByListenHash_counts :
  forall (env : Collaborators) (specs : list APISpec) (key : string),
    mapCount (countApisByListenHash env specs) key
    = Z.of_nat (keyCount env key specs)
    /\ (countApisByListenHash env specs !! key = None
        <-> keyCount env key specs = O)
    /\ (forall n, countApisByListenHash env specs !! key = Some n -> 1 <= n).
Proof.
  intros env specs key. split; [apply countApis_mapCount|].
  rewrite countApis_lookup.
  destruct (Nat.eqb_spec (keyCount env key specs) 0) as [E|E].
  - split; [tauto | discriminate].
  - split; [split; [discriminate | contradiction]|].
    intros n [= <-]. lia.
Qed.

Lemma keyCount_perm (env : Collaborators) (key : string) (l l' : list APISpec) :
  Permutation l l' -> keyCount env key l = keyCount env key l'.
Proof. induction 1; simpl; lia. Qed.

(** X2: the collision map does not depend on the order of the descriptors:
    counting after [sortSpecsByListenPath], as [loadApps] does, gives the
    map of the unsorted list. *)
Theorem countApisByListenHash_sorted :
  forall (env : Collaborators)
         (sort_Slice : (APISpec -> APISpec -> bool) -> list APISpec -> list APISpec),
    SliceContract sort_Slice ->
    forall specs : list APISpec,
      countApisByListenHash env (sortSpecsByListenPath sort_Slice specs)
      = countApisByListenHash env specs.
Proof.
  intros env sort_Slice Hc specs.
  destruct (Hc specLess specs specLess_strict_weak) as [Hperm _].
  apply map_eq. intros key. rewrite !countApis_lookup.
  unfold sortSpecsByListenPath.
  now rewrite <- (keyCount_perm env key _ _ Hperm).
Qed.

Lemma countApisByListenHash_sorted_witness :
  countApisByListenHash sampleEnv (sortSpecsByListenPath insertionSort sortSample)
  = countApisByListenHash sampleEnv sortSample.
Proof.
  exact (countApisByListenHash_sorted sampleEnv insertionSort
           insertionSort_contract sortSample).
Defined.

Lemma keyCount_member (env : Collaborators) (spec : APISpec) (specs : list APISpec) :
  In spec specs -> (1 <= keyCount env (collisionKey env spec) specs)%nat.
Proof.
  induction specs as [|s specs IH]; simpl; [tauto|].
  intros [->|H].
  - rewrite String.eqb_refl. lia.
  - specialize (IH H). lia.
Qed.

(** X3: arbitration against the map built from the descriptor set, when no
    descriptor of this api_id was loaded before.  A descriptor of the set
    keeps its listen path exactly when no other descriptor of the set has
    its collision key; when the key is shared the path is always extended
    by "-<api_id>" and underscores, so none of the descriptors that share a
    key keeps the original path, and the key it ends with is one that at
    most one descriptor of the set had. *)
Theorem first_load_arbitration :
  forall (env : Collaborators) (gw : Gateway) (specs : list APISpec) (spec : APISpec),
    In spec specs ->
    getApiSpec gw (APIID spec) = None ->
    let m := countApisByListenHash env specs in
    let shared := keyCount env (collisionKey env spec) specs in
    exists (spec' : APISpec) (modified : bool),
      (forall fuel, (loopFuel m spec <= fuel)%nat ->
                    listenPathLoop env gw m fuel spec false = Some (spec', modified))
      /\ (shared = 1%nat -> spec' = spec /\ modified = false)
      /\ ((2 <= shared)%nat ->
          modified = true
          /\ ListenPath (Proxy spec') <> ListenPath (Proxy spec)
          /\ (exists n, ListenPath (Proxy spec')
                        = ListenPath (Proxy spec) ++ "-" ++ APIID spec ++ underscores n)
          /\ (keyCount env (collisionKey env spec') specs <= 1)%nat)
      /\ (shared = 1%nat \/ (2 <= shared)%nat).
Proof.
  intros env gw specs spec Hin Hprev m shared.
  pose proof (keyCount_member env spec specs Hin) as Hone. fold shared in Hone.
  assert (Hnot : ~ heldBefore gw spec).
  { intros (prev & H & _). congruence. }
  assert (Hcount : mapCount m (collisionKey env spec) = Z.of_nat shared).
  { apply countApis_mapCount. }
  destruct (listenPathLoop_outcome env gw m spec)
    as (spec' & modified & Hrun & Hcase).
  exists spec', modified. split; [exact Hrun|].
  destruct Hcase as [([Hlt|[_ Hheld]] & -> & ->)|(Hge & _ & -> & n & -> & Hfree & _)].
  - repeat split; auto; try lia.
  - contradiction.
  - split; [lia|]. split; [|lia].
    intros _. split; [reflexivity|]. split; [|split].
    + simpl. intros E.
      apply (f_equal String.length) in E. rewrite !length_app in E. simpl in E. lia.
    + exists n. reflexivity.
    + unfold collisionKeyAt in Hfree. subst m.
      rewrite countApis_mapCount in Hfree. lia.
Qed.

Lemma first_load_arbitration_witness :
  exists spec' : APISpec,
    listenPathLoop sampleEnv sampleGateway
      (countApisByListenHash sampleEnv
         [sampleSpec "a" "" "/x" true 0 0; sampleSpec "b" "" "/x" true 0 0])
      5 (sampleSpec "a" "" "/x" true 0 0) false
    = Some (spec', true)
    /\ ListenPath (Proxy spec') <> "/x".
Proof.
  destruct (first_load_arbitration sampleEnv sampleGateway
              [sampleSpec "a" "" "/x" true 0 0; sampleSpec "b" "" "/x" true 0 0]
              (sampleSpec "a" "" "/x" true 0 0))
    as (spec' & modified & Hrun & _ & Hshared & _).
  - left. reflexivity.
  - reflexivity.
  - exists spec'. destruct Hshared as (-> & Hne & _); [vm_compute; lia|].
    split; [|exact Hne].
    apply Hrun. vm_compute. lia.
Defined.

(** ** What [processSpec] changes and what it keeps *)

Lemma sameIdentity_refl (a : APISpec) : sameIdentity a a.
Proof. unfold sameIdentity. repeat split. Qed.

Lemma sameIdentity_trans (a b c : APISpec) :
  sameIdentity a b -> sameIdentity b c -> sameIdentity a c.
Proof. unfold sameIdentity. intuition congruence. Qed.

Lemma skipSpec_accepts (env : Collaborators) (spec : APISpec) :
  fst (skipSpecBecauseInvalid env spec) = false ->
  TargetURL (Proxy (snd (skipSpecBecauseInvalid env spec)))
  = resolvedTargetURL env spec
  /\ exists u, url_Parse env (resolvedTargetURL env spec) = Some u.
Proof.
  unfold skipSpecBecauseInvalid, resolvedTargetURL.
  destruct (isHTTPProtocol (Protocol spec) && _); [discriminate|].
  destruct (isHTTPProtocol (Protocol spec) && _); [discriminate|].
  destruct (kvStore env _); simpl; destruct (url_Parse env _) eqn:E; simpl;
    try discriminate; intros _; split; try reflexivity; eauto.
Qed.

(** [processSpec], with the descriptor that enters the listen-path loop made
    explicit. *)
Lemma processSpec_shape (env : Collaborators) (gw : Gateway) (spec : APISpec)
    (m : gmap string Z) :
  exists spec0 : APISpec,
    sameIdentity spec0 spec
    /\ Transport (Proxy spec0) = normaliseTLS (Transport (Proxy spec))
    /\ ListenPath (Proxy spec0) = ListenPath (Proxy spec)
    /\ TargetURL (Proxy spec0)
       = TargetURL (Proxy (snd (skipSpecBecauseInvalid env spec)))
    /\ TagHeaders spec0 = map (ToLower env) (TagHeaders spec)
    /\ target spec0 = target spec
    /\ forall q : string,
       processSpec env gw spec m q =
       if fst (skipSpecBecauseInvalid env spec)
       then Some (spec0, mkChainObject None None false true)
       else
         match listenPathLoop env gw m (loopFuel m spec0) spec0 false with
         | None => None
         | Some (spec1, _) =>
             let spec2 := setTarget spec1 (url_Parse env (TargetURL (Proxy spec1))) in
             let cm := fixBundlePaths env spec1 (loadCustomMiddleware env spec1) in
             let authArray :=
               if negb (UseKeylessAccess spec2) then buildAuthArray env spec2 cm
               else [] in
             let proxy :=
               if existsb (fun o => negb (String.eqb o "") && negb (NotVersioned spec1))
                    (VersionOverrideTargets spec1)
               then MultiTargetProxy else SingleHostReverseProxy in
             let chain :=
               Chain (buildChainArray env spec2 cm authArray q)
                     (DummyProxy spec2 proxy) in
             Some (spec2,
                   mkChainObject
                     (Some (if TraceEnabled (config gw)
                            then TraceHandle (Name spec2) chain
                            else if OpenTelemetryEnabled (config gw)
                            then OtelHTTPHandler (Name spec2) chain
                            else chain))
                     (if UseKeylessAccess spec then None
                      else Some (Chain (buildSimpleArray env spec2 authArray)
                                   userRatesCheck))
                     (UseKeylessAccess spec) (Internal spec))
         end.
Proof.
  set (t := normaliseTLS (Transport (Proxy spec))).
  set (s := snd (skipSpecBecauseInvalid env spec)).
  set (hs := map (ToLower env) (TagHeaders spec)).
  set (spec0 := if (0 <? length (TagHeaders spec))%nat
                then setTagHeaders (setTransport s t) hs
                else setTransport s t).
  assert (Hs : sameIdentity s spec /\ ListenPath (Proxy s) = ListenPath (Proxy spec)
               /\ TagHeaders s = TagHeaders spec /\ target s = target spec).
  { subst s. destruct (skipSpec_descriptor env spec) as [-> | ->]; simpl;
      (split; [apply sameIdentity_refl || (unfold sameIdentity; repeat split)|]);
      auto. }
  destruct Hs as (Hid & Hpath & Htags & Htarget).
  exists spec0.
  assert (Hid0 : sameIdentity spec0 s /\ Transport (Proxy spec0) = t
                 /\ ListenPath (Proxy spec0) = ListenPath (Proxy s)
                 /\ TargetURL (Proxy spec0) = TargetURL (Proxy s)
                 /\ target spec0 = target s).
  { subst spec0. destruct (0 <? _)%nat; simpl;
      (split; [unfold sameIdentity; repeat split|]); auto. }
  destruct Hid0 as (Hid0 & Ht & Hp0 & Hu0 & Htg0).
  split; [eapply sameIdentity_trans; eassumption|].
  split; [exact Ht|]. split; [congruence|]. split; [exact Hu0|].
  split.
  { subst spec0 hs. destruct (TagHeaders spec) as [|h tl] eqn:E; simpl.
    - exact Htags.
    - reflexivity. }
  split; [congruence|].
  intros q. unfold processSpec. fold t.
  change (TagHeaders (setTransport spec t)) with (TagHeaders spec). fold hs.
  assert (Hskip :
            skipSpecBecauseInvalid env
              (if (0 <? length (TagHeaders spec))%nat
               then setTagHeaders (setTransport spec t) hs
               else setTransport spec t)
            = (fst (skipSpecBecauseInvalid env spec), spec0)).
  { subst spec0 s. destruct (0 <? _)%nat.
    - now rewrite skipSpec_setTagHeaders, skipSpec_setTransport.
    - now rewrite skipSpec_setTransport. }
  rewrite Hskip.
  destruct (fst (skipSpecBecauseInvalid env spec)); [reflexivity|].
  destruct (listenPathLoop env gw m (loopFuel m spec0) spec0 false)
    as [[spec1 md]|] eqn:Hrun; [|reflexivity].
  assert (G : UseKeylessAccess spec1 = UseKeylessAccess spec
              /\ Internal spec0 = Internal spec).
  { assert (Hk0 : UseKeylessAccess spec0 = UseKeylessAccess spec
                  /\ Internal spec0 = Internal spec).
    { pose proof (sameIdentity_trans _ _ _ Hid0 Hid) as H.
      unfold sameIdentity in H. tauto. }
    destruct Hk0 as [Hk0 Hi0]. split; [|exact Hi0].
    destruct (listenPathLoop_outcome env gw m spec0) as (s1 & md1 & Hr & Hc).
    rewrite (Hr _ (Nat.le_refl _)) in Hrun. injection Hrun as <- <-.
    destruct Hc as [(_ & -> & _)|(_ & _ & _ & n & -> & _)]; simpl; assumption. }
  destruct G as [G1 G2]. simpl. rewrite G1, G2.
  destruct (Internal spec), (UseKeylessAccess spec); reflexivity.
Qed.

(** The descriptor the loop returns differs from the one it was given in the
    listen path only. *)
Lemma listenPathLoop_descriptor (env : Collaborators) (gw : Gateway)
    (m : gmap string Z) (spec0 spec1 : APISpec) (md : bool) :
  listenPathLoop env gw m (loopFuel m spec0) spec0 false = Some (spec1, md) ->
  spec1 = setListenPath spec0 (ListenPath (Proxy spec1))
  /\ exists suffix,
       ListenPath (Proxy spec1) = ListenPath (Proxy spec0) ++ suffix
       /\ (suffix = "" \/ exists n, suffix = "-" ++ APIID spec0 ++ underscores n).
Proof.
  intros Hrun.
  destruct (listenPathLoop_outcome env gw m spec0) as (s1 & md1 & Hr & Hc).
  rewrite (Hr _ (Nat.le_refl _)) in Hrun. injection Hrun as <- <-.
  destruct Hc as [(_ & -> & _)|(_ & _ & _ & n & -> & _)].
  - split; [symmetry; apply setListenPath_same|].
    exists "". rewrite app_nil_r. auto.
  - split; [reflexivity|]. simpl.
    exists ("-" ++ APIID spec0 ++ underscores n). split; [reflexivity|].
    right. now exists n.
Qed.

Lemma processSpec_keeps_identity_aux (env : Collaborators) (gw : Gateway)
    (spec : APISpec) (m : gmap string Z) (q : string) (spec' : APISpec)
    (chainObj : ChainObject) :
  processSpec env gw spec m q = Some (spec', chainObj) -> APIID spec' = APIID spec.
Proof.
  destruct (processSpec_shape env gw spec m)
    as (spec0 & Hid & _ & _ & _ & _ & _ & Hq).
  assert (Hapi : APIID spec0 = APIID spec) by (unfold sameIdentity in Hid; tauto).
  rewrite Hq. destruct (fst (skipSpecBecauseInvalid env spec)).
  - now intros [= <- _].
  - destruct (listenPathLoop env gw m (loopFuel m spec0) spec0 false)
      as [[spec1 md]|] eqn:Hrun; [|discriminate].
    cbv zeta. intros [= <- _].
    destruct (listenPathLoop_descriptor _ _ _ _ _ _ Hrun) as (-> & _).
    exact Hapi.
Qed.

(** X4: [processSpec] only ever extends the listen path: the path of the
    descriptor it returns is the given path followed by nothing, or by
    "-<api_id>" and a number of underscores. *)
Theorem processSpec_listenPath_extends :
  forall (env : Collaborators) (gw : Gateway) (spec : APISpec)
         (m : gmap string Z) (q : string) (spec' : APISpec) (chainObj : ChainObject),
    processSpec env gw spec m q = Some (spec', chainObj) ->
    exists suffix : string,
      ListenPath (Proxy spec') = ListenPath (Proxy spec) ++ suffix
      /\ (suffix = "" \/ exists n, suffix = "-" ++ APIID spec ++ underscores n).
Proof.
  intros env gw spec m q spec' chainObj.
  destruct (processSpec_shape env gw spec m)
    as (spec0 & Hid & _ & Hp & _ & _ & _ & Hq).
  assert (Hapi : APIID spec0 = APIID spec) by (unfold sameIdentity in Hid; tauto).
  rewrite Hq. destruct (fst (skipSpecBecauseInvalid env spec)).
  - intros [= <- _]. exists "". rewrite app_nil_r. auto.
  - destruct (listenPathLoop env gw m (loopFuel m spec0) spec0 false)
      as [[spec1 md]|] eqn:Hrun; [|discriminate].
    cbv zeta. intros [= <- _]. simpl.
    destruct (listenPathLoop_descriptor _ _ _ _ _ _ Hrun) as (_ & suffix & E & Hs).
    exists suffix. rewrite E, Hp, <- Hapi. auto.
Qed.

Lemma processSpec_listenPath_extends_witness :
  exists (spec' : APISpec) (chainObj : ChainObject) (suffix : string),
    processSpec sampleEnv sampleGateway (sampleSpec "b" "" "/x" true 0 0)
      (<["/x" := 2]> ∅) "" = Some (spec', chainObj)
    /\ ListenPath (Proxy spec') = "/x" ++ suffix.
Proof.
  destruct (processSpec sampleEnv sampleGateway (sampleSpec "b" "" "/x" true 0 0)
              (<["/x" := 2]> ∅) "") as [[spec' chainObj]|] eqn:E;
    [|vm_compute in E; discriminate].
  destruct (processSpec_listenPath_extends _ _ _ _ _ _ _ E) as (suffix & H & _).
  exists spec', chainObj, suffix. split; [reflexivity | exact H].
Defined.

(** X5: [processSpec] leaves the identity of the descriptor alone: the api
    id, the names, the domain, the protocol, the authentication flags, the
    custom middleware settings and the version data of the descriptor it
    returns are those it was given; the tag headers are the given ones, each
    passed through [strings.ToLower], in the same order; the target URL is
    the given one or the one the key-value store resolves it to. *)
Theorem processSpec_keeps_identity :
  forall (env : Collaborators) (gw : Gateway) (spec : APISpec)
         (m : gmap string Z) (q : string) (spec' : APISpec) (chainObj : ChainObject),
    processSpec env gw spec m q = Some (spec', chainObj) ->
    sameIdentity spec' spec
    /\ TagHeaders spec' = map (ToLower env) (TagHeaders spec)
    /\ (TargetURL (Proxy spec') = TargetURL (Proxy spec)
        \/ TargetURL (Proxy spec') = resolvedTargetURL env spec).
Proof.
  intros env gw spec m q spec' chainObj.
  destruct (processSpec_shape env gw spec m)
    as (spec0 & Hid & _ & _ & Hu & Htags & _ & Hq).
  assert (Hurl : TargetURL (Proxy spec0) = TargetURL (Proxy spec)
                 \/ TargetURL (Proxy spec0) = resolvedTargetURL env spec).
  { rewrite Hu. destruct (skipSpec_descriptor env spec) as [-> | ->]; auto. }
  rewrite Hq. destruct (fst (skipSpecBecauseInvalid env spec)).
  - intros [= <- _]. auto.
  - destruct (listenPathLoop env gw m (loopFuel m spec0) spec0 false)
      as [[spec1 md]|] eqn:Hrun; [|discriminate].
    cbv zeta. intros [= <- _].
    destruct (listenPathLoop_descriptor _ _ _ _ _ _ Hrun) as (-> & _).
    simpl. split; [|split; assumption].
    eapply sameIdentity_trans; [|exact Hid].
    unfold sameIdentity. simpl. repeat split.
Qed.

Lemma processSpec_keeps_identity_witness :
  exists (spec' : APISpec) (chainObj : ChainObject),
    processSpec sampleEnv sampleGateway (sampleSpec "b" "example.com" "/x" true 0 0)
      (<["example.com/x" := 2]> ∅) "" = Some (spec', chainObj)
    /\ APIID spec' = "b" /\ Domain spec' = "example.com".
Proof.
  destruct (processSpec sampleEnv sampleGateway
              (sampleSpec "b" "example.com" "/x" true 0 0)
              (<["example.com/x" := 2]> ∅) "") as [[spec' chainObj]|] eqn:E;
    [|vm_compute in E; discriminate].
  destruct (processSpec_keeps_identity _ _ _ _ _ _ _ E) as (Hid & _).
  exists spec', chainObj. split; [reflexivity|].
  unfold sameIdentity in Hid. destruct Hid as (H1 & _ & _ & _ & H5 & _).
  split; [exact H1 | exact H5].
Defined.

(** ** Skipped descriptors *)

(** X6: for every quota key, the chain object of a descriptor is skipped
    exactly when the validator refuses the descriptor or the descriptor is
    internal, and it lacks a handler exactly when the validator refuses the
    descriptor: an internal descriptor gets its chain built, for the loop
    dispatcher to find.  Where [loadHTTPService] runs [processSpec] on an
    internal descriptor, that is when the listen path passes [ValidatePath]
    and the descriptor is to be reloaded, it adds no route for it. *)
Theorem processSpec_skip_and_internal :
  forall (env : Collaborators) (gw : Gateway) (spec : APISpec)
         (m : gmap string Z) (q : string) (spec' : APISpec)
         (chainObj : ChainObject),
    processSpec env gw spec m q = Some (spec', chainObj) ->
    (Skip chainObj = true <->
     fst (skipSpecBecauseInvalid env spec) = true \/ Internal spec = true)
    /\ (ThisHandler chainObj = None <->
        fst (skipSpecBecauseInvalid env spec) = true)
    /\ (Internal spec = true ->
        ValidatePath env (ListenPath (Proxy spec)) = None ->
        shouldReloadSpec env (getApiSpec gw (APIID spec)) spec = true ->
        exists chainObj0,
          processSpec env gw spec m "" = Some (spec', chainObj0)
          /\ Skip chainObj0 = true
          /\ (fst (skipSpecBecauseInvalid env spec) = false ->
              ThisHandler chainObj0 <> None)
          /\ loadHTTPService env gw spec m = Loaded spec' chainObj0 []).
Proof.
  intros env gw spec m q spec' chainObj Hrun.
  assert (Hload : forall c,
             processSpec env gw spec m "" = Some (spec', c) ->
             Skip c = true ->
             ValidatePath env (ListenPath (Proxy spec)) = None ->
             shouldReloadSpec env (getApiSpec gw (APIID spec)) spec = true ->
             loadHTTPService env gw spec m = Loaded spec' c []).
  { intros c Hc Hs Hv Hr. unfold loadHTTPService. rewrite Hv, Hr. simpl negb.
    cbv iota. rewrite Hc. now rewrite Hs. }
  destruct (processSpec_shape env gw spec m) as (spec0 & _ & _ & _ & _ & _ & _ & Hq).
  pose proof (Hq "") as Hempty.
  rewrite Hq in Hrun. destruct (fst (skipSpecBecauseInvalid env spec)) eqn:Hv.
  - injection Hrun as <- <-. simpl. split; [tauto|]. split; [tauto|].
    intros Hint Hvalid Hreload. eexists. split; [exact Hempty|].
    split; [reflexivity|]. split; [discriminate|].
    apply Hload; [exact Hempty | reflexivity | exact Hvalid | exact Hreload].
  - destruct (listenPathLoop env gw m (loopFuel m spec0) spec0 false)
      as [[spec1 md]|]; [|discriminate].
    cbv zeta in Hrun, Hempty. injection Hrun as <- <-. simpl.
    split; [|split].
    + split; [auto | intros [H|H]; [discriminate | exact H]].
    + split; discriminate.
    + intros Hint Hvalid Hreload. eexists. split; [exact Hempty|].
      split; [exact Hint|]. split; [intros _; discriminate|].
      apply Hload; [exact Hempty | exact Hint | exact Hvalid | exact Hreload].
Qed.

Lemma processSpec_skip_and_internal_witness :
  exists (spec' : APISpec) (chainObj : ChainObject),
    processSpec sampleEnv sampleGateway
      (mkSpec "a" "" "a" "org" "" "http" true true false false false false
         (OtherDriver "") "" false true [] []
         (mkProxy "/internal" "http://upstream" (mkTransport 0 0)) None) ∅ ""
    = Some (spec', chainObj)
    /\ Skip chainObj = true
    /\ ThisHandler chainObj <> None
    /\ exists chainObj0,
         loadHTTPService sampleEnv sampleGateway
           (mkSpec "a" "" "a" "org" "" "http" true true false false false false
              (OtherDriver "") "" false true [] []
              (mkProxy "/internal" "http://upstream" (mkTransport 0 0)) None) ∅
         = Loaded spec' chainObj0 [].
Proof.
  destruct (processSpec sampleEnv sampleGateway
              (mkSpec "a" "" "a" "org" "" "http" true true false false false false
                 (OtherDriver "") "" false true [] []
                 (mkProxy "/internal" "http://upstream" (mkTransport 0 0)) None) ∅ "")
    as [[spec' chainObj]|] eqn:E; [|vm_compute in E; discriminate].
  exists spec', chainObj. split; [reflexivity|].
  destruct (processSpec_skip_and_internal _ _ _ _ _ _ _ E) as (Hs & Hh & Hl).
  split; [|split].
  - apply Hs. right. reflexivity.
  - intros H. apply Hh in H. vm_compute in H. discriminate.
  - destruct (Hl eq_refl eq_refl eq_refl) as (c0 & _ & _ & _ & Hload).
    now exists c0.
Defined.

(** ** The stages of the chains *)

Lemma fold_mwAppendEnabled (env : Collaborators) (spec : APISpec)
    (mws chain : list Middleware) :
  fold_left (mwAppendEnabled env spec) mws chain
  = (chain ++ List.filter (EnabledForSpec env spec) mws)%list.
Proof.
  revert chain. induction mws as [|mw mws IH]; intros chain; simpl.
  - now rewrite List.app_nil_r.
  - rewrite IH. unfold mwAppendEnabled.
    destruct (EnabledForSpec env spec mw); [|reflexivity].
    now rewrite <- List.app_assoc.
Qed.

Lemma extendedBy_refl (a : list Middleware) : extendedBy a a.
Proof. exists []. now rewrite List.app_nil_r. Qed.

Lemma extendedBy_trans (a b c : list Middleware) :
  extendedBy a b -> extendedBy b c -> extendedBy a c.
Proof.
  intros [e ->] [e' ->]. exists (e ++ e')%list. now rewrite List.app_assoc.
Qed.

Lemma extendedBy_fold (f : list Middleware -> MiddlewareDefinition -> list Middleware)
    (objs : list MiddlewareDefinition) :
  (forall chain obj, extendedBy chain (f chain obj)) ->
  forall chain, extendedBy chain (fold_left f objs chain).
Proof.
  intros Hf. induction objs as [|obj objs IH]; intros chain; simpl.
  - apply extendedBy_refl.
  - eapply extendedBy_trans; [apply Hf | apply IH].
Qed.

Lemma extendedBy_mwAppendEnabled (env : Collaborators) (spec : APISpec)
    (chain : list Middleware) (mw : Middleware) :
  extendedBy chain (mwAppendEnabled env spec chain mw).
Proof.
  unfold mwAppendEnabled. destruct (EnabledForSpec env spec mw).
  - now exists [mw].
  - apply extendedBy_refl.
Qed.

Lemma extendedBy_mwAppendOptional (env : Collaborators) (spec : APISpec)
    (chain : list Middleware) (mw : option Middleware) :
  extendedBy chain (mwAppendOptional env spec chain mw).
Proof.
  destruct mw; simpl; [apply extendedBy_mwAppendEnabled | apply extendedBy_refl].
Qed.

Lemma extendedBy_fold_enabled (env : Collaborators) (spec : APISpec)
    (mws chain : list Middleware) :
  extendedBy chain (fold_left (mwAppendEnabled env spec) mws chain).
Proof. rewrite fold_mwAppendEnabled. now eexists. Qed.

Lemma extendedBy_appendHook (env : Collaborators) (spec : APISpec)
    (driver : MiddlewareDriver) (hook : HookType) (isPre : bool)
    (chain : list Middleware) (obj : MiddlewareDefinition) :
  extendedBy chain (appendHook env spec driver hook isPre chain obj).
Proof.
  unfold appendHook. destruct (isGoPlugin driver);
    [apply extendedBy_mwAppendEnabled|].
  destruct (negb (isOtto driver)); [apply extendedBy_mwAppendEnabled|].
  now eexists.
Qed.

Lemma extendedBy_appendPostAuthHook (env : Collaborators) (spec : APISpec)
    (driver : MiddlewareDriver) (chain : list Middleware)
    (obj : MiddlewareDefinition) :
  extendedBy chain (appendPostAuthHook env spec driver chain obj).
Proof.
  unfold appendPostAuthHook.
  destruct (isGoPlugin driver); apply extendedBy_mwAppendEnabled.
Qed.

Lemma buildAuthArray_nonempty (env : Collaborators) (spec : APISpec)
    (cm : CustomMiddleware) :
  buildAuthArray env spec cm <> [].
Proof.
  unfold buildAuthArray.
  match goal with
  | |- (if _ || (length ?a =? 0)%nat then _ else _) <> [] => set (a2 := a)
  end.
  destruct (UseStandardAuth spec); simpl.
  - intros H. now apply app_eq_nil in H as [_ H].
  - destruct a2; simpl; discriminate.
Qed.

(** X7: the authentication sub-sequence is never empty: when the
    descriptor asks for standard authentication the token stage [AuthKey] is
    its last stage, and when none of the six authentication middlewares is
    enabled for the descriptor and no custom authentication plugin is in
    use, the sub-sequence is the token stage alone, whatever other
    middleware is enabled. *)
Theorem buildAuthArray_never_empty :
  forall (env : Collaborators) (spec : APISpec) (cm : CustomMiddleware),
    buildAuthArray env spec cm <> []
    /\ (UseStandardAuth spec = true ->
        exists front, buildAuthArray env spec cm = (front ++ [AuthKey])%list)
    /\ ((forall mw,
            In mw [Oauth2KeyExists; ExternalOAuthMiddleware;
                   BasicAuthKeyIsValid; HTTPSignatureValidationMiddleware;
                   JWTMiddleware; OpenIDMW] ->
            EnabledForSpec env spec mw = false) ->
        (CustomPluginAuthEnabled spec || UseGoPluginAuth spec
         || EnableCoProcessAuth spec) && negb (mwDisabled (mwAuthCheckFunc cm))
        = false ->
        buildAuthArray env spec cm = [AuthKey]).
Proof.
  intros env spec cm. unfold buildAuthArray.
  set (custom := (CustomPluginAuthEnabled spec || UseGoPluginAuth spec
                  || EnableCoProcessAuth spec)
                 && negb (mwDisabled (mwAuthCheckFunc cm))).
  set (a1 := fold_left (mwAppendEnabled env spec) _ []).
  set (a2 := if custom then _ else a1).
  split; [apply buildAuthArray_nonempty|split].
  - intros ->. simpl. now exists a2.
  - intros Hoff Hcustom. subst a2. rewrite Hcustom.
    assert (a1 = []) as ->.
    { subst a1. rewrite fold_mwAppendEnabled. simpl.
      rewrite !Hoff by (simpl; auto 10). reflexivity. }
    simpl. now rewrite orb_true_r.
Qed.

(** X8: for a descriptor that is not keyless and that the validator
    accepts, the main chain and the rate-limit side-chain contain one and
    the same authentication sub-sequence, which is not empty; in the
    side-chain it stands between the enabled ones of the address filters,
    the organisation monitor and the version check, and the enabled ones of
    key expiry and access rights. *)
Theorem auth_sequence_shared :
  forall (env : Collaborators) (gw : Gateway) (spec : APISpec)
         (m : gmap string Z) (q : string) (spec' : APISpec) (chainObj : ChainObject),
    processSpec env gw spec m q = Some (spec', chainObj) ->
    UseKeylessAccess spec = false ->
    fst (skipSpecBecauseInvalid env spec) = false ->
    exists (authArray pre post : list Middleware) (h : Handler),
      authArray <> []
      /\ ThisHandler chainObj = Some h
      /\ chainStages h = (pre ++ authArray ++ post)%list
      /\ RateLimitChain chainObj
         = Some (Chain
                   (List.filter (EnabledForSpec env spec')
                      [IPWhiteListMiddleware; IPBlackListMiddleware;
                       OrganizationMonitor; VersionCheck]
                    ++ authArray
                    ++ List.filter (EnabledForSpec env spec')
                         [KeyExpired; AccessRightsCheck])%list
                   userRatesCheck).
Proof.
  intros env gw spec m q spec' chainObj Hrun Hkey Hvalid.
  destruct (processSpec_shape env gw spec m) as (spec0 & Hid & _ & _ & _ & _ & _ & Hq).
  rewrite Hq, Hvalid in Hrun.
  destruct (listenPathLoop env gw m (loopFuel m spec0) spec0 false)
    as [[spec1 md]|] eqn:Hloop; [|discriminate].
  cbv zeta in Hrun. rewrite Hkey in Hrun. injection Hrun as <- <-.
  assert (Hk1 : UseKeylessAccess spec1 = false).
  { destruct (listenPathLoop_descriptor _ _ _ _ _ _ Hloop) as (-> & _).
    simpl. unfold sameIdentity in Hid. destruct Hid as (_&_&_&_&_&_&_&H&_).
    congruence. }
  set (spec2 := setTarget spec1 (url_Parse env (TargetURL (Proxy spec1)))) in *.
  assert (Hk : UseKeylessAccess spec2 = false) by exact Hk1.
  rewrite Hk1. simpl negb. cbv iota.
  set (cm := fixBundlePaths env spec1 (loadCustomMiddleware env spec1)).
  set (authArray := buildAuthArray env spec2 cm).
  assert (Hmain : exists pre post,
             buildChainArray env spec2 cm authArray q
             = (pre ++ authArray ++ post)%list).
  { unfold buildChainArray. rewrite Hk. simpl negb. cbv iota zeta.
    match goal with
    | |- exists pre post, fold_left ?f ?l ?c = _ =>
        assert (E : extendedBy
                      (fold_left (mwAppendEnabled env spec2)
                         [RateCheckMW; IPWhiteListMiddleware; IPBlackListMiddleware;
                          CertificateCheckMW; OrganizationMonitor;
                          RequestSizeLimitMiddleware; MiddlewareContextVars;
                          TrackEndpointMiddleware]
                         (fold_left (appendHook env spec2 (mwDriver cm) HookType_Pre true)
                            (mwPreFuncs cm)
                            (fold_left (mwAppendEnabled env spec2)
                               [VersionCheck; CORSMiddleware] []))
                       ++ authArray)%list
                      (fold_left f l c))
    end.
    { repeat first
        [ apply extendedBy_refl
        | eapply extendedBy_trans;
          [| first [ apply extendedBy_fold_enabled
                   | apply extendedBy_mwAppendOptional
                   | apply extendedBy_fold; intros;
                     first [ apply extendedBy_appendHook
                           | apply extendedBy_appendPostAuthHook ] ] ] ]. }
    destruct E as [e ->]. eexists. exists e. now rewrite <- List.app_assoc. }
  destruct Hmain as (pre & post & Hmain).
  exists authArray, pre, post. eexists.
  split; [apply buildAuthArray_nonempty|].
  split; [reflexivity|]. split.
  - destruct (TraceEnabled (config gw)); [exact Hmain|].
    destruct (OpenTelemetryEnabled (config gw)); exact Hmain.
  - unfold buildSimpleArray. rewrite !fold_mwAppendEnabled. simpl "++"%list.
    now rewrite <- List.app_assoc.
Qed.

Lemma auth_sequence_shared_witness :
  exists (spec' : APISpec) (chainObj : ChainObject)
         (authArray pre post : list Middleware) (h : Handler),
    processSpec sampleEnv sampleGateway (sampleSpec "a" "" "/x" false 0 0) ∅ ""
    = Some (spec', chainObj)
    /\ authArray <> []
    /\ ThisHandler chainObj = Some h
    /\ chainStages h = (pre ++ authArray ++ post)%list.
Proof.
  destruct (processSpec sampleEnv sampleGateway (sampleSpec "a" "" "/x" false 0 0) ∅ "")
    as [[spec' chainObj]|] eqn:E; [|vm_compute in E; discriminate].
  destruct (auth_sequence_shared _ _ _ _ _ _ _ E eq_refl eq_refl)
    as (authArray & pre & post & h & H1 & H2 & H3 & _).
  exists spec', chainObj, authArray, pre, post, h. auto.
Defined.

(** ** The handler of the chain object *)

(** X9: the handler [processSpec] builds for a descriptor the validator
    accepts is the chain wrapped at most once: in the tracing handler when
    distributed tracing is on, else in the OpenTelemetry handler when that
    is on, else not at all; the wrapper is named after the API. *)
Theorem processSpec_wraps_once :
  forall (env : Collaborators) (gw : Gateway) (spec : APISpec)
         (m : gmap string Z) (q : string) (spec' : APISpec) (chainObj : ChainObject),
    processSpec env gw spec m q = Some (spec', chainObj) ->
    fst (skipSpecBecauseInvalid env spec) = false ->
    exists (h : Handler) (stages : list Middleware) (sink : Sink),
      ThisHandler chainObj = Some h
      /\ (wrapperCount h <= 1)%nat
      /\ (TraceEnabled (config gw) = true ->
          h = TraceHandle (Name spec) (Chain stages sink))
      /\ (TraceEnabled (config gw) = false ->
          OpenTelemetryEnabled (config gw) = true ->
          h = OtelHTTPHandler (Name spec) (Chain stages sink))
      /\ (TraceEnabled (config gw) = false ->
          OpenTelemetryEnabled (config gw) = false ->
          h = Chain stages sink).
Proof.
  intros env gw spec m q spec' chainObj Hrun Hvalid.
  destruct (processSpec_shape env gw spec m) as (spec0 & Hid & _ & _ & _ & _ & _ & Hq).
  rewrite Hq, Hvalid in Hrun.
  destruct (listenPathLoop env gw m (loopFuel m spec0) spec0 false)
    as [[spec1 md]|] eqn:Hloop; [|discriminate].
  assert (Hname : Name spec1 = Name spec).
  { destruct (listenPathLoop_descriptor _ _ _ _ _ _ Hloop) as (-> & _).
    simpl. unfold sameIdentity in Hid. tauto. }
  cbv zeta in Hrun. injection Hrun as <- <-.
  eexists. eexists. eexists. split; [reflexivity|].
  rewrite <- Hname.
  destruct (TraceEnabled (config gw)), (OpenTelemetryEnabled (config gw)); simpl;
    repeat split; try discriminate; try lia; reflexivity.
Qed.

Lemma processSpec_wraps_once_witness :
  exists (spec' : APISpec) (chainObj : ChainObject) (h : Handler),
    processSpec sampleEnv (mkGateway ∅ ∅ (mkConfig 8080 "" false true true true))
      (sampleSpec "a" "" "/x" true 0 0) ∅ "" = Some (spec', chainObj)
    /\ ThisHandler chainObj = Some h
    /\ (wrapperCount h <= 1)%nat.
Proof.
  destruct (processSpec sampleEnv (mkGateway ∅ ∅ (mkConfig 8080 "" false true true true))
              (sampleSpec "a" "" "/x" true 0 0) ∅ "")
    as [[spec' chainObj]|] eqn:E; [|vm_compute in E; discriminate].
  destruct (processSpec_wraps_once _ _ _ _ _ _ _ E eq_refl)
    as (h & stages & sink & H1 & H2 & _).
  exists spec', chainObj, h. auto.
Defined.

(** X10: the terminal handler of the chain holds the very descriptor
    [processSpec] returns, and that descriptor carries a parsed target: the
    target URL was vetted by the validator.  The proxy behind it is the
    multi-target one exactly when versioning is on and some version declares
    an override target.  So the terminal handler, when a request is no loop,
    always finds a target to look at. *)
Theorem processSpec_terminal_handler :
  forall (env : Collaborators) (gw : Gateway) (spec : APISpec)
         (m : gmap string Z) (q : string) (spec' : APISpec) (chainObj : ChainObject),
    processSpec env gw spec m q = Some (spec', chainObj) ->
    fst (skipSpecBecauseInvalid env spec) = false ->
    exists (h : Handler) (proxy : ProxyKind) (targetURL : URL),
      ThisHandler chainObj = Some h
      /\ chainSink h = DummyProxy spec' proxy
      /\ target spec' = Some targetURL
      /\ url_Parse env (TargetURL (Proxy spec')) = Some targetURL
      /\ TargetURL (Proxy spec') = resolvedTargetURL env spec
      /\ (proxy = MultiTargetProxy <->
          NotVersioned spec = false
          /\ exists o, In o (VersionOverrideTargets spec) /\ o <> "")
      /\ (forall (gw' : Gateway) (r : Request),
             Scheme (reqURL (contextConsumed r)) <> "tyk" ->
             ServeHTTP env (mkDummyProxyHandler spec' gw') r
             = if String.eqb (Scheme targetURL) "tyk"
               then serveInternalTarget env (mkDummyProxyHandler spec' gw')
                      targetURL (contextConsumed r)
               else SuccessServeHTTP (contextConsumed r)).
Proof.
  intros env gw spec m q spec' chainObj Hrun Hvalid.
  destruct (processSpec_shape env gw spec m) as (spec0 & Hid & _ & _ & Hu & _ & _ & Hq).
  destruct (skipSpec_accepts env spec Hvalid) as (Hres & u & Hparse).
  rewrite Hq, Hvalid in Hrun.
  destruct (listenPathLoop env gw m (loopFuel m spec0) spec0 false)
    as [[spec1 md]|] eqn:Hloop; [|discriminate].
  assert (H1 : TargetURL (Proxy spec1) = resolvedTargetURL env spec
               /\ NotVersioned spec1 = NotVersioned spec
               /\ VersionOverrideTargets spec1 = VersionOverrideTargets spec).
  { destruct (listenPathLoop_descriptor _ _ _ _ _ _ Hloop) as (-> & _).
    simpl. unfold sameIdentity in Hid. intuition congruence. }
  destruct H1 as (Hurl & Hnv & Hov).
  clear Hq. cbv zeta in Hrun. rewrite Hnv, Hov in Hrun. injection Hrun as <- <-.
  eexists.
  exists (if existsb (fun o => negb (String.eqb o "") && negb (NotVersioned spec))
               (VersionOverrideTargets spec)
          then MultiTargetProxy else SingleHostReverseProxy).
  exists u. split; [reflexivity|].
  split.
  { destruct (TraceEnabled (config gw)); [reflexivity|].
    destruct (OpenTelemetryEnabled (config gw)); reflexivity. }
  split; [simpl; now rewrite Hurl, Hparse|].
  split; [simpl; now rewrite Hurl|].
  split; [simpl; exact Hurl|].
  split.
  - destruct (existsb _ _) eqn:E.
    + split; [intros _ | reflexivity].
      apply existsb_exists in E as (o & Hin & Ho).
      apply andb_true_iff in Ho as [Ho1 Ho2].
      apply negb_true_iff in Ho1, Ho2. apply String.eqb_neq in Ho1.
      split; [exact Ho2 | now exists o].
    + split; [discriminate|].
      intros (Hv & o & Hin & Ho). exfalso.
      assert (existsb (fun o => negb (String.eqb o "") && negb (NotVersioned spec))
                (VersionOverrideTargets spec) = true); [|congruence].
      apply existsb_exists. exists o. split; [exact Hin|].
      rewrite Hv. apply String.eqb_neq in Ho. now rewrite Ho.
  - intros gw' r Hs. rewrite ServeHTTP_unfold.
    destruct (isLoop (contextConsumed r)) as [found e] eqn:E.
    assert (found = false) as ->.
    { destruct found; [|reflexivity].
      exfalso. apply Hs, isLoop_found. now rewrite E. }
    cbn [SH_Spec target setTarget]. now rewrite Hurl, Hparse.
Qed.

Lemma processSpec_terminal_handler_witness :
  exists (spec' : APISpec) (chainObj : ChainObject) (targetURL : URL),
    processSpec sampleEnv sampleGateway (sampleSpec "a" "" "/x" true 0 0) ∅ ""
    = Some (spec', chainObj)
    /\ target spec' = Some targetURL.
Proof.
  destruct (processSpec sampleEnv sampleGateway (sampleSpec "a" "" "/x" true 0 0) ∅ "")
    as [[spec' chainObj]|] eqn:E; [|vm_compute in E; discriminate].
  destruct (processSpec_terminal_handler _ _ _ _ _ _ _ E eq_refl)
    as (h & proxy & u & _ & _ & H & _).
  exists spec', chainObj, u. auto.
Defined.

(** Every step that builds a chain adds at its end, and what it adds does
    not depend on what is there. *)
Lemma mwAppendEnabled_prefix (env : Collaborators) (spec : APISpec)
    (a b : list Middleware) (mw : Middleware) :
  mwAppendEnabled env spec (a ++ b)%list mw
  = (a ++ mwAppendEnabled env spec b mw)%list.
Proof.
  unfold mwAppendEnabled. destruct (EnabledForSpec env spec mw);
    [now rewrite List.app_assoc | reflexivity].
Qed.

Lemma mwAppendOptional_prefix (env : Collaborators) (spec : APISpec)
    (a b : list Middleware) (mw : option Middleware) :
  mwAppendOptional env spec (a ++ b)%list mw
  = (a ++ mwAppendOptional env spec b mw)%list.
Proof. destruct mw; [apply mwAppendEnabled_prefix | reflexivity]. Qed.

Lemma appendHook_prefix (env : Collaborators) (spec : APISpec)
    (driver : MiddlewareDriver) (hook : HookType) (isPre : bool)
    (a b : list Middleware) (obj : MiddlewareDefinition) :
  appendHook env spec driver hook isPre (a ++ b)%list obj
  = (a ++ appendHook env spec driver hook isPre b obj)%list.
Proof.
  unfold appendHook. destruct (isGoPlugin driver);
    [apply mwAppendEnabled_prefix|].
  destruct (negb (isOtto driver)); [apply mwAppendEnabled_prefix|].
  now rewrite List.app_assoc.
Qed.

Lemma appendPostAuthHook_prefix (env : Collaborators) (spec : APISpec)
    (driver : MiddlewareDriver) (a b : list Middleware)
    (obj : MiddlewareDefinition) :
  appendPostAuthHook env spec driver (a ++ b)%list obj
  = (a ++ appendPostAuthHook env spec driver b obj)%list.
Proof.
  unfold appendPostAuthHook.
  destruct (isGoPlugin driver); apply mwAppendEnabled_prefix.
Qed.

Lemma fold_left_prefix {X : Type}
    (f : list Middleware -> X -> list Middleware) (l : list X) :
  (forall a b x, f (a ++ b)%list x = (a ++ f b x)%list) ->
  forall a b, fold_left f l (a ++ b)%list = (a ++ fold_left f l b)%list.
Proof.
  intros Hf. induction l as [|x l IH]; intros a b; simpl; [reflexivity|].
  now rewrite Hf, IH.
Qed.

Lemma rateLimitStage_fold (env : Collaborators) (spec : APISpec)
    (chain : list Middleware) (q : string) :
  fold_left (mwAppendEnabled env spec) [RateLimitForAPI q; GraphQLMiddleware]
    chain
  = ((chain ++ rateLimitStage env spec q)
     ++ mwAppendEnabled env spec [] GraphQLMiddleware)%list.
Proof.
  simpl. unfold mwAppendEnabled, rateLimitStage.
  destruct (EnabledForSpec env spec (RateLimitForAPI q)),
    (EnabledForSpec env spec GraphQLMiddleware);
    simpl; rewrite ?List.app_nil_r; reflexivity.
Qed.

(** The main sequence is the same for every quota key, but for the
    API-level rate-limit stage. *)
Lemma buildChainArray_quota (env : Collaborators) (spec : APISpec)
    (cm : CustomMiddleware) (authArray : list Middleware) :
  exists front back : list Middleware,
    forall q : string,
      buildChainArray env spec cm authArray q
      = (front ++ rateLimitStage env spec q ++ back)%list.
Proof.
  unfold buildChainArray. cbv zeta. eexists _, _. intros q.
  rewrite rateLimitStage_fold.
  rewrite mwAppendOptional_prefix.
  match goal with
  | |- context [if ?c then fold_left ?f ?l (?a ++ ?b)%list else (?a ++ ?b)%list] =>
      replace (if c then fold_left f l (a ++ b)%list else (a ++ b)%list)
        with (a ++ (if c then fold_left f l b else b))%list
        by (destruct c;
            [now rewrite (fold_left_prefix f l (mwAppendEnabled_prefix env spec))
            | reflexivity])
  end.
  rewrite !mwAppendOptional_prefix.
  rewrite (fold_left_prefix _ _ (mwAppendEnabled_prefix env spec)).
  rewrite (fold_left_prefix _ _
             (fun a b x => appendHook_prefix env spec _ _ _ a b x)).
  rewrite <- List.app_assoc. reflexivity.
Qed.

Lemma withStages_chainStages (h : Handler) :
  withStages h (chainStages h) = h.
Proof. induction h; simpl; congruence. Qed.

(** X11: the quota key given to [processSpec] reaches nothing but the
    API-level rate-limit stage of the main chain.  The descriptor returned,
    the flags of the chain object and the rate-limit side-chain are the same
    for every quota key.  The handlers for two keys are the same handler,
    wrapper and terminal handler included, but for the stages; and the
    stages are the same stages before and the same stages behind one place,
    which holds the stage [RateLimitForAPI] with exactly the key given when
    that stage is enabled for the descriptor, and nothing otherwise. *)
Theorem processSpec_quota_key :
  forall (env : Collaborators) (gw : Gateway) (spec : APISpec) (m : gmap string Z)
         (q q' : string) (spec1 spec2 : APISpec) (c1 c2 : ChainObject),
    processSpec env gw spec m q = Some (spec1, c1) ->
    processSpec env gw spec m q' = Some (spec2, c2) ->
    spec1 = spec2
    /\ RateLimitChain c1 = RateLimitChain c2
    /\ Open c1 = Open c2
    /\ Skip c1 = Skip c2
    /\ (fst (skipSpecBecauseInvalid env spec) = true ->
        ThisHandler c1 = None /\ ThisHandler c2 = None)
    /\ (fst (skipSpecBecauseInvalid env spec) = false ->
        exists (h1 : Handler) (front back : list Middleware),
          ThisHandler c1 = Some h1
          /\ chainStages h1
             = (front ++ rateLimitStage env spec1 q ++ back)%list
          /\ ThisHandler c2
             = Some (withStages h1
                       (front ++ rateLimitStage env spec1 q' ++ back)%list))
    /\ (fst (skipSpecBecauseInvalid env spec) = false ->
        EnabledForSpec env spec1 (RateLimitForAPI q) = true ->
        exists h, ThisHandler c1 = Some h
                  /\ In (RateLimitForAPI q) (chainStages h)).
Proof.
  intros env gw spec m q q' spec1 spec2 c1 c2.
  destruct (processSpec_shape env gw spec m) as (spec0 & _ & _ & _ & _ & _ & _ & Hq).
  rewrite !Hq. destruct (fst (skipSpecBecauseInvalid env spec)).
  - intros [= <- <-] [= <- <-]. repeat split; discriminate.
  - destruct (listenPathLoop env gw m (loopFuel m spec0) spec0 false)
      as [[s1 md]|]; [|discriminate].
    cbv zeta. intros [= <- <-] [= <- <-]. cbn [ThisHandler RateLimitChain Open Skip].
    set (s2 := setTarget s1 (url_Parse env (TargetURL (Proxy s1)))) in *.
    set (cm := fixBundlePaths env s1 (loadCustomMiddleware env s1)) in *.
    set (authArray := if negb (UseKeylessAccess s1) then buildAuthArray env s2 cm
                      else []) in *.
    destruct (buildChainArray_quota env s2 cm authArray) as (front & back & Hb).
    rewrite !Hb.
    split; [reflexivity|]. split; [reflexivity|]. split; [reflexivity|].
    split; [reflexivity|]. split; [discriminate|]. split.
    + intros _.
      destruct (TraceEnabled (config gw));
        [|destruct (OpenTelemetryEnabled (config gw))];
        (eexists _, front, back; split; [reflexivity|]; split; reflexivity).
    + intros _ He.
      assert (Hin : In (RateLimitForAPI q)
                      (front ++ rateLimitStage env s2 q ++ back)%list).
      { apply in_or_app. right. apply in_or_app. left.
        unfold rateLimitStage. rewrite He. now left. }
      destruct (TraceEnabled (config gw));
        [|destruct (OpenTelemetryEnabled (config gw))];
        (eexists; split; [reflexivity | exact Hin]).
Qed.

Lemma processSpec_quota_key_witness :
  exists (spec1 spec2 : APISpec) (c1 c2 : ChainObject),
    processSpec sampleEnv sampleGateway (sampleSpec "a" "" "/x" false 0 0) ∅ "k1"
    = Some (spec1, c1)
    /\ processSpec sampleEnv sampleGateway (sampleSpec "a" "" "/x" false 0 0) ∅ "k2"
       = Some (spec2, c2)
    /\ spec1 = spec2
    /\ RateLimitChain c1 = RateLimitChain c2
    /\ exists (h1 : Handler) (front back : list Middleware),
         ThisHandler c1 = Some h1
         /\ chainStages h1
            = (front ++ rateLimitStage sampleEnv spec1 "k1" ++ back)%list
         /\ ThisHandler c2
            = Some (withStages h1
                      (front ++ rateLimitStage sampleEnv spec1 "k2" ++ back)%list).
Proof.
  destruct (processSpec sampleEnv sampleGateway (sampleSpec "a" "" "/x" false 0 0) ∅ "k1")
    as [[spec1 c1]|] eqn:E1; [|vm_compute in E1; discriminate].
  destruct (processSpec sampleEnv sampleGateway (sampleSpec "a" "" "/x" false 0 0) ∅ "k2")
    as [[spec2 c2]|] eqn:E2; [|vm_compute in E2; discriminate].
  destruct (processSpec_quota_key _ _ _ _ _ _ _ _ _ _ E1 E2)
    as (H1 & H2 & _ & _ & _ & H3 & _).
  exists spec1, spec2, c1, c2.
  split; [reflexivity|]. split; [reflexivity|]. split; [exact H1|].
  split; [exact H2|]. apply H3. reflexivity.
Defined.

(** ** Route registration *)

(** X12: the route under the api-id prefix "/<api_id>/" is never gated: the
    prefix ends with a slash, so [explicitRouteSubpaths] returns the handler
    itself whatever the strict-routes setting, and the catch-all route that
    [loadHTTPService] adds under that prefix carries the handler of the
    chain object as it is. *)
Theorem api_id_prefix_never_gated :
  forall (apiID : string) (handler : Handler) (enabled : bool),
    explicitRouteSubpaths ("/" ++ apiID ++ "/") handler enabled = handler
    /\ forall (env : Collaborators) (gw : Gateway) (spec : APISpec)
              (chainObj : ChainObject) (hostname : string),
        APIID spec = apiID ->
        exists front,
          registerPrefix env gw spec chainObj hostname ("/" ++ apiID ++ "/")
          = (front ++ [mkRoute hostname ("/" ++ apiID ++ "/") None
                         (ThisHandler chainObj)])%list.
Proof.
  intros apiID handler enabled.
  assert (Hgate : forall h e, explicitRouteSubpaths ("/" ++ apiID ++ "/") h e = h).
  { intros h e. unfold explicitRouteSubpaths. destruct (negb e); [reflexivity|].
    replace (HasSuffix ("/" ++ apiID ++ "/") "/") with true; [reflexivity|].
    symmetry. apply HasSuffix_spec. exists ("/" ++ apiID).
    now rewrite app_assoc. }
  split; [apply Hgate|].
  intros env gw spec chainObj hostname _. unfold registerPrefix.
  eexists. rewrite List.app_assoc. f_equal. f_equal. f_equal.
  destruct (ThisHandler chainObj) as [h|]; simpl; [|reflexivity].
  now rewrite Hgate.
Qed.

(** X13: where [loadHTTPService] runs [processSpec] on a descriptor, that
    is when the listen path passes [ValidatePath] and the descriptor is to
    be reloaded, and the chain object [processSpec] returns is not skipped,
    [loadHTTPService] registers routes under two prefixes, first
    "/<api_id>/" and then the listen path as [processSpec] settled it, each
    with its sub-routes, the rate-limit endpoint exactly when the descriptor
    is not keyless, and a catch-all route; the rate-limit endpoint carries
    the side-chain, which is there. *)
Theorem loadHTTPService_routes :
  forall (env : Collaborators) (gw : Gateway) (spec : APISpec)
         (m : gmap string Z) (spec' : APISpec) (chainObj : ChainObject),
    processSpec env gw spec m "" = Some (spec', chainObj) ->
    Skip chainObj = false ->
    ValidatePath env (ListenPath (Proxy spec)) = None ->
    shouldReloadSpec env (getApiSpec gw (APIID spec)) spec = true ->
    let hostname :=
      if EnableCustomDomains (config gw) && negb (String.eqb (Domain spec) "")
      then GetAPIDomain env spec else HostName (config gw) in
    let under prefix :=
      (generateSubRoutes env spec' hostname prefix
       ++ (if UseKeylessAccess spec then []
           else [mkRoute hostname prefix (Some rateLimitEndpoint)
                   (RateLimitChain chainObj)])
       ++ [mkRoute hostname prefix None
             ((fun h => explicitRouteSubpaths prefix h
                          (EnableStrictRoutes (config gw)))
                <$> ThisHandler chainObj)])%list in
    loadHTTPService env gw spec m
    = Loaded spec' chainObj
        (under ("/" ++ APIID spec ++ "/")%string ++ under (ListenPath (Proxy spec')))%list
    /\ (UseKeylessAccess spec = false -> RateLimitChain chainObj <> None)
    /\ ThisHandler chainObj <> None.
Proof.
  intros env gw spec m spec' chainObj Hrun Hskip Hvalid Hreload hostname under.
  assert (Hfacts : Open chainObj = UseKeylessAccess spec
                   /\ APIID spec' = APIID spec
                   /\ (UseKeylessAccess spec = false -> RateLimitChain chainObj <> None)
                   /\ ThisHandler chainObj <> None).
  { pose proof (processSpec_keeps_identity_aux env gw spec m "" spec' chainObj Hrun)
      as Hid.
    destruct (processSpec_shape env gw spec m) as (spec0 & _ & _ & _ & _ & _ & _ & Hq).
    rewrite Hq in Hrun. destruct (fst (skipSpecBecauseInvalid env spec)).
    - injection Hrun as <- <-. discriminate.
    - destruct (listenPathLoop env gw m (loopFuel m spec0) spec0 false)
        as [[spec1 md]|]; [|discriminate].
      cbv zeta in Hrun. injection Hrun as <- <-. simpl.
      split; [reflexivity|]. split; [exact Hid|].
      split; [intros ->; discriminate | discriminate]. }
  destruct Hfacts as (Hopen & Hapi & Hrl & Hh).
  split; [|split; assumption].
  unfold loadHTTPService. rewrite Hvalid, Hreload. simpl negb. cbv iota.
  rewrite Hrun, Hskip. fold hostname. unfold registerPrefix.
  rewrite Hopen, Hapi. subst under. cbv beta.
  destruct (UseKeylessAccess spec); reflexivity.
Qed.

Lemma loadHTTPService_routes_witness :
  exists (spec' : APISpec) (chainObj : ChainObject) (routes : list Route),
    loadHTTPService sampleEnv sampleGateway (sampleSpec "a" "" "/open" true 0 0) ∅
    = Loaded spec' chainObj routes
    /\ routePrefix <$> routes = ["/a/"; "/open"]
    /\ routePath <$> routes = [None; None].
Proof.
  destruct (processSpec sampleEnv sampleGateway (sampleSpec "a" "" "/open" true 0 0) ∅ "")
    as [[spec' chainObj]|] eqn:E; [|vm_compute in E; discriminate].
  destruct (loadHTTPService_routes sampleEnv sampleGateway _ _ _ _ E) as (H & _).
  - vm_compute in E. injection E as <- <-. reflexivity.
  - reflexivity.
  - reflexivity.
  - eexists. eexists. eexists. split; [exact H|].
    vm_compute in E. injection E as <- <-. split; reflexivity.
Defined.

(** ** The loop dispatcher *)

Lemma fuzzyFindAPI_range_sound (env : Collaborators) (apis : list APISpec)
    (search : string) :
  (forall api, fuzzyFindAPI_range env apis search = Some (Some api) ->
               In api apis /\ fuzzyMatches env api search)
  /\ (fuzzyFindAPI_range env apis search = Some None ->
      forall api, In api apis -> ~ fuzzyMatches env api search).
Proof.
  induction apis as [|a apis [IH1 IH2]]; simpl.
  - split; [discriminate | tauto].
  - destruct (String.eqb_spec (APIID a) search) as [E1|E1].
    { split; [|discriminate]. intros api [= <-]. split; [now left|]. now left. }
    destruct (String.eqb_spec (IdHex a) search) as [E2|E2].
    { split; [|discriminate]. intros api [= <-]. split; [now left|].
      right. now left. }
    destruct (APILoopingName env (Name a)) as [n|] eqn:En;
      [|split; discriminate].
    destruct (EqualFold env n search) eqn:Ef.
    { split; [|discriminate]. intros api [= <-]. split; [now left|].
      right. right. now exists n. }
    split.
    + intros api H. destruct (IH1 api H). split; [now right | assumption].
    + intros H api [<-|Hin]; [|now apply IH2].
      intros [Hm|[Hm|(n' & Hn & Hm)]]; [contradiction | contradiction |].
      congruence.
Qed.

Lemma fuzzyFindAPI_found (env : Collaborators) (gw : Gateway) (search : string)
    (api : APISpec) :
  fuzzyFindAPI env gw search = Some (Some api) ->
  search <> ""
  /\ (exists id, apisByID gw !! id = Some api)
  /\ fuzzyMatches env api search.
Proof.
  unfold fuzzyFindAPI.
  destruct (String.eqb_spec search "") as [E|E]; [discriminate|].
  intros H.
  destruct (fuzzyFindAPI_range_sound env (map_to_list (apisByID gw)).*2 search)
    as [H1 _].
  destruct (H1 api H) as [Hin Hm].
  split; [exact E|]. split; [|exact Hm].
  apply list_elem_of_In, list_elem_of_fmap in Hin as ([id a] & -> & Hin).
  exists id. now apply elem_of_map_to_list.
Qed.

(** X14: [fuzzyFindAPI] with an empty search string finds nothing; a
    descriptor it returns is one of the loaded descriptors and matches the
    search string by api id, by object id, or by its canonical looping name
    compared with [strings.EqualFold]; and when it finds nothing for a
    non-empty search string, no loaded descriptor matches. *)
Theorem fuzzyFindAPI_sound :
  forall (env : Collaborators) (gw : Gateway) (search : string),
    fuzzyFindAPI env gw "" = Some None
    /\ (forall api, fuzzyFindAPI env gw search = Some (Some api) ->
          search <> ""
          /\ (exists id, apisByID gw !! id = Some api)
          /\ fuzzyMatches env api search)
    /\ (fuzzyFindAPI env gw search = Some None ->
        search = ""
        \/ forall id api, apisByID gw !! id = Some api ->
                          ~ fuzzyMatches env api search).
Proof.
  intros env gw search. split; [reflexivity|].
  split; [intros api; apply fuzzyFindAPI_found|].
  unfold fuzzyFindAPI.
  destruct (String.eqb_spec search "") as [E|E]; [auto|].
  destruct (fuzzyFindAPI_range_sound env (map_to_list (apisByID gw)).*2 search)
    as [_ H2].
  intros H. right. intros id api Hl. apply (H2 H).
  apply list_elem_of_In, list_elem_of_fmap. exists (id, api).
  split; [reflexivity|]. now apply elem_of_map_to_list.
Qed.

(** X15: [findInternalHttpHandlerByNameOrID] reports success only together
    with a loaded descriptor that matches the name and whose chain object is
    stored, and the handler it returns is the handler of that chain object;
    the terminal handler answers "Couldn't detect target" exactly when the
    lookup reports failure. *)
Theorem findInternalHttpHandlerByNameOrID_sound :
  forall (env : Collaborators) (gw : Gateway) (apiNameOrID : string),
    (forall handler targetAPI,
        findInternalHttpHandlerByNameOrID env gw apiNameOrID
        = Some (Some (handler, targetAPI)) ->
        (exists id, apisByID gw !! id = Some targetAPI)
        /\ fuzzyMatches env targetAPI apiNameOrID
        /\ exists chainObj, apisHandlesByID gw !! APIID targetAPI = Some chainObj
                            /\ ThisHandler chainObj = handler)
    /\ (forall (spec : APISpec) (targetURL : URL) (r : Request),
           Host targetURL = apiNameOrID ->
           (findInternalHttpHandlerByNameOrID env gw apiNameOrID = Some None <->
            serveInternalTarget env (mkDummyProxyHandler spec gw) targetURL r
            = HandleError r "Couldn't detect target" 500)).
Proof.
  intros env gw name. unfold findInternalHttpHandlerByNameOrID. split.
  - intros handler targetAPI H.
    destruct (fuzzyFindAPI env gw name) as [[api|]|] eqn:E; try discriminate.
    destruct (apisHandlesByID gw !! APIID api) as [c|] eqn:Ec; [|discriminate].
    injection H as <- <-.
    destruct (fuzzyFindAPI_found env gw name api E) as (_ & Hin & Hm).
    split; [exact Hin|]. split; [exact Hm|]. now exists c.
  - intros spec targetURL r <-. unfold serveInternalTarget. simpl Gw. simpl SH_Spec.
    destruct (fuzzyFindAPI env gw (Host targetURL)) as [[api|]|]; simpl.
    + destruct (apisHandlesByID gw !! APIID api) as [c|]; simpl.
      * split; [discriminate|].
        destruct (getRedirectTargetUrl env spec (ctxInternalRedirectTarget r));
          [|discriminate].
        destruct (ThisHandler c); discriminate.
      * split; reflexivity.
    + split; reflexivity.
    + split; discriminate.
Qed.

Lemma serveLoop_errors (env : Collaborators) (d : DummyProxyHandler)
    (r r' : Request) (msg : string) (code : Z) :
  serveLoop env d r = HandleError r' msg code ->
  code = 500 /\ msg = "Can't detect loop target".
Proof.
  unfold serveLoop. cbv zeta.
  destruct (String.eqb (Hostname env _) "self").
  - destruct (match apisHandlesByID (Gw d) !! _ with Some _ => _ | None => _ end);
      discriminate.
  - destruct (fuzzyFindAPI env (Gw d) _) as [[api|]|]; [| |discriminate].
    + destruct (match apisHandlesByID (Gw d) !! _ with Some _ => _ | None => _ end);
        discriminate.
    + intros [= _ <- <-]. auto.
Qed.

Lemma serveInternalTarget_errors (env : Collaborators) (d : DummyProxyHandler)
    (t : URL) (r r' : Request) (msg : string) (code : Z) :
  serveInternalTarget env d t r = HandleError r' msg code ->
  code = 500
  /\ (msg = "Couldn't detect target" \/ msg = "Failed to perform internal redirect").
Proof.
  unfold serveInternalTarget.
  destruct (fuzzyFindAPI env (Gw d) (Host t)) as [found|]; [|discriminate].
  destruct (found ≫= _) as [chain|]; [|intros [= _ <- <-]; auto].
  destruct (getRedirectTargetUrl env _ _); [|intros [= _ <- <-]; auto].
  destruct (ThisHandler chain); discriminate.
Qed.

(** X16: whenever the terminal handler ends in the error handler, the
    status is 500 and the message is one of four: the loop-depth message
    with the cap of the request, "Can't detect loop target", "Couldn't
    detect target" or "Failed to perform internal redirect". *)
Theorem ServeHTTP_error_answers :
  forall (env : Collaborators) (d : DummyProxyHandler) (r r' : Request)
         (msg : string) (code : Z),
    ServeHTTP env d r = HandleError r' msg code ->
    code = 500
    /\ (msg = "Loop level too deep. Found more than "
              ++ itoa (loopCap (contextConsumed r)) ++ " loops in single request"
        \/ msg = "Can't detect loop target"
        \/ msg = "Couldn't detect target"
        \/ msg = "Failed to perform internal redirect").
Proof.
  intros env d r r' msg code. rewrite ServeHTTP_unfold.
  destruct (isLoop (contextConsumed r)) as [found e] eqn:E.
  destruct found; [destruct e as [err|]|].
  - intros [= _ <- <-]. split; [reflexivity|]. left.
    assert (H : snd (isLoop (contextConsumed r)) = Some err) by now rewrite E.
    apply isLoop_error in H. tauto.
  - intros H. apply serveLoop_errors in H as [-> ->]. auto.
  - destruct (target (SH_Spec d)) as [t|]; [|discriminate].
    destruct (String.eqb (Scheme t) "tyk"); [|discriminate].
    intros H. apply serveInternalTarget_errors in H as [-> [-> | ->]]; auto.
Qed.

Lemma ServeHTTP_error_answers_witness :
  exists (r' : Request) (msg : string),
    ServeHTTP sampleEnv
      (mkDummyProxyHandler (sampleSpec "a" "" "/x" true 0 0) sampleGateway)
      (sampleRequest "tyk" "/v2" 6 0)
    = HandleError r' msg 500.
Proof.
  destruct (ServeHTTP sampleEnv
              (mkDummyProxyHandler (sampleSpec "a" "" "/x" true 0 0) sampleGateway)
              (sampleRequest "tyk" "/v2" 6 0)) as [r' msg code| | |] eqn:E;
    try (vm_compute in E; discriminate).
  destruct (ServeHTTP_error_answers _ _ _ _ _ _ E) as [-> _].
  now exists r', msg.
Defined.

Lemma serveLoop_not_success (env : Collaborators) (d : DummyProxyHandler)
    (r r' : Request) :
  serveLoop env d r <> SuccessServeHTTP r'.
Proof.
  unfold serveLoop. cbv zeta.
  destruct (String.eqb (Hostname env _) "self").
  - destruct (match apisHandlesByID (Gw d) !! _ with Some _ => _ | None => _ end);
      discriminate.
  - destruct (fuzzyFindAPI env (Gw d) _) as [[api|]|]; try discriminate.
    destruct (match apisHandlesByID (Gw d) !! _ with Some _ => _ | None => _ end);
      discriminate.
Qed.

Lemma serveInternalTarget_not_success (env : Collaborators)
    (d : DummyProxyHandler) (t : URL) (r r' : Request) :
  serveInternalTarget env d t r <> SuccessServeHTTP r'.
Proof.
  unfold serveInternalTarget.
  destruct (fuzzyFindAPI env (Gw d) (Host t)) as [found|]; [|discriminate].
  destruct (found ≫= _) as [chain|]; [|discriminate].
  destruct (getRedirectTargetUrl env _ _); [|discriminate].
  destruct (ThisHandler chain); discriminate.
Qed.

(** X17: the terminal handler hands a request to the reverse proxy exactly
    when, after the context fields are consumed, the URL scheme is not the
    internal one and the target of the API is not of the internal scheme
    either; the request handed on is the one with the context consumed,
    with nothing else changed.  A loop request never reaches the proxy
    directly. *)
Theorem ServeHTTP_reaches_proxy :
  forall (env : Collaborators) (d : DummyProxyHandler) (r r' : Request),
    ServeHTTP env d r = SuccessServeHTTP r' <->
    r' = contextConsumed r
    /\ Scheme (reqURL (contextConsumed r)) <> "tyk"
    /\ exists targetURL, target (SH_Spec d) = Some targetURL
                         /\ Scheme targetURL <> "tyk".
Proof.
  intros env d r r'. rewrite ServeHTTP_unfold.
  destruct (isLoop (contextConsumed r)) as [found e] eqn:E.
  assert (Hf : found = true <-> Scheme (reqURL (contextConsumed r)) = "tyk").
  { rewrite <- isLoop_found, E. reflexivity. }
  destruct found.
  - assert (Hs : Scheme (reqURL (contextConsumed r)) = "tyk") by now apply Hf.
    split.
    + destruct e; [discriminate|]. intros H. now apply serveLoop_not_success in H.
    + intros (_ & H & _). contradiction.
  - assert (Hs : Scheme (reqURL (contextConsumed r)) <> "tyk").
    { intros H. apply Hf in H. discriminate. }
    destruct (target (SH_Spec d)) as [t|].
    + destruct (String.eqb_spec (Scheme t) "tyk") as [Et|Et].
      * split; [intros H; now apply serveInternalTarget_not_success in H|].
        intros (_ & _ & t' & [= <-] & H). contradiction.
      * split; [intros [= <-]; eauto|]. now intros (-> & _).
    + split; [discriminate|]. now intros (_ & _ & t & H & _).
Qed.

(** ** The canonical looping name, continued *)

Lemma take_take_succ (s : string) (i : nat) :
  (S i <= String.length s)%nat ->
  exists c, take (S i) s = take i s ++ String c "" /\ drop i s = String c (drop (S i) s).
Proof.
  revert s. induction i as [|i IH]; intros [|c s] H; simpl in H; try lia.
  - exists c. split; [now destruct s | reflexivity].
  - destruct (IH s ltac:(lia)) as (c' & E1 & E2). exists c'. split.
    + change (take (S (S i)) (String c s)) with (String c (take (S i) s)).
      rewrite E1. reflexivity.
    + exact E2.
Qed.

Lemma Contains_take_false (s sub : string) (i : nat) :
  (forall j, (j < i)%nat -> HasPrefix (drop j s) sub = false) ->
  (i + String.length sub <= S (String.length s))%nat ->
  sub <> "" ->
  Contains (take (i + String.length sub - 1) s) sub = false.
Proof.
  intros Hnone Hlen Hsub.
  destruct (Contains (take _ s) sub) eqn:E; [|reflexivity]. exfalso.
  apply Contains_spec in E as (a & b & E).
  assert (Hs : s = a ++ sub ++ (b ++ drop (i + String.length sub - 1) s)).
  { transitivity ((a ++ sub ++ b) ++ drop (i + String.length sub - 1) s).
    - rewrite <- E. symmetry. apply take_drop.
    - now rewrite !app_assoc. }
  assert (Hlt : (String.length a < i)%nat).
  { apply (f_equal String.length) in E.
    rewrite !length_app in E.
    assert (String.length sub <> 0)%nat by (destruct sub; simpl; congruence).
    rewrite length_take in E; lia. }
  specialize (Hnone _ Hlt). rewrite Hs, drop_app in Hnone.
  assert (HasPrefix (sub ++ b ++ drop (i + String.length sub - 1) s) sub = true)
    by (apply HasPrefix_spec; eauto).
  congruence.
Qed.

(** X18: what [trimCategories] returns, when it returns, is the beginning of
    the name and contains no ['#']: the whole name when the name has no
    ['#'], and otherwise the name cut one character in front of the first
    ['#'], so that the character preceding the ['#'], the ['#'] and all that
    follows are gone. *)
Theorem trimCategories_cuts_at_hash :
  forall (name trimmed : string),
    trimCategories name = Some trimmed ->
    Contains trimmed "#" = false
    /\ (Contains name "#" = false -> trimmed = name)
    /\ (Contains name "#" = true ->
        exists c rest, name = trimmed ++ String c (String "#" rest)
                       /\ c <> "#"%char).
Proof.
  intros name trimmed H.
  destruct (index_nat name "#") as [[|i]|] eqn:E.
  - exfalso. unfold trimCategories, Index in H. rewrite E in H. discriminate.
  - rewrite (trimCategories_inner_hash _ _ E) in H. injection H as <-.
    pose proof (index_nat_Some _ _ _ E) as (Hat & Hle & Hnone).
    apply HasPrefix_spec in Hat as [rest Hrest].
    assert (Hlen : (S (S i) <= String.length name)%nat).
    { pose proof (f_equal String.length (take_drop (S i) name)) as L.
      rewrite length_app, Hrest, length_app, length_take in L by lia.
      simpl in L. lia. }
    destruct (take_take_succ name i ltac:(lia)) as (c & Etake & Edrop).
    assert (Hname : name = take i name ++ String c (String "#" rest)).
    { rewrite <- (take_drop i name) at 1. rewrite Edrop, Hrest. reflexivity. }
    split; [|split].
    + pose proof (Contains_take_false name "#" (S i)) as Hc.
      simpl in Hc. replace (i + 1 - 0)%nat with (S i) in Hc by lia.
      assert (Hfull : Contains (take (S i) name) "#" = false).
      { apply Hc; [intros j Hj; apply Hnone; lia | lia | discriminate]. }
      destruct (Contains (take i name) "#") eqn:Ec; [|reflexivity].
      apply Contains_spec in Ec as (a & b & Ec).
      assert (Contains (take (S i) name) "#" = true); [|congruence].
      apply Contains_spec. exists a, (b ++ String c "").
      rewrite Etake, Ec, !app_assoc. reflexivity.
    + intros Hno. unfold Contains, Index in Hno. rewrite E in Hno.
      apply Z.leb_gt in Hno. lia.
    + intros _. exists c, rest. split; [exact Hname|].
      intros ->. specialize (Hnone i ltac:(lia)).
      rewrite Edrop in Hnone. simpl in Hnone. discriminate.
  - assert (Hc : Contains name "#" = false).
    { unfold Contains, Index. now rewrite E. }
    rewrite (trimCategories_without_hash _ Hc) in H. injection H as <-.
    split; [exact Hc|]. split; [reflexivity | congruence].
Qed.

Lemma trimCategories_cuts_at_hash_witness :
  Contains "foo" "#" = false
  /\ exists c rest, "foo #bar" = "foo" ++ String c (String "#" rest).
Proof.
  destruct (trimCategories_cuts_at_hash "foo #bar" "foo" eq_refl) as (H1 & _ & H3).
  split; [exact H1|].
  destruct (H3 eq_refl) as (c & rest & H & _). now exists c, rest.
Defined.

(** ** The effective length of a listen path *)

Lemma len_nonneg (s : string) : 0 <= len s.
Proof. unfold len. lia. Qed.

Lemma Split_head (s : string) (sep : ascii) :
  exists seg segs rest, Split s sep = seg :: segs /\ s = seg ++ rest.
Proof.
  induction s as [|c s (seg & segs & rest & E & Hs)]; simpl.
  - now exists "", [], "".
  - destruct (Ascii.eqb c sep).
    + exists "", (Split s sep), (String c s). auto.
    + rewrite E. exists (String c seg), segs, rest. split; [reflexivity|].
      now rewrite Hs at 1.
Qed.

Lemma Split_segment_inside (s : string) (sep : ascii) (seg : string) :
  In seg (Split s sep) -> exists a b, s = a ++ seg ++ b.
Proof.
  induction s as [|c s IH]; simpl.
  - intros [<-|[]]. now exists "", "".
  - destruct (Ascii.eqb c sep).
    + intros [<-|H].
      * now exists "", (String c s).
      * destruct (IH H) as (a & b & ->). now exists (String c a), b.
    + destruct (Split_head s sep) as (s0 & segs & rest & E & Hs).
      rewrite E in IH |- *. intros [<-|H].
      * exists "", rest. simpl. rewrite app_nil_l, app_cons. now rewrite <- Hs.
      * destruct (IH (or_intror H)) as (a & b & ->). now exists (String c a), b.
Qed.

Lemma len_Count_Split (s : string) (sep : ascii) :
  len s = Count s sep + totalLength (Split s sep)
  /\ Z.of_nat (length (Split s sep)) = Count s sep + 1.
Proof.
  unfold totalLength, len.
  induction s as [|c s [IH1 IH2]]; simpl; [split; reflexivity|].
  destruct (Ascii.eqb c sep); simpl.
  - split; lia.
  - destruct (Split_head s sep) as (s0 & segs & rest & E & _).
    rewrite E in *. simpl in *. split; lia.
Qed.

Lemma literalLength_cons (seg : string) (segs : list string) :
  literalLength (seg :: segs)
  = (if isParamSegment seg then 0 else len seg) + literalLength segs.
Proof. unfold literalLength. simpl. destruct (isParamSegment seg); reflexivity. Qed.

Lemma literalLength_total (segs : list string) :
  0 <= literalLength segs <= totalLength segs
  /\ (literalLength segs = totalLength segs <->
      forall seg, In seg segs -> isParamSegment seg = false).
Proof.
  induction segs as [|seg segs [IHb IHe]].
  - unfold literalLength, totalLength. simpl. split; [lia|]. split; [tauto | reflexivity].
  - rewrite literalLength_cons.
    change (totalLength (seg :: segs)) with (len seg + totalLength segs).
    pose proof (len_nonneg seg) as Hn.
    destruct (isParamSegment seg) eqn:E.
    + assert (2 < len seg).
      { unfold isParamSegment in E. apply andb_true_iff in E as [E _].
        apply andb_true_iff in E as [E _]. now apply Z.ltb_lt in E. }
      split; [lia|]. split; [lia|].
      intros H'. specialize (H' seg (or_introl eq_refl)). congruence.
    + split; [lia|]. split.
      * intros H seg' [<-|Hin]; [exact E|]. apply IHe; [lia | exact Hin].
      * intros H. assert (literalLength segs = totalLength segs); [|lia].
        apply IHe. intros seg' Hin. apply H. now right.
Qed.

Lemma param_segment_brace (s seg : string) :
  In seg (Split s "/") -> isParamSegment seg = true -> Contains s "{" = true.
Proof.
  intros Hin Hp. destruct (Split_segment_inside _ _ _ Hin) as (a & b & ->).
  unfold isParamSegment in Hp. apply andb_true_iff in Hp as [Hp _].
  apply andb_true_iff in Hp as [_ Hp]. apply bool_decide_eq_true in Hp.
  destruct seg as [|c seg]; [discriminate|]. injection Hp as ->.
  apply Contains_spec. exists a, (seg ++ b). reflexivity.
Qed.

(** The general formula holds for every path: the shortcut for a path
    without ['{'] computes the same number. *)
Lemma listenPathLength_formula (p : string) :
  listenPathLength p = Count p "/" + literalLength (Split p "/").
Proof.
  destruct (Contains p "{") eqn:E.
  - now apply listenPathLength_spec.
  - destruct (listenPathLength_spec p) as [_ Hp]. rewrite (Hp E).
    destruct (len_Count_Split p "/") as [-> _]. f_equal. symmetry.
    apply literalLength_total. intros seg Hin.
    destruct (isParamSegment seg) eqn:Ep; [|reflexivity].
    pose proof (param_segment_brace _ _ Hin Ep). congruence.
Qed.

(** X19: for every listen path, with or without parameters, the effective
    length is the number of slashes plus the lengths of the segments that
    are not parameters; it lies between zero and the byte length of the
    path, and it equals the byte length exactly when no segment is a
    parameter. *)
Theorem listenPathLength_bounds :
  forall p : string,
    listenPathLength p = Count p "/" + literalLength (Split p "/")
    /\ 0 <= listenPathLength p <= len p
    /\ (listenPathLength p = len p <->
        forall seg, In seg (Split p "/") -> isParamSegment seg = false).
Proof.
  intros p. split; [apply listenPathLength_formula|].
  rewrite listenPathLength_formula.
  destruct (len_Count_Split p "/") as [Hlen Hcount].
  destruct (literalLength_total (Split p "/")) as [Hb He].
  assert (0 <= Count p "/") as Hc.
  { destruct (Split_head p "/") as (seg & segs & rest & E & _).
    rewrite E in Hcount. simpl in Hcount. lia. }
  split; [lia|]. rewrite <- He. lia.
Qed.

Lemma literalLength_renaming (l l' : list string) :
  Forall2 sameUpToParameter l l' -> literalLength l = literalLength l'.
Proof.
  induction 1 as [|a b l l' Hab _ IH]; [reflexivity|].
  rewrite !literalLength_cons, IH.
  destruct Hab as [->|[-> ->]]; reflexivity.
Qed.

(** X20: the effective length does not depend on how parameters are named:
    two paths whose segments are pairwise the same, or both parameters, have
    the same effective length, and so compare equal in the sort. *)
Theorem listenPathLength_parameter_names :
  forall p q : string,
    Forall2 sameUpToParameter (Split p "/") (Split q "/") ->
    listenPathLength p = listenPathLength q.
Proof.
  intros p q H. rewrite !listenPathLength_formula.
  rewrite (literalLength_renaming _ _ H).
  apply Forall2_length in H.
  destruct (len_Count_Split p "/") as [_ Hp].
  destruct (len_Count_Split q "/") as [_ Hq]. lia.
Qed.

Lemma listenPathLength_parameter_names_witness :
  listenPathLength "/users/{id}/x" = listenPathLength "/users/{userName}/x".
Proof.
  apply listenPathLength_parameter_names. vm_compute.
  apply List.Forall2_cons; [left; reflexivity|].
  apply List.Forall2_cons; [left; reflexivity|].
  apply List.Forall2_cons; [right; split; reflexivity|].
  apply List.Forall2_cons; [left; reflexivity|].
  apply List.Forall2_nil.
Defined.

(** ** The comparison of the sort *)

(** X21: the comparison [sortSpecsByListenPath] sorts by is a strict weak
    order, as [sort.Slice] requires; two descriptors are tied in it, so that
    the sort may put them in either order, exactly when both have a domain
    or neither has, and their listen paths have the same effective
    length. *)
Theorem specLess_ties :
  StrictWeakOrder specLess
  /\ forall a b : APISpec,
      sameRank specLess a b = true <->
      ((Domain a = "" <-> Domain b = "")
       /\ listenPathLength (ListenPath (Proxy a))
          = listenPathLength (ListenPath (Proxy b))).
Proof.
  split; [exact specLess_strict_weak|].
  intros a b. unfold sameRank, specLess.
  destruct (String.eqb_spec (Domain a) ""), (String.eqb_spec (Domain b) "");
    simpl; rewrite ?andb_true_iff, ?negb_true_iff, ?Z.ltb_ge;
    intuition (try congruence; try lia).
Qed.

(** ** TLS normalisation, applied again *)

(** X22: the TLS normalisation is not idempotent.  Applying it to its own
    result changes the maximum version exactly when the descriptor came
    with no maximum and a minimum below TLS 1.2, in which case the first
    application raises the maximum to the minimum and the second to
    TLS 1.2; a third application never changes anything. *)
Theorem normaliseTLS_twice :
  forall t : TransportConfig,
    (normaliseTLS (normaliseTLS t) <> normaliseTLS t <->
     SSLMaxVersion t = 0%N
     /\ (0 < SSLMinVersion t)%N /\ (SSLMinVersion t < VersionTLS12)%N)
    /\ (SSLMaxVersion t = 0%N ->
        (0 < SSLMinVersion t)%N -> (SSLMinVersion t < VersionTLS12)%N ->
        SSLMaxVersion (normaliseTLS t) = SSLMinVersion t
        /\ SSLMaxVersion (normaliseTLS (normaliseTLS t)) = VersionTLS12)
    /\ normaliseTLS (normaliseTLS (normaliseTLS t))
       = normaliseTLS (normaliseTLS t).
Proof.
  intros [tmin tmax]. unfold normaliseTLS, VersionTLS12. simpl.
  destruct (N.ltb_spec 0 tmax); simpl;
    repeat match goal with
           | |- context [N.ltb ?x ?y] => destruct (N.ltb_spec x y); simpl in *
           end;
    try (exfalso; lia);
    (split; [split; [intros Hne | intros (? & ? & ?) Heq; inversion Heq]
            | split; [intros; split|] ]);
    try reflexivity; try lia; try (exfalso; apply Hne; f_equal; lia).
  assert (tmin <> 771%N) by (intros ->; now apply Hne). lia.
Qed.

Example normaliseTLS_twice_example :
  normaliseTLS (mkTransport 769 0) = mkTransport 769 769
  /\ normaliseTLS (normaliseTLS (mkTransport 769 0)) = mkTransport 769 771.
Proof. split; reflexivity. Qed.

(** ** Store selection *)

(** X23: with the stores of [prepareStorage], whatever the storage engines
    of the descriptor, the session store works on keys prefixed "apikey-"
    and the org store on keys prefixed "orgkey."; the auth store works on
    "apikey-" keys too unless the engine is LDAP; the hash-keys setting
    reaches the auth and session stores and never the org store.
    [EnforceOrgDataAge] is switched on exactly when the engine of the auth
    provider is RPC, whatever the session provider says.  A TCP service is
    given the same auth, session and org stores as an HTTP service, with
    the shared health store. *)
Theorem store_selection :
  forall (hashKeys : bool) (authProvider : AuthProviderMeta)
         (sessionProvider : SessionProviderMeta),
    let gs := prepareStorage hashKeys in
    let sel := configureAuthAndOrgStores gs authProvider sessionProvider in
    storeKeyPrefix (selSessionStore sel) = Some "apikey-"
    /\ storeKeyPrefix (selOrgStore sel) = Some "orgkey."
    /\ (AuthStorageEngine authProvider <> LDAPStorageEngine ->
        storeKeyPrefix (selAuthStore sel) = Some "apikey-")
    /\ (AuthStorageEngine authProvider = LDAPStorageEngine ->
        selAuthStore sel = LDAPStorageHandler (AuthMeta authProvider))
    /\ (selSessionStore sel = RedisCluster "apikey-" hashKeys false
        \/ selSessionStore sel = RPCStorageHandler "apikey-" hashKeys)
    /\ (selOrgStore sel = RedisCluster "orgkey." false false
        \/ selOrgStore sel = GlobalMDCBStorageHandler "orgkey." false)
    /\ (selEnforceOrgDataAge sel = true <->
        AuthStorageEngine authProvider = RPCStorageEngine)
    /\ loadTCPService gs authProvider sessionProvider
       = ((selAuthStore sel, selSessionStore sel, healthStore gs, selOrgStore sel),
          selEnforceOrgDataAge sel).
Proof.
  intros hashKeys [authEngine meta] [sessionEngine] gs sel.
  subst sel gs. unfold configureAuthAndOrgStores, loadTCPService, prepareStorage.
  simpl.
  destruct authEngine, sessionEngine; simpl;
    repeat split; auto; try congruence; try discriminate.
Qed.

(** * The security schemes of the OAS document *)

Lemma appendSecurity_fault (s : OAS) (name : string) :
  appendSecurity s name = None <-> ~ securityWritable s.
Proof.
  unfold appendSecurity, securityWritable.
  destruct (Security s) as [|[first|] rest]; simpl.
  - split; [discriminate | tauto].
  - destruct (first !! name); split; (discriminate || tauto).
  - tauto.
Qed.

Lemma appendSecurity_result (s s' : OAS) (name : string) :
  appendSecurity s name = Some s' ->
  Components s' = Components s
  /\ exists first,
      Security s' = Some first :: tail (Security s)
      /\ (forall n, n <> name ->
            first !! n
            = match requiredSchemes s with
              | Some first0 => first0 !! n
              | None => None
              end)
      /\ first !! name
         = Some match requiredSchemes s with
                | Some first0 =>
                    match first0 !! name with
                    | Some scopes => scopes
                    | None => []
                    end
                | None => []
                end.
Proof.
  unfold appendSecurity, requiredSchemes.
  destruct (Security s) as [|[first|] rest]; simpl; [| |discriminate].
  - rewrite lookup_empty. intros [= <-]. simpl. split; [reflexivity|].
    eexists. split; [reflexivity|]. split.
    + intros n Hn. rewrite lookup_insert_ne by congruence. apply lookup_empty.
    + apply lookup_insert_eq.
  - destruct (first !! name) as [scopes|] eqn:E; intros [= <-]; simpl;
      (split; [reflexivity|]); eexists; (split; [reflexivity|]); split.
    + reflexivity.
    + exact E.
    + intros n Hn. now rewrite lookup_insert_ne by congruence.
    + apply lookup_insert_eq.
Qed.

Lemma appendSecurity_again (s s' : OAS) (name : string) :
  appendSecurity s name = Some s' -> appendSecurity s' name = Some s'.
Proof.
  intros H. destruct (appendSecurity_result _ _ _ H) as (Hc & first & Hs & _ & Hn).
  unfold appendSecurity. rewrite Hs. simpl. rewrite Hn.
  destruct s' as [c' sec']. simpl in *. now rewrite Hs.
Qed.

(** X24: [appendSecurity] faults exactly when the first requirement of the
    document is the nil map.  Otherwise it leaves the components, the later
    requirements and, in the first requirement, every other scheme name
    alone; the name is listed afterwards, with the scopes it had or with
    none; and appending the same name again changes nothing. *)
Theorem appendSecurity_adds_once :
  forall (s : OAS) (name : string),
    (appendSecurity s name = None <-> ~ securityWritable s)
    /\ forall s',
        appendSecurity s name = Some s' ->
        Components s' = Components s
        /\ (exists first,
             Security s' = Some first :: tail (Security s)
             /\ (forall n, n <> name ->
                   first !! n
                   = match requiredSchemes s with
                     | Some first0 => first0 !! n
                     | None => None
                     end)
             /\ first !! name
                = Some match requiredSchemes s with
                       | Some first0 =>
                           match first0 !! name with
                           | Some scopes => scopes
                           | None => []
                           end
                       | None => []
                       end)
        /\ appendSecurity s' name = Some s'.
Proof.
  intros s name. split; [apply appendSecurity_fault|].
  intros s' H. destruct (appendSecurity_result _ _ _ H) as [Hc Hf].
  split; [exact Hc|]. split; [exact Hf|]. now apply appendSecurity_again with s.
Qed.

(** What the opening lines of the fill functions find. *)
Lemma schemeRefFor_fillable (s : OAS) (name : string) :
  fillable s name ->
  exists ss ref,
    schemeRefFor s name = Some (ss, Some ref)
    /\ Value ref = Some (schemeOrNew s name)
    /\ ss !! name = Some (Some ref).
Proof.
  intros (components & Hc & H). unfold schemeRefFor, schemeOrNew, schemeValue.
  rewrite Hc. destruct (SecuritySchemes components) as [ss|].
  - destruct (ss !! name) as [[ref|]|] eqn:E; [| tauto |].
    + destruct H as (value & Hv). exists ss, ref. rewrite Hv. auto.
    + eexists _, _. split; [reflexivity|]. split; [reflexivity|].
      apply lookup_insert_eq.
  - rewrite lookup_empty. eexists _, _. split; [reflexivity|].
    split; [reflexivity|]. apply lookup_insert_eq.
Qed.

Lemma schemeRefFor_not_fillable (s : OAS) (name : string) :
  ~ fillable s name ->
  match schemeRefFor s name with
  | None => True
  | Some (_, None) => True
  | Some (_, Some ref) => Value ref = None
  end.
Proof.
  intros H. unfold schemeRefFor.
  destruct (Components s) as [components|] eqn:Hc; [|exact I].
  destruct (SecuritySchemes components) as [ss|] eqn:Hs.
  - destruct (ss !! name) as [[ref|]|] eqn:E; [| exact I |].
    + destruct (Value ref) as [value|] eqn:Hv; [|reflexivity].
      exfalso. apply H. exists components. rewrite Hs, E. eauto.
    + exfalso. apply H. exists components. now rewrite Hs, E.
  - exfalso. apply H. exists components. now rewrite Hs.
Qed.

Lemma schemeValue_storeScheme (s : OAS) (ss : gmap string (option SecuritySchemeRef))
    (name : string) (ref : SecuritySchemeRef) (v : SecurityScheme) :
  schemeValue (storeScheme s ss name ref v) name = Some v.
Proof. unfold schemeValue, storeScheme. simpl. now rewrite lookup_insert_eq. Qed.

Lemma schemeValue_appendSecurity (s s' : OAS) (name n : string) :
  appendSecurity s name = Some s' -> schemeValue s' n = schemeValue s n.
Proof.
  intros H. destruct (appendSecurity_result _ _ _ H) as [Hc _].
  unfold schemeValue. now rewrite Hc.
Qed.

Lemma securityWritable_storeScheme (s : OAS) (ss : gmap string (option SecuritySchemeRef))
    (name : string) (ref : SecuritySchemeRef) (v : SecurityScheme) :
  securityWritable (storeScheme s ss name ref v) <-> securityWritable s.
Proof. reflexivity. Qed.

Lemma appendSecurity_writable (s : OAS) (name : string) :
  securityWritable s -> exists s', appendSecurity s name = Some s'.
Proof.
  intros H. destruct (appendSecurity s name) as [s'|] eqn:E; [eauto|].
  apply appendSecurity_fault in E. tauto.
Qed.

Lemma appendSecurity_Some_writable (s s' : OAS) (name : string) :
  appendSecurity s name = Some s' -> securityWritable s.
Proof.
  unfold appendSecurity, securityWritable.
  destruct (Security s) as [|[first|] rest]; simpl; (tauto || discriminate).
Qed.

Lemma fillable_dec (s : OAS) (name : string) :
  fillable s name \/ ~ fillable s name.
Proof.
  destruct (Components s) as [components|] eqn:Hc;
    [|right; intros (c & H & _); congruence].
  destruct (SecuritySchemes components) as [ss|] eqn:Hs.
  - destruct (ss !! name) as [[ref|]|] eqn:E.
    + destruct (Value ref) as [value|] eqn:Hv.
      * left. exists components. rewrite Hs, E. eauto.
      * right. intros (c & H & Hf). rewrite Hc in H. injection H as <-.
        rewrite Hs, E in Hf. destruct Hf as (value & Hf). congruence.
    + right. intros (c & H & Hf). rewrite Hc in H. injection H as <-.
      now rewrite Hs, E in Hf.
    + left. exists components. now rewrite Hs, E.
  - left. exists components. now rewrite Hs.
Qed.

(** X25: when the document can be written to, [fillAPIKeyScheme] followed
    by [extractAPIKeySchemeTo] gives back the [AuthConfig] it started from,
    with the key location the document had recorded for the scheme
    switched on; when no location was recorded, or there was no scheme of
    that name, it gives back exactly the [AuthConfig] it started from,
    although filling had emptied the key name and switched the location off
    in between.  The scheme is of type [apiKey] afterwards. *)
Theorem apiKey_round_trip :
  forall (s : OAS) (ac : AuthConfig),
    fillable s (AuthName ac) ->
    securityWritable s ->
    exists s' ac',
      fillAPIKeyScheme s ac = Some (s', ac')
      /\ extractAPIKeySchemeTo s' ac' (AuthName ac)
         = Some (withLocation (SchemeIn (schemeOrNew s (AuthName ac))) ac)
      /\ (SchemeIn (schemeOrNew s (AuthName ac)) = "" ->
          extractAPIKeySchemeTo s' ac' (AuthName ac) = Some ac)
      /\ exists value,
          schemeValue s' (AuthName ac) = Some value
          /\ SchemeType value = typeAPIKey.
Proof.
  intros s ac Hf Hw.
  destruct (schemeRefFor_fillable _ _ Hf) as (ss & ref & Href & Hv & _).
  unfold fillAPIKeyScheme. rewrite Href, Hv.
  set (value := schemeOrNew s (AuthName ac)).
  destruct ac as [name useParam paramName useCookie cookieName disableHeader
                  authHeaderName].
  simpl AuthName in *. simpl.
  assert (forall loc key v',
             v' = WithType (WithIn (WithName value key) loc) typeAPIKey ->
             exists s',
               appendSecurity (storeScheme s ss name ref v') name = Some s'
               /\ schemeValue s' name = Some v') as Happ.
  { intros loc key v' ->.
    destruct (appendSecurity_writable (storeScheme s ss name ref
                (WithType (WithIn (WithName value key) loc) typeAPIKey)) name)
      as [s' Hs']; [exact Hw|].
    exists s'. split; [exact Hs'|].
    rewrite (schemeValue_appendSecurity _ _ _ _ Hs').
    apply schemeValue_storeScheme. }
  unfold withLocation.
  destruct (String.eqb_spec (SchemeIn value) header) as [Eh|Eh];
    [|destruct (String.eqb_spec (SchemeIn value) query) as [Eq|Eq];
      [|destruct (String.eqb_spec (SchemeIn value) cookie) as [Ec|Ec];
        [|destruct (String.eqb_spec (SchemeIn value) "") as [Ee|Ee]]]];
    try rewrite Eh; try rewrite Eq; try rewrite Ec; try rewrite Ee; simpl;
    destruct disableHeader, useParam, useCookie; simpl;
    match goal with
    | |- context [appendSecurity (storeScheme s ss name ref ?v') name] =>
        destruct (Happ _ _ v' eq_refl) as (s' & -> & Hs')
    end;
    eexists _, _; (split; [reflexivity|]);
    unfold extractAPIKeySchemeTo; rewrite Hs'; simpl;
    (split; [reflexivity|]);
    (split; [first [ reflexivity | intros; discriminate ]|]);
    eexists; (split; [reflexivity|]); reflexivity.
Qed.

Lemma apiKey_round_trip_witness :
  exists s' ac',
    fillAPIKeyScheme sampleOAS sampleAuthConfig = Some (s', ac')
    /\ extractAPIKeySchemeTo s' ac' "authToken" = Some sampleAuthConfig
    /\ AuthHeaderName ac' = "" /\ DisableHeader ac' = true.
Proof.
  destruct (apiKey_round_trip sampleOAS sampleAuthConfig)
    as (s' & ac' & Hfill & _ & Hback & _).
  - exists (mkComponents None). split; [reflexivity | exact I].
  - exact I.
  - exists s', ac'. split; [exact Hfill|]. split; [now apply Hback|].
    vm_compute in Hfill. injection Hfill as _ <-. split; reflexivity.
Defined.

(** ** The OAuth flows *)

Lemma flowOf_fillFlow (f : OAuthFlows) (a t : AccessRequestType) :
  In t flowAccessTypes ->
  flowOf (fillFlow f a) t
  = if String.eqb t a then Some (flowDefaults t (flowOf f t)) else flowOf f t.
Proof.
  intros Ht. unfold fillFlow.
  destruct (String.eqb_spec a AUTHORIZATION_CODE) as [->|H1];
    [destruct Ht as [<-|[<-|[<-|[<-|[]]]]]; reflexivity|].
  destruct (String.eqb_spec a CLIENT_CREDENTIALS) as [->|H2];
    [destruct Ht as [<-|[<-|[<-|[<-|[]]]]]; reflexivity|].
  destruct (String.eqb_spec a PASSWORD) as [->|H3];
    [destruct Ht as [<-|[<-|[<-|[<-|[]]]]]; reflexivity|].
  destruct (String.eqb_spec a IMPLICIT) as [->|H4];
    [destruct Ht as [<-|[<-|[<-|[<-|[]]]]]; reflexivity|].
  destruct Ht as [<-|[<-|[<-|[<-|[]]]]];
    rewrite (proj2 (String.eqb_neq _ _)) by congruence; reflexivity.
Qed.

Lemma flowDefaults_again (t : AccessRequestType) (flow : option OAuthFlow) :
  In t flowAccessTypes ->
  flowDefaults t (Some (flowDefaults t flow)) = flowDefaults t flow.
Proof.
  intros [<-|[<-|[<-|[<-|[]]]]]; unfold flowDefaults; simpl;
    unfold setScopesIfEmpty, setTokenURLIfEmpty, setAuthorizationURLIfEmpty;
    (destruct flow as [[a tk r [sc|]]|];
     [ destruct (String.eqb a "") eqn:Ea, (String.eqb tk "") eqn:Et
     | destruct (String.eqb a "") eqn:Ea, (String.eqb tk "") eqn:Et
     | ]);
    repeat (progress (simpl; rewrite ?Ea, ?Et)); reflexivity.
Qed.

Lemma flowOf_fold_fillFlow (l : list AccessRequestType) :
  forall (f : OAuthFlows) (t : AccessRequestType),
    In t flowAccessTypes ->
    flowOf (fold_left fillFlow l f) t
    = if existsb (String.eqb t) l
      then Some (flowDefaults t (flowOf f t))
      else flowOf f t.
Proof.
  induction l as [|a l IH]; intros f t Ht; simpl; [reflexivity|].
  rewrite IH by exact Ht. rewrite flowOf_fillFlow by exact Ht.
  destruct (String.eqb t a); simpl; [|reflexivity].
  destruct (existsb (String.eqb t) l); [|reflexivity].
  now rewrite flowDefaults_again.
Qed.

Lemma flows_ext (a b : OAuthFlows) :
  (forall t, In t flowAccessTypes -> flowOf a t = flowOf b t) -> a = b.
Proof.
  intros H. destruct a as [ai ap ac aa], b as [bi bp bc ba].
  pose proof (H AUTHORIZATION_CODE ltac:(simpl; auto)) as Ha.
  pose proof (H CLIENT_CREDENTIALS ltac:(simpl; auto)) as Hc.
  pose proof (H PASSWORD ltac:(simpl; auto)) as Hp.
  pose proof (H IMPLICIT ltac:(simpl; auto)) as Hi.
  vm_compute in Ha, Hc, Hp, Hi. congruence.
Qed.

Lemma fold_fillFlow_again (l : list AccessRequestType) (f : OAuthFlows) :
  fold_left fillFlow l (fold_left fillFlow l f) = fold_left fillFlow l f.
Proof.
  apply flows_ext. intros t Ht. rewrite !flowOf_fold_fillFlow by exact Ht.
  destruct (existsb (String.eqb t) l); [|reflexivity].
  now rewrite flowDefaults_again.
Qed.

(** What [fillOAuthScheme] yields on a document it can write to. *)
Lemma fillOAuthScheme_result (s : OAS) (accessTypes : list AccessRequestType)
    (name : string) :
  fillable s name -> securityWritable s ->
  exists ss ref s',
    schemeRefFor s name = Some (ss, Some ref)
    /\ fillOAuthScheme s accessTypes name = Some s'
    /\ appendSecurity
         (storeScheme s ss name ref
            (setFlows (WithType (schemeOrNew s name) typeOAuth2)
               (Some (fold_left fillFlow accessTypes (flowsAt s name)))))
         name = Some s'
    /\ schemeValue s' name
       = Some (setFlows (WithType (schemeOrNew s name) typeOAuth2)
                 (Some (fold_left fillFlow accessTypes (flowsAt s name)))).
Proof.
  intros Hf Hw.
  destruct (schemeRefFor_fillable _ _ Hf) as (ss & ref & Href & Hv & _).
  unfold fillOAuthScheme. rewrite Href, Hv.
  destruct (appendSecurity_writable
              (storeScheme s ss name ref
                 (setFlows (WithType (schemeOrNew s name) typeOAuth2)
                    (Some (fold_left fillFlow accessTypes (flowsAt s name)))))
              name) as [s' Hs']; [exact Hw|].
  exists ss, ref, s'. split; [reflexivity|].
  split; [exact Hs'|]. split; [exact Hs'|].
  rewrite (schemeValue_appendSecurity _ _ _ _ Hs').
  apply schemeValue_storeScheme.
Qed.

Lemma fillOAuthScheme_inv (s s' : OAS) (accessTypes : list AccessRequestType)
    (name : string) :
  fillOAuthScheme s accessTypes name = Some s' ->
  fillable s name /\ securityWritable s.
Proof.
  unfold fillOAuthScheme. intros Hfill.
  destruct (fillable_dec s name) as [Hf|Hf].
  - split; [exact Hf|].
    destruct (schemeRefFor_fillable _ _ Hf) as (ss & ref & Href & Hv & _).
    rewrite Href, Hv in Hfill.
    now apply appendSecurity_Some_writable in Hfill.
  - pose proof (schemeRefFor_not_fillable _ _ Hf) as Hn.
    destruct (schemeRefFor s name) as [[ss [ref|]]|]; try discriminate.
    rewrite Hn in Hfill. discriminate.
Qed.

(** X26: on a document that can be written to, [extractOAuthSchemeTo] after
    [fillOAuthScheme] appends, to the access types the definition already
    has, those of authorization code, client credentials, password and
    implicit, in this order and once each, that were filled in or had a
    flow in the document before.  The order and the repetitions of the
    access types filled in, and every other access type such as the refresh
    token, are not recovered from the scheme. *)
Theorem oauth_scheme_round_trip :
  forall (s : OAS) (accessTypes allowed : list AccessRequestType)
         (name : string),
    fillable s name ->
    securityWritable s ->
    exists s',
      fillOAuthScheme s accessTypes name = Some s'
      /\ extractOAuthSchemeTo s' allowed name
         = Some (allowed
                 ++ List.filter (hasFlow (flowsAt s name) accessTypes)
                      flowAccessTypes)%list.
Proof.
  intros s accessTypes allowed name Hf Hw.
  destruct (fillOAuthScheme_result s accessTypes name Hf Hw)
    as (ss & ref & s' & _ & Hfill & _ & Hv).
  exists s'. split; [exact Hfill|].
  unfold extractOAuthSchemeTo. rewrite Hv. simpl.
  set (flows := fold_left fillFlow accessTypes (flowsAt s name)).
  assert (forall t, In t flowAccessTypes ->
            match flowOf flows t with Some _ => true | None => false end
            = hasFlow (flowsAt s name) accessTypes t) as Hflow.
  { intros t Ht. unfold flows, hasFlow. rewrite flowOf_fold_fillFlow by exact Ht.
    destruct (existsb (String.eqb t) accessTypes); reflexivity. }
  pose proof (Hflow AUTHORIZATION_CODE ltac:(simpl; auto)) as Ha.
  pose proof (Hflow CLIENT_CREDENTIALS ltac:(simpl; auto)) as Hc.
  pose proof (Hflow PASSWORD ltac:(simpl; auto)) as Hp.
  pose proof (Hflow IMPLICIT ltac:(simpl; auto)) as Hi.
  change (flowOf flows AUTHORIZATION_CODE) with (AuthorizationCode flows) in Ha.
  change (flowOf flows CLIENT_CREDENTIALS) with (ClientCredentials flows) in Hc.
  change (flowOf flows PASSWORD) with (Password flows) in Hp.
  change (flowOf flows IMPLICIT) with (Implicit flows) in Hi.
  unfold flowAccessTypes. cbn [List.filter].
  rewrite <- Ha, <- Hc, <- Hp, <- Hi.
  destruct (AuthorizationCode flows), (ClientCredentials flows),
    (Password flows), (Implicit flows);
    rewrite <- ?List.app_assoc; simpl; rewrite ?List.app_nil_r; reflexivity.
Qed.

Lemma oauth_scheme_round_trip_witness :
  exists s',
    fillOAuthScheme sampleOAS [REFRESH_TOKEN; PASSWORD; AUTHORIZATION_CODE;
                               PASSWORD] "oauth"
    = Some s'
    /\ extractOAuthSchemeTo s' [] "oauth"
       = Some [AUTHORIZATION_CODE; PASSWORD].
Proof.
  destruct (oauth_scheme_round_trip sampleOAS
              [REFRESH_TOKEN; PASSWORD; AUTHORIZATION_CODE; PASSWORD] []
              "oauth") as (s' & Hfill & Hback).
  - exists (mkComponents None). split; [reflexivity | exact I].
  - exact I.
  - exists s'. split; [exact Hfill|]. rewrite Hback. reflexivity.
Defined.

(** X27: [fillOAuthSchemeForExternal] does to the document exactly what
    [fillOAuthScheme] does for the one access type authorization code, on
    every document, also where both fault. *)
Theorem fillOAuthSchemeForExternal_is_authorization_code :
  forall (s : OAS) (name : string),
    fillOAuthSchemeForExternal s name
    = fillOAuthScheme s [AUTHORIZATION_CODE] name.
Proof.
  intros s name. unfold fillOAuthSchemeForExternal, fillOAuthScheme.
  destruct (schemeRefFor s name) as [[ss [ref|]]|]; [|reflexivity|reflexivity].
  destruct (Value ref); reflexivity.
Qed.

(** X28: filling never takes a flow away and never replaces what a flow
    already says: a flow the scheme had is still there after
    [fillOAuthScheme], with the same refresh URL, the same authorization
    URL and token URL unless they were empty, and the same scopes unless
    the map was nil. *)
Theorem fillOAuthScheme_keeps_flows :
  forall (s s' : OAS) (accessTypes : list AccessRequestType) (name : string)
         (t : AccessRequestType) (flow : OAuthFlow),
    fillOAuthScheme s accessTypes name = Some s' ->
    flowOf (flowsAt s name) t = Some flow ->
    exists flow',
      flowOf (flowsAt s' name) t = Some flow'
      /\ RefreshURL flow' = RefreshURL flow
      /\ (AuthorizationURL flow <> "" ->
          AuthorizationURL flow' = AuthorizationURL flow)
      /\ (TokenURL flow <> "" -> TokenURL flow' = TokenURL flow)
      /\ (Scopes flow <> None -> Scopes flow' = Scopes flow).
Proof.
  intros s s' accessTypes name t flow Hfill Hflow.
  assert (In t flowAccessTypes) as Ht.
  { unfold flowOf in Hflow. simpl.
    destruct (String.eqb_spec t AUTHORIZATION_CODE); [auto|].
    destruct (String.eqb_spec t CLIENT_CREDENTIALS); [auto|].
    destruct (String.eqb_spec t PASSWORD); [auto|].
    destruct (String.eqb_spec t IMPLICIT); [auto 6|discriminate]. }
  destruct (fillOAuthScheme_inv _ _ _ _ Hfill) as [Hf Hw].
  destruct (fillOAuthScheme_result s accessTypes name Hf Hw)
    as (ss & ref & s2 & _ & Hfill2 & _ & Hv).
  rewrite Hfill in Hfill2. injection Hfill2 as <-.
  unfold flowsAt at 1. unfold schemeOrNew. rewrite Hv. simpl.
  rewrite flowOf_fold_fillFlow by exact Ht. rewrite Hflow.
  destruct (existsb (String.eqb t) accessTypes); [|exists flow; tauto].
  eexists. split; [reflexivity|].
  destruct flow as [a tk r sc]. simpl.
  destruct Ht as [<-|[<-|[<-|[<-|[]]]]]; unfold flowDefaults; simpl;
    unfold setScopesIfEmpty, setTokenURLIfEmpty, setAuthorizationURLIfEmpty;
    destruct (String.eqb a "") eqn:Ea, (String.eqb tk "") eqn:Et;
    repeat (progress (simpl; rewrite ?Ea, ?Et));
    destruct sc; simpl; repeat split; try congruence; intros;
    try apply String.eqb_eq in Ea; try apply String.eqb_eq in Et; congruence.
Qed.

Lemma fillOAuthScheme_keeps_flows_witness :
  exists s' flow',
    fillOAuthScheme sampleOAuthOAS [PASSWORD; IMPLICIT] "oauth" = Some s'
    /\ flowOf (flowsAt s' "oauth") PASSWORD = Some flow'
    /\ TokenURL flow' = "/custom/token".
Proof.
  destruct (fillOAuthScheme sampleOAuthOAS [PASSWORD; IMPLICIT] "oauth")
    as [s'|] eqn:E; [|vm_compute in E; discriminate].
  destruct (fillOAuthScheme_keeps_flows _ _ _ _ PASSWORD sampleFlow E eq_refl)
    as (flow' & H1 & _ & _ & H2 & _).
  exists s', flow'. split; [reflexivity|]. split; [exact H1|].
  apply H2. discriminate.
Defined.

Lemma setFlows_WithType_again (v : SecurityScheme) (flows : option OAuthFlows) :
  setFlows (WithType (setFlows (WithType v typeOAuth2) flows) typeOAuth2) flows
  = setFlows (WithType v typeOAuth2) flows.
Proof. reflexivity. Qed.

(** X29: [fillOAuthScheme] is idempotent: filling the same access types
    into the document it has produced gives that document again. *)
Theorem fillOAuthScheme_idempotent :
  forall (s s' : OAS) (accessTypes : list AccessRequestType) (name : string),
    fillOAuthScheme s accessTypes name = Some s' ->
    fillOAuthScheme s' accessTypes name = Some s'.
Proof.
  intros s s' accessTypes name Hfill.
  destruct (fillOAuthScheme_inv _ _ _ _ Hfill) as [Hf Hw].
  destruct (fillOAuthScheme_result s accessTypes name Hf Hw)
    as (ss & ref & s2 & _ & Hfill2 & Happ & _).
  rewrite Hfill in Hfill2. injection Hfill2 as <-.
  set (v' := setFlows (WithType (schemeOrNew s name) typeOAuth2)
               (Some (fold_left fillFlow accessTypes (flowsAt s name)))) in *.
  destruct (appendSecurity_result _ _ _ Happ) as [Hc _].
  unfold fillOAuthScheme, schemeRefFor. rewrite Hc. simpl.
  rewrite lookup_insert_eq. simpl.
  rewrite fold_fillFlow_again. fold v'.
  replace (storeScheme s' _ name _ _) with s'.
  - now apply appendSecurity_again with (storeScheme s ss name ref v').
  - unfold storeScheme. simpl. rewrite insert_insert_eq.
    destruct s' as [c' sec']. simpl in *. now rewrite Hc.
Qed.

Lemma fillOAuthScheme_idempotent_witness :
  exists s',
    fillOAuthScheme sampleOAuthOAS [AUTHORIZATION_CODE] "oauth" = Some s'
    /\ fillOAuthScheme s' [AUTHORIZATION_CODE] "oauth" = Some s'.
Proof.
  destruct (fillOAuthScheme sampleOAuthOAS [AUTHORIZATION_CODE] "oauth")
    as [s'|] eqn:E; [|vm_compute in E; discriminate].
  exists s'. split; [reflexivity|].
  now apply (fillOAuthScheme_idempotent sampleOAuthOAS).
Defined.

Lemma fillAPIKeyScheme_inv (s : OAS) (ac : AuthConfig) (r : OAS * AuthConfig) :
  fillAPIKeyScheme s ac = Some r ->
  fillable s (AuthName ac) /\ securityWritable s.
Proof.
  unfold fillAPIKeyScheme. intros Hfill.
  destruct (fillable_dec s (AuthName ac)) as [Hf|Hf].
  - split; [exact Hf|].
    destruct (schemeRefFor_fillable _ _ Hf) as (ss & ref & Href & Hv & _).
    rewrite Href, Hv in Hfill.
    match type of Hfill with
    | context [if ?b then (header, ?k, ?a) else ?e] =>
        destruct (if b then (header, k, a) else e) as [[loc key] ac']
    end.
    destruct (appendSecurity _ _) as [s'|] eqn:E; [|discriminate].
    now apply appendSecurity_Some_writable in E.
  - pose proof (schemeRefFor_not_fillable _ _ Hf) as Hn.
    destruct (schemeRefFor s (AuthName ac)) as [[ss [ref|]]|];
      try discriminate.
    rewrite Hn in Hfill. discriminate.
Qed.

Lemma fillAPIKeyScheme_defined (s : OAS) (ac : AuthConfig) :
  fillable s (AuthName ac) -> securityWritable s ->
  exists r, fillAPIKeyScheme s ac = Some r.
Proof.
  intros Hf Hw. unfold fillAPIKeyScheme.
  destruct (schemeRefFor_fillable _ _ Hf) as (ss & ref & Href & Hv & _).
  rewrite Href, Hv.
  match goal with
  | |- context [if ?b then (header, ?k, ?a) else ?e] =>
      destruct (if b then (header, k, a) else e) as [[loc key] ac']
  end.
  match goal with
  | |- context [appendSecurity ?d ?n] =>
      destruct (appendSecurity_writable d n) as [s' ->]; [exact Hw|]
  end.
  eauto.
Qed.

(** X30: the fill functions fault exactly when the document gives them
    nothing to write to: when [s.Components] is nil, when the entry of the
    name is a nil pointer or a reference without a scheme, or when the first
    security requirement is the nil map.  A missing entry, a nil map of
    schemes and an empty list of requirements are all made good. *)
Theorem fill_functions_fault :
  forall (s : OAS) (ac : AuthConfig) (accessTypes : list AccessRequestType)
         (name : string),
    (fillAPIKeyScheme s ac = None <->
     ~ (fillable s (AuthName ac) /\ securityWritable s))
    /\ (fillOAuthScheme s accessTypes name = None <->
        ~ (fillable s name /\ securityWritable s))
    /\ (fillOAuthSchemeForExternal s name = None <->
        ~ (fillable s name /\ securityWritable s)).
Proof.
  intros s ac accessTypes name.
  assert (forall types,
             fillOAuthScheme s types name = None <->
             ~ (fillable s name /\ securityWritable s)) as Hoauth.
  { intros types. split.
    - intros Hnone [Hf Hw].
      destruct (fillOAuthScheme_result s types name Hf Hw)
        as (_ & _ & s' & _ & Hfill & _). congruence.
    - intros Hn. destruct (fillOAuthScheme s types name) as [s'|] eqn:E;
        [|reflexivity].
      exfalso. apply Hn. now apply fillOAuthScheme_inv with s' types. }
  split; [|split; [apply Hoauth|]].
  - split.
    + intros Hnone [Hf Hw].
      destruct (fillAPIKeyScheme_defined s ac Hf Hw) as [r Hr]. congruence.
    + intros Hn. destruct (fillAPIKeyScheme s ac) as [r|] eqn:E; [|reflexivity].
      exfalso. apply Hn. now apply fillAPIKeyScheme_inv with r.
  - replace (fillOAuthSchemeForExternal s name)
      with (fillOAuthScheme s [AUTHORIZATION_CODE] name); [apply Hoauth|].
    unfold fillOAuthSchemeForExternal, fillOAuthScheme.
    destruct (schemeRefFor s name) as [[ss [ref|]]|]; try reflexivity.
Qed.
